(** * Tool-of-the-Tavern: slug parsing, standings client, HSL filter and
      graphic layout, embedded from the JavaScript sources.

    Numbers of the colour code are IEEE-754 binary64 values ([PrimFloat]),
    evaluated bit for bit as a JavaScript engine does.  The layout code of the
    renderer works on measured text widths, which are supplied by the browser;
    there a width is the rational number the double denotes, every sum the
    code forms with one is rounded to the nearest double, and every quantity
    the code rounds with [Math.ceil] or builds from integers is a [Z]. *)

From Stdlib Require Import ZArith QArith Qround Lia Lqa Bool List.
From Stdlib Require Import Strings.String Strings.Ascii.
From Stdlib Require Import Floats.PrimFloat Floats.FloatOps Floats.SpecFloat.
From Stdlib Require Import Floats.FloatAxioms.
From Stdlib Require Import Numbers.Cyclic.Int63.Uint63.
From stdpp Require Import base option list gmap.

Close Scope Q_scope.
Set Default Proof Using "Type".

(* ===================================================================== *)
(** * Part I: the embedding *)
(* ===================================================================== *)

(** ** JavaScript numbers *)

Module JsNumber.
Local Open Scope float_scope.

(** An integer below 2^53 as a JavaScript number. *)
Definition Z2F (z : Z) : float := of_uint63 (Uint63.of_Z z).

Definition two52 : float := 4503599627370496.

(** Nearest integer, ties to even, of a number of magnitude below 2^52:
    adding and removing 2^52 rounds at the unit position. *)
Definition rint (x : float) : float :=
  if 0 <=? x then (x + two52) - two52 else (x - two52) + two52.

(** [Math.round]: numbers that are not finite or are integral are returned
    as they are (every double of magnitude 2^52 or more is integral); the
    others go to the nearest integer, a tie to the one closer to +infinity;
    a zero result keeps the sign of the argument. *)
Definition Math_round (x : float) : float :=
  if abs x <? two52 then
    let y := rint x in
    let r := if x - y =? 0.5 then y + 1 else y in
    if r =? 0 then (if x <? 0 then (-0) else if x =? 0 then x else 0) else r
  else x.

(** [Math.max] and [Math.min] of two numbers: NaN if either is NaN, and
    +0 is larger than -0. *)
Definition Math_max (a b : float) : float :=
  if a <? b then b else if b <? a then a
  else if a =? b then (if a =? 0 then a + b else a)
  else nan.

Definition Math_min (a b : float) : float :=
  if a <? b then a else if b <? a then b
  else if a =? b then (if a =? 0 then - ((- a) + (- b)) else a)
  else nan.

(** The integer a finite integral double denotes (0 for the others). *)
Definition F2Z (x : float) : Z :=
  match Prim2SF x with
  | S754_finite sgn m e =>
      let v := (if (0 <=? e)%Z then Z.shiftl (Z.pos m) e
                else Z.shiftr (Z.pos m) (- e))%Z in
      if sgn then (- v)%Z else v
  | _ => 0%Z
  end.

(** The conversion a [Uint8ClampedArray] applies to a stored number:
    NaN becomes 0, the value is clamped to [0,255] and rounded to the
    nearest integer, ties to even. *)
Definition ToUint8Clamp (x : float) : Z :=
  if is_nan x then 0%Z
  else if x <=? 0 then 0%Z
  else if 255 <=? x then 255%Z
  else F2Z (rint x).

End JsNumber.

(** ** hslFilter.js *)

Module HslFilter.
Import JsNumber.
Local Open Scope float_scope.

Definition sixth : float := Eval cbv in (1 / 6).
Definition half : float := Eval cbv in (1 / 2).
Definition third : float := Eval cbv in (1 / 3).
Definition two_thirds : float := Eval cbv in (2 / 3).

(** [rgbToHsl(r, g, b)]: the [switch (max)] compares with strict equality,
    first match wins. *)
Definition rgbToHsl (r g b : float) : float * float * float :=
  let r := r / 255 in
  let g := g / 255 in
  let b := b / 255 in
  let max := Math_max (Math_max r g) b in
  let min := Math_min (Math_min r g) b in
  let l := (max + min) / 2 in
  if max =? min then (0 * 360, 0 * 100, l * 100)
  else
    let d := max - min in
    let s := if 0.5 <? l then d / (2 - max - min) else d / (max + min) in
    let h :=
      if max =? r then ((g - b) / d + (if g <? b then 6 else 0)) / 6
      else if max =? g then ((b - r) / d + 2) / 6
      else if max =? b then ((r - g) / d + 4) / 6
      else 0 in
    (h * 360, s * 100, l * 100).

(** The inner helper of [hslToRgb]; [1 / 6], [1 / 2] and [2 / 3] are the
    doubles those divisions produce. *)
Definition hue2rgb (p q t : float) : float :=
  let t := if t <? 0 then t + 1 else t in
  let t := if 1 <? t then t - 1 else t in
  if t <? sixth then p + (q - p) * 6 * t
  else if t <? half then q
  else if t <? two_thirds then p + (q - p) * (two_thirds - t) * 6
  else p.

Definition hslToRgb (h s l : float) : float * float * float :=
  let h := h / 360 in
  let s := s / 100 in
  let l := l / 100 in
  if s =? 0 then
    (Math_round (l * 255), Math_round (l * 255), Math_round (l * 255))
  else
    let q := if l <? 0.5 then l * (1 + s) else l + s - l * s in
    let p := 2 * l - q in
    (Math_round (hue2rgb p q (h + third) * 255),
     Math_round (hue2rgb p q h * 255),
     Math_round (hue2rgb p q (h - third) * 255)).

(** Two numbers differ by at most one. *)
Definition within1 (x y : float) : bool := abs (x - y) <=? 1.

Definition roundtrip_ok (r g b : float) : bool :=
  let '(h, s, l) := rgbToHsl r g b in
  let '(r', g', b') := hslToRgb h s l in
  within1 r' r && within1 g' g && within1 b' b.

(** *** Vocabulary for the round trip over all triples *)

(** The 256 channel values. *)
Definition channels : list Z := Eval vm_compute in map Z.of_nat (seq 0 256).

(** A channel value as [rgbToHsl] receives it and as it is after the
    division by 255. *)
Definition chan : Type := float * float.
Definition chanOf (z : Z) : chan := (Z2F z, Z2F z / 255).

(** [n - 1], ..., 1, 0 *)
Fixpoint countdown (n : nat) : list Z :=
  match n with
  | O => []
  | S k => Z.of_nat k :: countdown k
  end.

(** The channels from 255 down to 0. *)
Definition channelsDown : list chan :=
  Eval vm_compute in map chanOf (countdown 256).

(** [rgbToHsl] once the channels are divided and their maximum and
    minimum are known. *)
Definition hslOf (max min r g b : float) : float * float * float :=
  let l := (max + min) / 2 in
  if max =? min then (0 * 360, 0 * 100, l * 100)
  else
    let d := max - min in
    let s := if 0.5 <? l then d / (2 - max - min) else d / (max + min) in
    let h :=
      if max =? r then ((g - b) / d + (if g <? b then 6 else 0)) / 6
      else if max =? g then ((b - r) / d + 2) / 6
      else if max =? b then ((r - g) / d + 4) / 6
      else 0 in
    (h * 360, s * 100, l * 100).

(** The round trip of three channels whose maximum and minimum are
    known. *)
Definition roundtripOf (max min : float) (cr cg cb : chan) : bool :=
  let '(h, s, l) := hslOf max min (snd cr) (snd cg) (snd cb) in
  let '(r', g', b') := hslToRgb h s l in
  within1 r' (fst cr) && within1 g' (fst cg) && within1 b' (fst cb).

(** [Math.round(hue2rgb(p, q, t) * 255)], given the rounded values [vq]
    and [vp] of the two branches that return [q] and [p]. *)
Definition hue2rgbRounded (p q vq vp t : float) : float :=
  let t := if t <? 0 then t + 1 else t in
  let t := if 1 <? t then t - 1 else t in
  if t <? sixth then Math_round ((p + (q - p) * 6 * t) * 255)
  else if t <? half then vq
  else if t <? two_thirds
       then Math_round ((p + (q - p) * (two_thirds - t) * 6) * 255)
  else vp.

(** The round trip of three channels of a colour that is not gray, from
    what depends on the maximum and the minimum only: their difference
    [d], the helper values [p] and [q] of [hslToRgb] and their rounded
    values.  A channel comes as the number [r0] and the divided [r]. *)
Definition roundtripFrom (max d p q vq vp r0 r g0 g b0 b : float) : bool :=
  let h :=
    if max =? r then ((g - b) / d + (if g <? b then 6 else 0)) / 6
    else if max =? g then ((b - r) / d + 2) / 6
    else if max =? b then ((r - g) / d + 4) / 6
    else 0 in
  let h := h * 360 / 360 in
  within1 (hue2rgbRounded p q vq vp (h + third)) r0
  && within1 (hue2rgbRounded p q vq vp h) g0
  && within1 (hue2rgbRounded p q vq vp (h - third)) b0.

(** The six ways to put a largest channel [x], a middle channel [y] and a
    smallest channel [z] on red, green and blue. *)
Definition sixWays
    (ok : float -> float -> float -> float -> float -> float -> bool)
    (x0 x y0 y z0 z : float) : bool :=
  ok x0 x y0 y z0 z && ok x0 x z0 z y0 y && ok y0 y x0 x z0 z
  && ok z0 z x0 x y0 y && ok y0 y z0 z x0 x && ok z0 z y0 y x0 x.

(** [(cr, cg, cb)] puts [X], [Y] and [Z] on red, green and blue in one of
    the six ways. *)
Definition arranged (X Y Z cr cg cb : chan) : Prop :=
  (cr, cg, cb) = (X, Y, Z) \/ (cr, cg, cb) = (X, Z, Y) \/
  (cr, cg, cb) = (Y, X, Z) \/ (cr, cg, cb) = (Z, X, Y) \/
  (cr, cg, cb) = (Y, Z, X) \/ (cr, cg, cb) = (Z, Y, X).

(** All the triples with largest channel [X] and smallest channel [Z],
    the middle one taken from [mids]. *)
Definition roundtripPair (X Z : chan) (mids : list chan) : bool :=
  let '(x0, max) := X in
  let '(z0, min) := Z in
  let l := (max + min) / 2 in
  if max =? min then roundtrip_ok x0 x0 x0
  else
    let d := max - min in
    let s := if 0.5 <? l then d / (2 - max - min) else d / (max + min) in
    let s := s * 100 / 100 in
    let l := l * 100 / 100 in
    if s =? 0 then false
    else
      let q := if l <? 0.5 then l * (1 + s) else l + s - l * s in
      let p := 2 * l - q in
      let vq := Math_round (q * 255) in
      let vp := Math_round (p * 255) in
      forallb
        (fun Y : chan =>
           let '(y0, y) := Y in
           sixWays (roundtripFrom max d p q vq vp) x0 max y0 y z0 min)
        mids.

(** For the largest channel [X]: every smallest channel of [rest], the
    middle channels being those passed on the way down. *)
Fixpoint roundtripBelow (X : chan) (seen rest : list chan) : bool :=
  match rest with
  | [] => true
  | Z :: rest' =>
      roundtripPair X Z (Z :: seen) && roundtripBelow X (Z :: seen) rest'
  end.

(** Every largest channel of a list that goes down. *)
Fixpoint roundtripAll (l : list chan) : bool :=
  match l with
  | [] => true
  | X :: l' => roundtripBelow X [] l && roundtripAll l'
  end.

(** The order of two channels after the division by 255 is the order of
    the integers. *)
Definition orderKept (a b : Z) : bool :=
  Bool.eqb (snd (chanOf a) <? snd (chanOf b)) (a <? b)%Z
  && Bool.eqb (snd (chanOf a) =? snd (chanOf b)) (a =? b)%Z.

(** *** The pixel buffer and the two passes *)

(** [ImageData.data] is a [Uint8ClampedArray]: a list of bytes, four per
    pixel.  Reading past the end gives [undefined], which is NaN in the
    arithmetic that follows. *)
Definition getByte (data : list Z) (i : nat) : float :=
  match data !! i with
  | Some z => Z2F z
  | None => nan
  end.

(** Writing converts the number; a write past the end is ignored. *)
Definition setByte (data : list Z) (i : nat) (x : float) : list Z :=
  <[i := ToUint8Clamp x]> data.

(** [for (let i = 0; i < data.length; i += 4) body]; [fuel] bounds the
    number of turns, and the length of the buffer is always enough. *)
Fixpoint forEachPixel (fuel : nat) (body : nat -> list Z -> list Z)
    (i : nat) (data : list Z) : list Z :=
  match fuel with
  | O => data
  | S fuel' =>
      if (i <? length data)%nat
      then forEachPixel fuel' body (i + 4) (body i data)
      else data
  end.

#[warnings="-inexact-float"]
Definition luminosity (r g b : float) : float :=
  0.299 * r + 0.587 * g + 0.114 * b.

(** The body of the loop of [applyColorize]. *)
Definition colorizeAt (hue saturation : float) (i : nat) (data : list Z)
  : list Z :=
  let r := getByte data i in
  let g := getByte data (i + 1) in
  let b := getByte data (i + 2) in
  let a := getByte data (i + 3) in
  let gray := luminosity r g b in
  let '(_, _, l) := rgbToHsl gray gray gray in
  let '(newR, newG, newB) := hslToRgb hue saturation l in
  let data := setByte data i newR in
  let data := setByte data (i + 1) newG in
  let data := setByte data (i + 2) newB in
  setByte data (i + 3) a.

Definition applyColorize (data : list Z) (hue saturation : float)
  : list Z :=
  forEachPixel (length data) (colorizeAt hue saturation) 0 data.

(** The body of the lightness loop of [applyHslFilter]. *)
Definition lightenAt (lightnessAdjust : float) (i : nat) (data : list Z)
  : list Z :=
  let r := getByte data i in
  let g := getByte data (i + 1) in
  let b := getByte data (i + 2) in
  let a := getByte data (i + 3) in
  let '(h, s, l) := rgbToHsl r g b in
  let l := Math_max 0 (Math_min 100 (l + lightnessAdjust)) in
  let '(newR, newG, newB) := hslToRgb h s l in
  let data := setByte data i newR in
  let data := setByte data (i + 1) newG in
  let data := setByte data (i + 2) newB in
  setByte data (i + 3) a.

(** The work of [applyHslFilter] on the pixels, between [getImageData] and
    [putImageData]. *)
Definition applyHslFilter (data : list Z)
    (hueShift saturationAdjust lightnessAdjust : float) : list Z :=
  let data := applyColorize data hueShift saturationAdjust in
  if negb (lightnessAdjust =? 0)
  then forEachPixel (length data) (lightenAt lightnessAdjust) 0 data
  else data.

(** *** Vocabulary for the properties of the passes *)

(** What the colorize pass makes of one pixel. *)
Definition colorized (hue saturation : float)
    (px : float * float * float * float)
  : float * float * float * float :=
  let '(r, g, b, a) := px in
  let gray := luminosity r g b in
  let l := snd (rgbToHsl gray gray gray) in
  let '(newR, newG, newB) := hslToRgb hue saturation l in
  (newR, newG, newB, a).

(** What the lightness pass makes of one pixel. *)
Definition lightened (lightnessAdjust : float)
    (px : float * float * float * float)
  : float * float * float * float :=
  let '(r, g, b, a) := px in
  let '(h, s, l) := rgbToHsl r g b in
  let '(newR, newG, newB) :=
    hslToRgb h s (Math_max 0 (Math_min 100 (l + lightnessAdjust))) in
  (newR, newG, newB, a).

(** The four numbers read at [i], and the buffer after four numbers are
    written there. *)
Definition load4 (data : list Z) (i : nat) : float * float * float * float :=
  (getByte data i, getByte data (i + 1), getByte data (i + 2),
   getByte data (i + 3)).

Definition store4 (data : list Z) (i : nat)
    (px : float * float * float * float) : list Z :=
  let '(r, g, b, a) := px in
  setByte (setByte (setByte (setByte data i r) (i + 1) g) (i + 2) b)
    (i + 3) a.

(** A byte of a [Uint8ClampedArray]. *)
Definition isByte (z : Z) : Prop := (0 <= z <= 255)%Z.

(** Pixel [k] of [data] is [(r, g, b, a)]. *)
Definition pixelAt (data : list Z) (k : nat) (px : Z * Z * Z * Z) : Prop :=
  let '(r, g, b, a) := px in
  data !! (4 * k)%nat = Some r /\
  data !! (4 * k + 1)%nat = Some g /\
  data !! (4 * k + 2)%nat = Some b /\
  data !! (4 * k + 3)%nat = Some a.

(** Pixel [k] of [data] holds the numbers [px] as the array stores them. *)
Definition storedAt (data : list Z) (k : nat)
    (px : float * float * float * float) : Prop :=
  let '(r, g, b, a) := px in
  pixelAt data k
    (ToUint8Clamp r, ToUint8Clamp g, ToUint8Clamp b, ToUint8Clamp a).

(** *** Vocabulary for the ranges of [rgbToHsl] *)

(** The hue of a colour that is not gray lies in [0,360). *)
Definition hueInRange (max d : float) (r0 r g0 g b0 b : float) : bool :=
  let h :=
    if max =? r then ((g - b) / d + (if g <? b then 6 else 0)) / 6
    else if max =? g then ((b - r) / d + 2) / 6
    else if max =? b then ((r - g) / d + 4) / 6
    else 0 in
  let h := h * 360 in
  (0 <=? h) && (h <? 360).

(** Saturation and lightness, which depend on the largest and the smallest
    channel only, and the hue of all the triples with middle channel in
    [mids]. *)
Definition rangesPair (X Z : chan) (mids : list chan) : bool :=
  let '(x0, max) := X in
  let '(z0, min) := Z in
  let l := (max + min) / 2 in
  let l := l * 100 in
  (0 <=? l) && (l <=? 100)
  && (if max =? min then true
      else
        let d := max - min in
        let s :=
          if 0.5 <? (max + min) / 2 then d / (2 - max - min)
          else d / (max + min) in
        let s := s * 100 in
        (0 <? s) && (s <=? 100)
        && forallb
             (fun Y : chan =>
                let '(y0, y) := Y in
                sixWays (hueInRange max d) x0 max y0 y z0 min)
             mids).

(** A check of every pair of a largest channel [X] and a smallest channel
    of [rest], with the channels passed on the way down. *)
Fixpoint pairsBelow (check : chan -> chan -> list chan -> bool)
    (X : chan) (seen rest : list chan) : bool :=
  match rest with
  | [] => true
  | Z :: rest' =>
      check X Z (Z :: seen) && pairsBelow check X (Z :: seen) rest'
  end.

Fixpoint pairsAll (check : chan -> chan -> list chan -> bool)
    (l : list chan) : bool :=
  match l with
  | [] => true
  | X :: l' => pairsBelow check X [] l && pairsAll check l'
  end.

(** *** Zeros and NaN *)

(** A zero of either sign, or NaN. *)
Definition zeroish (x : float) : Prop := x = 0 \/ x = -0 \/ x = nan.

End HslFilter.

(** ** util.js *)

Module Util.
Local Open Scope string_scope.

(** [s.startsWith(p)] *)
Fixpoint startsWith (p s : string) : bool :=
  match p, s with
  | EmptyString, _ => true
  | String _ _, EmptyString => false
  | String a p', String b s' => Ascii.eqb a b && startsWith p' s'
  end.

(** [s.slice(n)] for [n >= 0] *)
Fixpoint sliceFrom (n : nat) (s : string) : string :=
  match n, s with
  | O, _ => s
  | S _, EmptyString => EmptyString
  | S k, String _ s' => sliceFrom k s'
  end.

(** [s.includes(sep)]: [sep] occurs at some position of [s]. *)
Fixpoint includes (sep s : string) : bool :=
  startsWith sep s
  || match s with
     | EmptyString => false
     | String _ s' => includes sep s'
     end.

(** [s.split(sep)] for a non-empty separator scans [s] from the left; at an
    occurrence of [sep] the piece read so far is closed and the length of
    [sep] is skipped ([skip] counts the characters of the matched separator
    still to pass), the last piece runs to the end of [s]. *)
Fixpoint split_from (sep : string) (skip : nat) (cur s : string)
  : list string :=
  match s with
  | EmptyString => [cur]
  | String c s' =>
      match skip with
      | S k => split_from sep k cur s'
      | O =>
          if startsWith sep s
          then cur :: split_from sep (String.length sep - 1) "" s'
          else split_from sep 0 (cur ++ String c "") s'
      end
  end.

(** With the empty separator, [split] gives the code units one by one. *)
Definition split (sep s : string) : list string :=
  match sep with
  | EmptyString => map (fun c => String c "") (list_ascii_of_string s)
  | _ => split_from sep 0 "" s
  end.

(** [extractSlug(input)].  Indexing an array out of range gives
    [undefined], on which [.split] throws: that is [None]. *)
Definition extractSlug (input : string) : option string :=
  if includes "start.gg/" input then
    seg ← split "start.gg/" input !! 1%nat;
    split "/overview" seg !! 0%nat
  else Some input.

(** *** Vocabulary for the properties of [extractSlug] *)

(** The text of [s] before the first occurrence of [sep], all of [s] when
    [sep] does not occur. *)
Fixpoint before (sep s : string) : string :=
  if startsWith sep s then ""
  else match s with
       | EmptyString => ""
       | String c s' => String c (before sep s')
       end.

(** The text of [s] after the first occurrence of [sep], empty when [sep]
    does not occur. *)
Fixpoint after (sep s : string) : string :=
  if startsWith sep s then sliceFrom (String.length sep) s
  else match s with
       | EmptyString => ""
       | String _ s' => after sep s'
       end.

(** [s] without the suffix [suf] when it ends with it, [s] otherwise. *)
Fixpoint stripSuffix (suf s : string) : string :=
  if String.eqb s suf then ""
  else match s with
       | EmptyString => ""
       | String c s' => String c (stripSuffix suf s')
       end.

(** The reading of the specification's sentence: everything after the
    marker, minus a trailing [/overview]. *)
Definition extractSlug_stated (input : string) : string :=
  if includes "start.gg/" input
  then stripSuffix "/overview" (after "start.gg/" input)
  else input.

(** *** Vocabulary for the occurrences of a pattern *)

(** The character [c] does not occur in [m]. *)
Definition absent (c : ascii) (m : string) : Prop :=
  includes (String c "") m = false.

End Util.

(** ** Completions of JavaScript calls *)

Module Js.

(** A thrown value, or the reason a promise is rejected with. *)
Inductive exn := Exn (name message : string).

(** How a call (or an awaited promise) ends. *)
Inductive completion (A : Type) :=
| Returns (a : A)
| Throws (e : exn).
Arguments Returns {A} a.
Arguments Throws {A} e.

End Js.

(** ** api.js *)

Module Api.
Import Js Util.
Local Open Scope string_scope.

(** A value produced by [res.json()]. *)
#[warnings="-register-all"]
Inductive json :=
| JNull
| JBool (b : bool)
| JNumber (x : float)
| JString (s : string)
| JArray (items : list json)
| JObject (fields : list (string * json)).

(** A value of the expression language: [undefined], or a JSON value. *)
Inductive value :=
| Undefined
| Value (j : json).

(** The own property [k] of a parsed object; a key that is given twice
    keeps its last value. *)
Fixpoint lookup_field (k : string) (fields : list (string * json))
  : option json :=
  match fields with
  | [] => None
  | (k', v) :: rest =>
      match lookup_field k rest with
      | Some v' => Some v'
      | None => if String.eqb k k' then Some v else None
      end
  end.

(** [o.k] on a value that is neither [null] nor [undefined], for a key that
    no prototype defines: only an object can hold it. *)
Definition getProp (j : json) (k : string) : value :=
  match j with
  | JObject fields =>
      match lookup_field k fields with
      | Some v => Value v
      | None => Undefined
      end
  | _ => Undefined
  end.

(** [v?.k] *)
Definition optChain (v : value) (k : string) : value :=
  match v with
  | Undefined | Value JNull => Undefined
  | Value j => getProp j k
  end.

(** [v ?? d] *)
Definition nullish (v : value) (d : json) : json :=
  match v with
  | Undefined | Value JNull => d
  | Value j => j
  end.

Record request := {
  url : string;
  method : string;
  headers : list (string * string);
  body_query : string;
  body_slug : string
}.

(** [res.json()] resolves with a value or rejects. *)
Inductive body :=
| Parses (j : json)
| ParseFails (e : exn).

(** [fetch] rejects, or resolves with a response of some status. *)
Inductive fetched :=
| Rejects (e : exn)
| Resolves (status : Z) (b : body).

(** What the function reads from outside: the configured key
    ([undefined] is [None]) and the network. *)
Record env := {
  VITE_STARTGG_KEY : option string;
  fetch : request -> fetched
}.

Definition query : string :=
"query EventStandings($slug: String) {
        event(slug: $slug) {
            standings(query: { perPage: 8, page: 1 }) {
                nodes {
                    placement
                    entrant { name }
                }
            }
        }
    }".

Definition top8_request (apiKey eventSlug : string) : request :=
  {| url := "https://api.start.gg/gql/alpha";
     method := "POST";
     headers := [("Content-Type", "application/json");
                 ("Authorization", "Bearer " ++ apiKey)];
     body_query := query;
     body_slug := eventSlug |}.

(** [json.data?.event?.standings?.nodes ?? []]; the first access is a plain
    one and throws on [null]. *)
Definition standings_nodes (j : json) : completion json :=
  match j with
  | JNull =>
      Throws (Exn "TypeError" "Cannot read properties of null (reading 'data')")
  | _ =>
      Returns
        (nullish
           (optChain (optChain (optChain (getProp j "data") "event")
                        "standings") "nodes")
           (JArray []))
  end.

(** [getTop8(eventUrl)]: the completion, and the requests sent, in order. *)
Definition getTop8 (e : env) (eventUrl : string)
  : completion json * list request :=
  match extractSlug eventUrl with
  | None =>
      (Throws (Exn "TypeError"
                 "Cannot read properties of undefined (reading 'split')"), [])
  | Some eventSlug =>
      match VITE_STARTGG_KEY e with
      | None => (Throws (Exn "Error" "API key not set (VITE_STARTGG_KEY)"), [])
      | Some apiKey =>
          if String.eqb apiKey ""
          then (Throws (Exn "Error" "API key not set (VITE_STARTGG_KEY)"), [])
          else
            let req := top8_request apiKey eventSlug in
            match fetch e req with
            | Rejects err => (Throws err, [req])
            | Resolves _ (ParseFails err) => (Throws err, [req])
            | Resolves _ (Parses j) => (standings_nodes j, [req])
            end
      end
  end.

(** The shape of a response that carries standings. *)
Definition standings_response (nodes : json) : json :=
  JObject [("data",
    JObject [("event",
      JObject [("standings",
        JObject [("nodes", nodes)])])])].

(** A value in a condition. *)
Definition truthy (j : json) : bool :=
  match j with
  | JNull => false
  | JBool b => b
  | JNumber x => negb ((x =? 0)%float || is_nan x)
  | JString s => negb (String.eqb s "")
  | JArray _ | JObject _ => true
  end.


(** *** Sample data: a service that refuses the key *)

Definition refusal : json :=
  JObject [("success", JBool false);
           ("message", JString "Invalid authentication token")].

Definition refusingEnv : env :=
  {| VITE_STARTGG_KEY := Some "key";
     fetch := fun _ => Resolves 401 (Parses refusal) |}.

End Api.

(** ** Doubles of the layout

    A measured width is a double, and so is every sum the layout forms with
    one.  A finite double is modelled by the rational number it denotes, and
    an arithmetic operation by the exact operation followed by the rounding
    of IEEE-754 binary64 arithmetic: to the nearest double, a tie to the one
    whose significand is even.  Infinities and NaN are not modelled: no
    browser reports them as the width of a text. *)

Module Double.
Local Open Scope Z_scope.

(** The numerator and the denominator of [(n / d) / 2 ^ e]. *)
Definition numAt (n e : Z) : Z := if 0 <=? e then n else n * 2 ^ (- e).
Definition denAt (d e : Z) : Z := if 0 <=? e then d * 2 ^ e else d.

(** [floor (log2 (n / d))], for positive [n] and [d]. *)
Definition ilog2 (n d : Z) : Z :=
  let k := Z.log2 n - Z.log2 d in
  if denAt d k <=? numAt n k then k else k - 1.

(** The integer nearest to [n / d], for positive [d]; a tie goes to the even
    one. *)
Definition nearestEven (n d : Z) : Z :=
  let q := n / d in
  let r2 := 2 * (n mod d) in
  if r2 <? d then q
  else if d <? r2 then q + 1
  else if Z.even q then q else q + 1.

(** [m * 2 ^ e] *)
Definition scale2 (m e : Z) : Q :=
  if 0 <=? e then inject_Z (m * 2 ^ e) else Qmake m (Z.to_pos (2 ^ (- e))).

(** The double nearest to [x]: 53 significant bits, or a multiple of
    2^-1074 for the numbers below 2^-1022. *)
Definition toDouble (x : Q) : Q :=
  let n := Qnum x in
  let d := Z.pos (Qden x) in
  if n =? 0 then 0%Q
  else
    let e := Z.max (ilog2 (Z.abs n) d - 52) (- 1074) in
    scale2 (nearestEven (numAt n e) (denAt d e)) e.

(** The operations of the code on two doubles. *)
Definition add (a b : Q) : Q := toDouble (a + b).
Definition sub (a b : Q) : Q := toDouble (a - b).
Definition mul (a b : Q) : Q := toDouble (a * b).
Definition div (a b : Q) : Q := toDouble (a / b).

(** The number a finite double of the processor denotes. *)
Definition ofFloat (x : float) : Q :=
  match Prim2SF x with
  | S754_finite s m e => scale2 (if s then Z.neg m else Z.pos m) e
  | _ => 0%Q
  end.

End Double.

(** ** renderer.js: the graphic renderer *)

Module Renderer.
Import Js.
Local Open Scope string_scope.
Local Open Scope Z_scope.

(** *** Entries, the heap they live in, and the page *)

(** A loaded [Image] element. *)
Inductive image := Image (src : string).

(** A RenderEntry object. *)
Record entry := {
  place : string;
  name : string;
  character : string;
  icon : option image
}.

(** Entries are objects: the caller and the renderer hold references to the
    same records. *)
Definition loc : Type := positive.

(** The argument of [generateGraphic]: an array of references, or any value
    that is not an array.  A reference without a record on the heap stands
    for an element that is [undefined]. *)
Inductive js_arg :=
| NotAnArray
| ArrayOf (items : list loc).

(** One call on a 2D context, with the context state it is drawn under. *)
Inductive drawop :=
| Scale (x y : Q)
| ClearRect (x y w h : Q)
| FillText (font fillStyle textAlign text : string) (x y : Q)
| DrawImage (img : image) (x y w h : Q)
| FillRectHsl (hue : nat) (x y w h : Q)
| StrokeRect (strokeStyle : string) (lineWidth x y w h : Q).

Record canvas := {
  width : Z;
  height : Z;
  styleWidth : Z;
  styleHeight : Z;
  ops : list drawop
}.

(** The children of the graphic area. *)
Inductive node :=
| TextNode (text : string)
| CanvasNode (c : canvas)
| DownloadLink (download : string) (target : canvas).

(** What a call asks of the browser. *)
Inductive event :=
| ImageRequested (url : string)
| TextMeasured (font text : string)
| CanvasCreated.

Record world := {
  objects : gmap loc entry;
  graphicArea : list node;
  events : list event
}.

(** What the renderer reads from the browser: whether an image URL loads
    ([onload]) or not ([onerror]), the width [measureText] reports for a
    text in a font, the state of the border checkbox and the device pixel
    ratio. *)
Record env := {
  loadImage : string -> option image;
  measureText : string -> string -> Q;
  borderChecked : bool;
  devicePixelRatio : Q
}.

(** *** Helpers *)

(** [\s] among the code units below 256. *)
Definition isSpace (c : ascii) : bool :=
  let n := nat_of_ascii c in
  ((9 <=? n) && (n <=? 13) || (n =? 32) || (n =? 160))%nat.

Fixpoint removeChars (drop : ascii -> bool) (s : string) : string :=
  match s with
  | EmptyString => EmptyString
  | String c s' =>
      if drop c then removeChars drop s' else String c (removeChars drop s')
  end.

Fixpoint mapChars (f : ascii -> ascii) (s : string) : string :=
  match s with
  | EmptyString => EmptyString
  | String c s' => String (f c) (mapChars f s')
  end.

(** [s.split(/\s+/).filter(Boolean)]: the maximal runs without white
    space. *)
Fixpoint pieces (cur s : string) : list string :=
  match s with
  | EmptyString => [cur]
  | String c s' =>
      if isSpace c then cur :: pieces "" s'
      else pieces (cur ++ String c "") s'
  end.

Definition words (s : string) : list string :=
  List.filter (fun w => negb (String.eqb w "")) (pieces "" s).

(** [toUpperCase] on ASCII text: the letters a-z change, every other code
    unit below 128 is kept.  Code units above 127 are outside the domain of
    this function (the code maps e-acute to E-acute, the sharp s to SS, and
    some to code units above 255): what is stated of the text of a badge is
    stated of ASCII names. *)
Definition upper (c : ascii) : ascii :=
  let n := nat_of_ascii c in
  if ((97 <=? n) && (n <=? 122))%nat then ascii_of_nat (n - 32) else c.

Definition firstChars (n : nat) (s : string) : string := substring 0 n s.

(** [charInitials(name)]; with no word in [name], [parts[0][0]] throws. *)
Definition charInitials (name : string) : completion string :=
  if String.eqb name "" then Returns "?"
  else
    let parts :=
      words (mapChars (fun c => if Ascii.eqb c "&" then " "%char else c) name)
    in
    match parts with
    | [p] => Returns (mapChars upper (firstChars 2 p))
    | p0 :: p1 :: _ =>
        Returns (mapChars upper (firstChars 1 p0 ++ firstChars 1 p1))
    | [] =>
        Throws (Exn "TypeError"
                  "Cannot read properties of undefined (reading '0')")
    end.

(** [cleanedIconBase(name)]: [null] is [None]. *)
Definition cleanedIconBase (name : string) : option string :=
  if String.eqb name "" then None
  else
    Some (removeChars isSpace
            (removeChars (fun c => Ascii.eqb c ".") name)).

(** [loadCharacterIcon(character)]: the value the promise resolves with and
    the image request made, if any. *)
Definition loadCharacterIcon (e : env) (character : string)
  : option image * list event :=
  if String.eqb character "" then (None, [])
  else
    match cleanedIconBase character with
    | None => (None, [])
    | Some base =>
        if String.eqb base "" then (None, [])
        else
          let filename := base ++ "HeadSSBM.png" in
          let url := "../assets/stockicons/" ++ filename in
          (loadImage e url, [ImageRequested url])
    end.

(** *** Layout constants *)

Definition leftPadding : Z := 4.
Definition rightPadding : Z := 4.
Definition iconLeftPadding : Z := 24.
Definition iconSize : Z := 60.
Definition rowH : Z := 70.
Definition textFont : string := "700 44px Roboto, serif".
Definition headerFont : string := "700 72px Roboto, serif".
Definition headerBottomPadding : Z := 24.
Definition headerText : string := "Top 8".
Definition headerHeight : Z := 72.
Definition minWidth : Z := 200.
Definition badgeFont : string := "bold 14px sans-serif".

(** [addBorder ? 1 : 0] *)
Definition borderSize (addBorder : bool) : Z := if addBorder then 1 else 0.

(** *** Numbers of the layout *)

(** The operators of the code on numbers that depend on a measured width.
    Sums, differences and halves of the integer constants, of the border
    size and of the rounded widths are exact as long as they stay below
    2^53, as they do for every canvas a browser can make, and are written
    with the operations of [Z] and [Q]. *)
Local Infix "+." := Double.add (at level 50, left associativity).
Local Infix "-." := Double.sub (at level 50, left associativity).
Local Infix "*." := Double.mul (at level 40, left associativity).
Local Infix "/." := Double.div (at level 40, left associativity).

(** [Math.max] of two widths. *)
Definition Math_max (a b : Q) : Q := if Qle_bool a b then b else a.

(** [Math.round] of a double: the nearest integer, a tie goes up. *)
Definition Math_round (x : Q) : Z := Qfloor (x + (1 # 2)).

(** The conversion of a number to the [unsigned long] of [canvas.width]:
    the fraction is dropped. *)
Definition toLength (x : Q) : Z := Z.quot (Qnum x) (Z.pos (Qden x)).

(** The label of a row. *)
Definition rowLabel (ent : entry) : string :=
  place ent ++ ". " ++ name ent.

(** The loop that measures the widest label. *)
Definition maxRowTextWidth (e : env) (ents : list entry) : Q :=
  fold_left
    (fun maxRowTextWidth ent =>
       let w := measureText e textFont (rowLabel ent) in
       if Qle_bool w maxRowTextWidth then maxRowTextWidth else w)
    ents (0 : Q).

Definition headerWidth (e : env) : Q := measureText e headerFont headerText.

Definition neededWidthForRows (e : env) (ents : list entry) : Q :=
  inject_Z leftPadding +. maxRowTextWidth e ents +. inject_Z iconLeftPadding
  +. inject_Z iconSize +. inject_Z rightPadding.

Definition innerWidth (e : env) (ents : list entry) : Z :=
  Qceiling
    (Math_max
       (Math_max (neededWidthForRows e ents)
          (inject_Z leftPadding +. headerWidth e +. inject_Z rightPadding))
       (inject_Z minWidth)).

Definition neededWidth (e : env) (ents : list entry) : Z :=
  innerWidth e ents + borderSize (borderChecked e) * 2.

Definition innerHeight (ents : list entry) : Z :=
  headerHeight + headerBottomPadding + Z.of_nat (length ents) * rowH.

Definition canvasHeight (e : env) (ents : list entry) : Z :=
  innerHeight ents + borderSize (borderChecked e) * 2.

(** *** Preloading the icons *)

Definition setIcon (img : option image) (ent : entry) : entry :=
  {| place := place ent; name := name ent; character := character ent;
     icon := img |}.

(** What one callback of [entries.map(async (e) => { e.icon = await
    loadCharacterIcon(e.character); })] has done when [map] returns.  On an
    element that is [undefined], reading [e.character] has thrown and the
    promise of the callback is rejected.  On an entry the lookup has
    started, with its image request if it makes one, and the callback
    waits for the result to store it. *)
Inductive callback :=
| Threw (x : exn)
| Waits (l : loc) (img : option image) (requested : list event).

Definition missingElement : exn :=
  Exn "TypeError" "Cannot read properties of undefined (reading 'character')".

Definition startCallback (e : env) (w : world) (l : loc) : callback :=
  match objects w !! l with
  | None => Threw missingElement
  | Some ent =>
      let '(img, evs) := loadCharacterIcon e (character ent) in
      Waits l img evs
  end.

Definition requestsOf (c : callback) : list event :=
  match c with
  | Threw _ => []
  | Waits _ _ evs => evs
  end.

(** The rest of a callback: [e.icon = ] the result of the lookup. *)
Definition finish (h : gmap loc entry) (c : callback) : gmap loc entry :=
  match c with
  | Threw _ => h
  | Waits l img _ => alter (setIcon img) l h
  end.

(** A lookup that requests no image is resolved (with [null]) before
    [map] returns; an image loads or fails later, in a task of its own. *)
Definition resolvedAtOnce (c : callback) : bool :=
  match c with
  | Waits _ _ [] => true
  | _ => false
  end.

Fixpoint firstRejection (cs : list callback) : option exn :=
  match cs with
  | [] => None
  | Threw x :: _ => Some x
  | Waits _ _ _ :: rest => firstRejection rest
  end.

(** [await Promise.all(entries.map(...))]: the callbacks start in the
    order of the array.  When none has thrown, the call goes on once every
    result is stored.  When one has thrown, [Promise.all] rejects with the
    first rejection as soon as the jobs queued before it have run, which
    are the callbacks with a lookup resolved at once; no image has loaded
    by then, and the callbacks that wait for one store their result after
    the call has ended. *)
Definition preloadAll (e : env) (ls : list loc) (w : world)
  : completion unit * world :=
  let cs := map (startCallback e w) ls in
  let evs := (events w ++ concat (map requestsOf cs))%list in
  match firstRejection cs with
  | None =>
      (Returns tt,
       {| objects := fold_left finish cs (objects w);
          graphicArea := graphicArea w;
          events := evs |})
  | Some x =>
      (Throws x,
       {| objects :=
            fold_left finish (List.filter resolvedAtOnce cs) (objects w);
          graphicArea := graphicArea w;
          events := evs |})
  end.

(** *** Drawing *)

(** [e.character || e.name] *)
Definition characterOrName (ent : entry) : string :=
  if String.eqb (character ent) "" then name ent else character ent.

(** The sum of the character codes of a string. *)
Definition charCodeSum (s : string) : nat :=
  fold_left (fun acc ch => (acc + nat_of_ascii ch)%nat)
    (list_ascii_of_string s) 0%nat.

(** One turn of the loop that draws the rows, under the context font
    [font]: the font the context has afterwards and the calls made.  The
    badge branch sets the font and nothing sets it back. *)
Definition drawRow (e : env) (b innerW : Z) (i : nat) (ent : entry)
    (font : string) : completion (string * list drawop) :=
  let y := b + headerHeight + headerBottomPadding + Z.of_nat i * rowH in
  let label := rowLabel ent in
  let text :=
    FillText font "#523d30" "left" label
      (inject_Z (b + leftPadding)) (inject_Z y + inject_Z rowH / 2) in
  let textWidth := measureText e font label in
  let iconX :=
    Math_round (inject_Z b +. inject_Z leftPadding +. textWidth
                +. inject_Z iconLeftPadding) in
  let innerRight := b + innerW - rightPadding in
  let iconX :=
    if innerRight <? iconX + iconSize then innerRight - iconSize else iconX in
  let iconY := (inject_Z y + (inject_Z rowH - inject_Z iconSize) / 2)%Q in
  match icon ent with
  | Some img =>
      Returns (font,
               [text;
                DrawImage img (inject_Z iconX) iconY
                  (inject_Z iconSize) (inject_Z iconSize)])
  | None =>
      let hue := (charCodeSum (characterOrName ent) mod 360)%nat in
      match charInitials (characterOrName ent) with
      | Throws x => Throws x
      | Returns initials =>
          Returns (badgeFont,
                   [text;
                    FillRectHsl hue (inject_Z iconX) iconY
                      (inject_Z iconSize) (inject_Z iconSize);
                    FillText badgeFont "#fff" "center" initials
                      (inject_Z iconX + inject_Z iconSize / 2)
                      (iconY + inject_Z iconSize / 2)])
      end
  end.

(** [entries.forEach((e, i) => ...)]: the calls made, and the texts
    measured on the way. *)
Fixpoint drawRows (e : env) (b innerW : Z) (i : nat) (ents : list entry)
    (font : string) : completion (list drawop) * list event :=
  match ents with
  | [] => (Returns [], [])
  | ent :: rest =>
      let ev := TextMeasured font (rowLabel ent) in
      match drawRow e b innerW i ent font with
      | Throws x => (Throws x, [ev])
      | Returns (font', ops1) =>
          let '(r, evs) := drawRows e b innerW (S i) rest font' in
          (match r with
           | Throws x => Throws x
           | Returns ops2 => Returns (ops1 ++ ops2)%list
           end, ev :: evs)
      end
  end.

Definition noEntriesMessage : string := "No entries to generate from.".

(** [generateGraphic(entries)]: how the call ends, and the heap, the page
    and the browser log it leaves. *)
Definition generateGraphic (e : env) (entries : js_arg) (w : world)
  : completion unit * world :=
  let cleared :=
    {| objects := objects w; graphicArea := []; events := events w |} in
  match entries with
  | NotAnArray | ArrayOf [] =>
      (Returns tt,
       {| objects := objects w;
          graphicArea := [TextNode noEntriesMessage];
          events := events w |})
  | ArrayOf locs =>
      match preloadAll e locs cleared with
      | (Throws x, w1) => (Throws x, w1)
      | (Returns _, w1) =>
          let ents := omap (fun l => objects w1 !! l) locs in
          let addBorder := borderChecked e in
          let b := borderSize addBorder in
          let measured :=
            (map (fun ent => TextMeasured textFont (rowLabel ent)) ents
             ++ [TextMeasured headerFont headerText])%list in
          let innerW := innerWidth e ents in
          let neededW := neededWidth e ents in
          let h := canvasHeight e ents in
          let dpr :=
            if Qeq_bool (devicePixelRatio e) 0 then 1%Q
            else devicePixelRatio e in
          let header :=
            FillText headerFont "#523d30" "left" headerText
              (inject_Z b +. (inject_Z innerW -. headerWidth e) /. 2)
              (inject_Z b + inject_Z headerHeight / 2) in
          let '(rows, rowEvents) := drawRows e b innerW 0 ents textFont in
          let evs :=
            (events w1 ++ [CanvasCreated] ++ measured ++ [CanvasCreated]
             ++ rowEvents)%list in
          match rows with
          | Throws x =>
              (Throws x,
               {| objects := objects w1; graphicArea := []; events := evs |})
          | Returns rowOps =>
              let border :=
                if addBorder && (0 <? b)
                then [StrokeRect "#000000" (inject_Z b)
                        (inject_Z b / 2) (inject_Z b / 2)
                        (inject_Z (neededW - b)) (inject_Z (h - b))]
                else [] in
              let c :=
                {| width := toLength (inject_Z neededW *. dpr);
                   height := toLength (inject_Z h *. dpr);
                   styleWidth := neededW;
                   styleHeight := h;
                   ops := ([Scale dpr dpr;
                            ClearRect 0 0 (inject_Z neededW) (inject_Z h);
                            header] ++ rowOps ++ border)%list |} in
              (Returns tt,
               {| objects := objects w1;
                  graphicArea := [CanvasNode c; DownloadLink "top8.png" c];
                  events := evs |})
          end
      end
  end.

(** *** Vocabulary for the properties of [generateGraphic] *)

(** An entry after its icon was looked up. *)
Definition loaded (e : env) (ent : entry) : entry :=
  setIcon (fst (loadCharacterIcon e (character ent))) ent.

(** A row can be drawn when its icon loaded or its badge has initials. *)
Definition drawable (ent : entry) : Prop :=
  icon ent <> None \/
  exists s, charInitials (characterOrName ent) = Returns s.

(** The call can complete on the array [locs]: every element is an entry
    whose icon loads or whose badge has initials. *)
Definition renderable (e : env) (w : world) (locs : list loc) : Prop :=
  forall l, l ∈ locs ->
    exists ent, objects w !! l = Some ent /\
      (fst (loadCharacterIcon e (character ent)) <> None \/
       exists s, charInitials (characterOrName ent) = Returns s).

(** A width as a browser reports it: not negative, and at most 2^20
    pixels. *)
Definition inRange (x : Q) : Prop :=
  (0 <= x)%Q /\ (x <= inject_Z (2 ^ 20))%Q.

(** The labels of the rows have such widths in the text font. *)
Definition rowsInRange (e : env) (ents : list entry) : Prop :=
  forall ent, In ent ents -> inRange (measureText e textFont (rowLabel ent)).

(** The header and the labels of the entries of the array have such
    widths. *)
Definition widthsInRange (e : env) (w : world) (locs : list loc) : Prop :=
  inRange (headerWidth e) /\
  forall l ent,
    l ∈ locs -> objects w !! l = Some ent ->
    inRange (measureText e textFont (rowLabel ent)).

(** The page state the preload starts from. *)
Definition cleared (w : world) : world :=
  {| objects := objects w; graphicArea := []; events := events w |}.

(** The entries as the layout reads them. *)
Definition entriesAfterPreload (e : env) (locs : list loc) (w : world)
  : list entry :=
  omap (fun l => objects (snd (preloadAll e locs (cleared w))) !! l) locs.

(** *** Sample data: the entries of the test button *)

Definition dummy : list (loc * entry) :=
  [(1%positive, {| place := "1"; name := "Lucky"; character := "Fox";
                   icon := None |});
   (2%positive, {| place := "2"; name := "Mango"; character := "Falco";
                   icon := None |});
   (3%positive, {| place := "3"; name := "Mew2King"; character := "Marth";
                   icon := None |});
   (4%positive, {| place := "4"; name := "PPMD"; character := "Sheik";
                   icon := None |});
   (5%positive, {| place := "5"; name := "Armada"; character := "Peach";
                   icon := None |});
   (6%positive, {| place := "6"; name := "Hbox"; character := "Jigglypuff";
                   icon := None |});
   (7%positive, {| place := "7"; name := "Wizzrobe";
                   character := "Captain Falcon"; icon := None |});
   (8%positive, {| place := "8"; name := "Axe"; character := "Pikachu";
                   icon := None |})].

(** A page before the call: the dummy entries on the heap, an old message
    in the graphic area. *)
Definition dummyWorld : world :=
  {| objects := list_to_map dummy;
     graphicArea := [TextNode "No rows to generate from."];
     events := [] |}.

(** A browser in which every stock icon but Pikachu's loads, a character
    of the 44px font is 24.5px wide and one of the 72px font 40px. *)
Definition dummyEnv : env :=
  {| loadImage := fun url =>
       if Util.includes "Pikachu" url then None else Some (Image url);
     measureText := fun font text =>
       if String.eqb font headerFont
       then inject_Z (40 * Z.of_nat (String.length text))
       else (49 * Z.of_nat (String.length text) # 2)%Q;
     borderChecked := false;
     devicePixelRatio := (3 # 2)%Q |}.

(** The same browser with the border checkbox set to [b]. *)
Definition withBorder (b : bool) (e : env) : env :=
  {| loadImage := loadImage e; measureText := measureText e;
     borderChecked := b; devicePixelRatio := devicePixelRatio e |}.

(** A browser in which every label is 250 + 2^-45 px wide and the header
    160px, and every stock icon but Pikachu's loads. *)
Definition roundingEnv : env :=
  {| loadImage := loadImage dummyEnv;
     measureText := fun font text =>
       if String.eqb font headerFont then 160%Q
       else (8796093022208001 # 35184372088832)%Q;
     borderChecked := false;
     devicePixelRatio := 1%Q |}.

(** A page whose only entry has no character and a name without a word. *)
Definition ampersandWorld : world :=
  {| objects := {[ 1%positive := {| place := "1"; name := "&";
                                    character := ""; icon := None |} ]};
     graphicArea := [];
     events := [] |}.

(** A page whose entries hold the icons of an earlier call: a Fox, and an
    entry without character. *)
Definition staleWorld : world :=
  {| objects :=
       {[ 1%positive := {| place := "1"; name := "Lucky"; character := "Fox";
                           icon := Some (Image "old.png") |};
          2%positive := {| place := "2"; name := "Mango"; character := "";
                           icon := Some (Image "old.png") |} ]};
     graphicArea := [];
     events := [] |}.

(** *** Vocabulary for the drawing of the rows *)

Definition hasIcon (ent : entry) : bool :=
  match icon ent with Some _ => true | None => false end.

(** The context font a row leaves behind. *)
Definition fontAfter (font : string) (ent : entry) : string :=
  if hasIcon ent then font else badgeFont.

(** The context font under which row [j] is drawn: the text font as long
    as every row before it had an icon, the badge font from then on. *)
Definition fontAt (ents : list entry) (j : nat) : string :=
  if forallb hasIcon (take j ents) then textFont else badgeFont.

(** The top of row [j]. *)
Definition rowTop (b : Z) (j : nat) : Z :=
  b + headerHeight + headerBottomPadding + Z.of_nat j * rowH.

(** The call that writes the label of row [j]. *)
Definition labelOp (b : Z) (j : nat) (font : string) (ent : entry)
  : drawop :=
  FillText font "#523d30" "left" (rowLabel ent)
    (inject_Z (b + leftPadding)) (inject_Z (rowTop b j) + inject_Z rowH / 2).

(** The left edge of the icon of a row, before and after the check against
    the right padding. *)
Definition iconAfterLabel (e : env) (b : Z) (font : string) (ent : entry)
  : Z :=
  Math_round (inject_Z b +. inject_Z leftPadding
              +. measureText e font (rowLabel ent)
              +. inject_Z iconLeftPadding).

Definition iconLeft (e : env) (b innerW : Z) (font : string) (ent : entry)
  : Z :=
  let iconX := iconAfterLabel e b font ent in
  let innerRight := b + innerW - rightPadding in
  if innerRight <? iconX + iconSize then innerRight - iconSize else iconX.

(** The place of the icon or of the badge square, for the calls that draw
    one. *)
Definition iconBox (op : drawop) : option (Q * Q * Q * Q) :=
  match op with
  | DrawImage _ x y w h => Some (x, y, w, h)
  | FillRectHsl _ x y w h => Some (x, y, w, h)
  | _ => None
  end.

(** The call that writes the header. *)
Definition headerOp (e : env) (b innerW : Z) : drawop :=
  FillText headerFont "#523d30" "left" headerText
    (inject_Z b +. (inject_Z innerW -. headerWidth e) /. 2)
    (inject_Z b + inject_Z headerHeight / 2).

(** The calls that draw the border. *)
Definition borderOps (addBorder : bool) (neededW h : Z) : list drawop :=
  let b := borderSize addBorder in
  if addBorder && (0 <? b)
  then [StrokeRect "#000000" (inject_Z b) (inject_Z b / 2) (inject_Z b / 2)
          (inject_Z (neededW - b)) (inject_Z (h - b))]
  else [].

Definition isStroke (op : drawop) : bool :=
  match op with StrokeRect _ _ _ _ _ _ => true | _ => false end.

(** *** Vocabulary for the initials and the icon files *)

(** Only white space and ampersands (the empty string included). *)
Definition blank (s : string) : bool :=
  forallb (fun c => isSpace c || Ascii.eqb c "&") (list_ascii_of_string s).

(** Only white space and periods (the empty string included). *)
Definition dotted (s : string) : bool :=
  forallb (fun c => isSpace c || Ascii.eqb c ".") (list_ascii_of_string s).

(** Code units below 128. *)
Definition isAscii (s : string) : bool :=
  forallb (fun c => (nat_of_ascii c <? 128)%nat) (list_ascii_of_string s).

(** A row can be drawn: its icon loads, or its badge has initials. *)
Definition canDraw (e : env) (ent : entry) : bool :=
  match fst (loadCharacterIcon e (character ent)) with
  | Some _ => true
  | None =>
      String.eqb (characterOrName ent) ""
      || negb (blank (characterOrName ent))
  end.

End Renderer.

(** ** hslFilter.js: the background removal and the filter as a whole *)

Module FilterIO.
Import Js Api.
Local Open Scope string_scope.

(** A [Blob]: a media type and bytes. *)
Inductive blob := Blob (type : string) (bytes : list Z).

(** A value of a [FormData]. *)
Inductive formValue :=
| FormBlob (b : blob)
| FormString (s : string).

Record request := {
  url : string;
  method : string;
  headers : list (string * string);
  form : list (string * formValue)
}.

(** A response: its status, and what [json()] and [blob()] settle with. *)
Record response := {
  status : Z;
  statusText : string;
  json_body : body;
  blob_body : completion blob
}.

(** [response.ok] *)
Definition ok (r : response) : bool :=
  ((200 <=? status r) && (status r <=? 299))%Z.

Inductive fetched :=
| Rejects (e : exn)
| Resolves (r : response).

(** An image that loaded: its size and the bytes [getImageData] gives
    after it is drawn on a canvas of that size. *)
Record picture := {
  img_width : Z;
  img_height : Z;
  img_data : list Z
}.

(** What the functions read from outside: the configured key, the
    network, the file reader (no data URL when it fails), the image
    decoder (no picture when it fails), the encoder of [canvas.toBlob]
    (which gives [null] when it cannot encode) and the decimal text the
    engine writes for a number. *)
Record env := {
  VITE_REMOVEBG_KEY : option string;
  fetch : request -> fetched;
  readAsDataURL : blob -> option string;
  loadImage : string -> option picture;
  toBlob : Z -> Z -> list Z -> string -> option blob;
  numberToString : float -> string
}.

(** [String(v)] of a parsed value, as a template literal writes it. *)
Fixpoint ToString (e : env) (j : json) : string :=
  match j with
  | JNull => "null"
  | JBool true => "true"
  | JBool false => "false"
  | JNumber x => numberToString e x
  | JString s => s
  | JArray items =>
      String.concat ","
        (map (fun v => match v with
                       | JNull => ""
                       | _ => ToString e v
                       end) items)
  | JObject _ => "[object Object]"
  end.

(** [v?.[0]] *)
Definition optIndex0 (v : value) : value :=
  match v with
  | Undefined | Value JNull => Undefined
  | Value (JArray (first :: _)) => Value first
  | Value (JString (String c _)) => Value (JString (String c ""))
  | Value (JObject fields) =>
      match lookup_field "0" fields with
      | Some x => Value x
      | None => Undefined
      end
  | Value _ => Undefined
  end.

(** [v || d] *)
Definition orElse (v : value) (d : json) : json :=
  match v with
  | Undefined => d
  | Value j => if truthy j then j else d
  end.

Definition noKeyMessage : string :=
  "remove.bg API key not configured. Please set VITE_REMOVEBG_KEY in .env".

Definition removebg_request (apiKey : string) (imageFile : blob)
  : request :=
  {| url := "https://api.remove.bg/v1.0/removebg";
     method := "POST";
     headers := [("X-Api-Key", apiKey)];
     form := [("image_file", FormBlob imageFile);
              ("size", FormString "auto");
              ("type", FormString "auto")] |}.

(** The body of the [try] block, once the response is there. *)
Definition removedBackground (e : env) (res : response) : completion blob :=
  if negb (ok res) then
    match json_body res with
    | ParseFails err => Throws err
    | Parses JNull =>
        Throws (Exn "TypeError"
                  "Cannot read properties of null (reading 'errors')")
    | Parses errorData =>
        Throws
          (Exn "Error"
             ("remove.bg API error: "
              ++ ToString e
                   (orElse
                      (optChain (optIndex0 (getProp errorData "errors"))
                         "title")
                      (JString (statusText res)))))
    end
  else blob_body res.

(** [removeBackgroundWithAPI(imageFile)]: the completion, and the requests
    sent. *)
Definition removeBackgroundWithAPI (e : env) (imageFile : blob)
  : completion blob * list request :=
  let noKey := (Throws (Exn "Error" noKeyMessage), []) in
  match VITE_REMOVEBG_KEY e with
  | None => noKey
  | Some apiKey =>
      if String.eqb apiKey "" then noKey
      else
        let req := removebg_request apiKey imageFile in
        let attempt :=
          match fetch e req with
          | Rejects err => Throws err
          | Resolves res => removedBackground e res
          end in
        (match attempt with
         | Returns b => Returns b
         | Throws (Exn _ message) =>
             Throws (Exn "Error" ("Failed to remove background: " ++ message))
         end, [req])
  end.

(** How the promise of [applyHslFilter] ends: resolved with the blob of
    [toBlob] (which may be [null]), rejected, or never settled. *)
Inductive settled :=
| Resolved (b : option blob)
| Rejected (e : exn)
| Pending.

(** [applyHslFilter(imageFile, hueShift, saturationAdjust, lightnessAdjust,
    removeBg)]: how the promise ends, the requests sent and the files
    handed to the reader.  [getImageData] throws on an empty rectangle,
    inside the [onload] handler, where nothing catches it. *)
Definition applyHslFilter (e : env) (imageFile : blob)
    (hueShift saturationAdjust lightnessAdjust : float) (removeBg : bool)
  : settled * list request * list blob :=
  let '(file, requests) :=
    if removeBg then removeBackgroundWithAPI e imageFile
    else (Returns imageFile, []) in
  match file with
  | Throws err => (Rejected err, requests, [])
  | Returns fileToProcess =>
      (match readAsDataURL e fileToProcess with
       | None => Rejected (Exn "Error" "Failed to read file")
       | Some dataUrl =>
           match loadImage e dataUrl with
           | None => Rejected (Exn "Error" "Failed to load image")
           | Some img =>
               if ((img_width img =? 0) || (img_height img =? 0))%Z
               then Pending
               else
                 Resolved
                   (toBlob e (img_width img) (img_height img)
                      (HslFilter.applyHslFilter (img_data img) hueShift
                         saturationAdjust lightnessAdjust)
                      "image/png")
           end
       end, requests, [fileToProcess])
  end.

(** *** Sample data: a service that is out of credits *)

Definition outOfCredits : response :=
  {| status := 402;
     statusText := "Payment Required";
     json_body :=
       Parses
         (JObject
            [("errors",
              JArray [JObject [("title", JString "Insufficient credits")]])]);
     blob_body := Throws (Exn "TypeError" "Failed to fetch") |}.

Definition outOfCreditsEnv : env :=
  {| VITE_REMOVEBG_KEY := Some "key";
     fetch := fun _ => Resolves outOfCredits;
     readAsDataURL := fun _ => None;
     loadImage := fun _ => None;
     toBlob := fun _ _ _ _ => None;
     numberToString := fun _ => "" |}.

End FilterIO.

(** ** renderer.js: the handlers of the page *)

Module Page.
Import Js Util Api Renderer.
Local Open Scope string_scope.

(** [s.trim()]: white space is taken off both ends. *)
Fixpoint trimStart (s : string) : string :=
  match s with
  | EmptyString => EmptyString
  | String c s' => if isSpace c then trimStart s' else s
  end.

Fixpoint trimEnd (s : string) : string :=
  match s with
  | EmptyString => EmptyString
  | String c s' =>
      let t := trimEnd s' in
      if isSpace c && String.eqb t "" then EmptyString else String c t
  end.

Definition trim (s : string) : string := trimEnd (trimStart s).

(** [s.replace(pat, rep)] with a string pattern that is not empty and a
    replacement without [$]: the first occurrence is replaced. *)
Definition replaceFirst (pat rep s : string) : string :=
  if includes pat s then before pat s ++ rep ++ after pat s else s.

(** [cleanName(name)] of the fetch handler: the text after the last pipe,
    trimmed.  A value that is not a string has no [split]. *)
Definition cleanName (name : json) : completion string :=
  if negb (truthy name) then Returns "Unknown"
  else
    match name with
    | JString s => Returns (trim (List.last (split "|" s) ""))
    | _ => Throws (Exn "TypeError" "name.split is not a function")
    end.

(** [n.entrant?.name ?? "Unknown"] on a node that is not [null]. *)
Definition rawName (n : json) : json :=
  nullish (optChain (getProp n "entrant") "name") (JString "Unknown").

(** What the generate handler reads in a [.top8-row]: the text of the
    placement label, the value of the name input and the value of the
    character select. *)
Record row := {
  placeLabel : string;
  nameInput : string;
  charSelect : string
}.

(** The entry the generate handler makes of a row. *)
Definition entryOfRow (r : row) : entry :=
  {| place := trim (replaceFirst "." "" (placeLabel r));
     name :=
       (let n := trim (nameInput r) in
        if String.eqb n "" then "Unknown" else n);
     character := trim (charSelect r);
     icon := None |}.

(** New objects: each entry is stored at a location the heap does not
    use. *)
Fixpoint allocate (ents : list entry) (h : gmap loc entry)
  : list loc * gmap loc entry :=
  match ents with
  | [] => ([], h)
  | ent :: rest =>
      let l := fresh (dom h) in
      let '(ls, h') := allocate rest (<[l := ent]> h) in
      (l :: ls, h')
  end.

Definition noRowsMessage : string := "No rows to generate from.".

(** The click handler of the generate button, on the rows of the page. *)
Definition genBtn_click (e : env) (rows : list row) (w : world)
  : completion unit * world :=
  match rows with
  | [] =>
      (Returns tt,
       {| objects := objects w;
          graphicArea := [TextNode noRowsMessage];
          events := events w |})
  | _ =>
      let '(locs, h) := allocate (map entryOfRow rows) (objects w) in
      generateGraphic e (ArrayOf locs)
        {| objects := h; graphicArea := graphicArea w;
           events := events w |}
  end.

(** The click handler of the test button. *)
Definition testBtn_click (e : env) (w : world) : completion unit * world :=
  let '(locs, h) := allocate (map snd dummy) (objects w) in
  generateGraphic e (ArrayOf locs)
    {| objects := h; graphicArea := graphicArea w; events := events w |}.

End Page.

(* ===================================================================== *)
(** * Part II: properties *)
(* ===================================================================== *)

Section HslRoundTrip.
Import JsNumber HslFilter.

Example Math_round_samples :
  (Math_round 2.5, Math_round (-2.5), Math_round 254.5, Math_round 0.25)
  = (3, (-2), 255, 0)%float.
Proof. reflexivity. Qed.

Example hslToRgb_green : hslToRgb 120 50 50 = (64, 191, 64)%float.
Proof. reflexivity. Qed.

Lemma channels_spec (z : Z) : (0 <= z <= 255)%Z -> In z channels.
Proof.
  intros Hz.
  change channels with (map Z.of_nat (seq 0 256)).
  apply in_map_iff. exists (Z.to_nat z). split; [lia|].
  apply in_seq. lia.
Qed.

(** *** The channels in decreasing order *)

Lemma countdown_lookup (n i : nat) :
  (i < n)%nat -> countdown n !! i = Some (Z.of_nat (n - 1 - i)).
Proof.
  revert i. induction n as [|n IH]; intros i Hi; [lia|].
  destruct i as [|i]; cbn [countdown].
  - cbn. do 2 f_equal. lia.
  - change ((?x :: ?l) !! S i) with (l !! i). rewrite IH by lia.
    do 2 f_equal. lia.
Qed.

Lemma map_lookup {A B : Type} (f : A -> B) (l : list A) (i : nat) :
  map f l !! i = f <$> l !! i.
Proof.
  revert i. induction l as [|a l IH]; intros [|i]; try reflexivity.
  apply IH.
Qed.

Lemma channelsDown_lookup (z : Z) :
  (0 <= z <= 255)%Z -> channelsDown !! Z.to_nat (255 - z) = Some (chanOf z).
Proof.
  intros Hz. change channelsDown with (map chanOf (countdown 256)).
  rewrite map_lookup, countdown_lookup by lia.
  cbn [fmap option_fmap option_map]. do 2 f_equal. lia.
Qed.

(** *** The order of the divided channels *)

Lemma orderKept_channels :
  forallb (fun a => forallb (fun b => orderKept a b) channels) channels
  = true.
Proof. vm_compute. reflexivity. Qed.

Lemma orderKept_spec (a b : Z) :
  (0 <= a <= 255)%Z -> (0 <= b <= 255)%Z ->
  (snd (chanOf a) <? snd (chanOf b))%float = (a <? b)%Z /\
  (snd (chanOf a) =? snd (chanOf b))%float = (a =? b)%Z.
Proof.
  intros Ha Hb. pose proof orderKept_channels as H.
  rewrite forallb_forall in H. specialize (H a (channels_spec a Ha)).
  rewrite forallb_forall in H. specialize (H b (channels_spec b Hb)).
  unfold orderKept in H. apply andb_true_iff in H as [H1 H2].
  apply Bool.eqb_prop in H1, H2. auto.
Qed.

Lemma Math_max_chanOf (a b : Z) :
  (0 <= a <= 255)%Z -> (0 <= b <= 255)%Z ->
  Math_max (snd (chanOf a)) (snd (chanOf b)) = snd (chanOf (Z.max a b)).
Proof.
  intros Ha Hb. unfold Math_max.
  destruct (orderKept_spec a b Ha Hb) as [Hlt Heq].
  destruct (orderKept_spec b a Hb Ha) as [Hgt _].
  rewrite Hlt, Hgt, Heq.
  destruct (Z.ltb_spec a b) as [Hab|Hab]; [now rewrite Z.max_r by lia|].
  destruct (Z.ltb_spec b a) as [Hba|Hba]; [now rewrite Z.max_l by lia|].
  assert (a = b) as -> by lia. rewrite Z.eqb_refl, Z.max_id.
  destruct (orderKept_spec b 0 Hb ltac:(lia)) as [_ Hzero].
  change (snd (chanOf 0)) with 0%float in Hzero. rewrite Hzero.
  destruct (Z.eqb_spec b 0) as [-> |]; reflexivity.
Qed.

Lemma Math_min_chanOf (a b : Z) :
  (0 <= a <= 255)%Z -> (0 <= b <= 255)%Z ->
  Math_min (snd (chanOf a)) (snd (chanOf b)) = snd (chanOf (Z.min a b)).
Proof.
  intros Ha Hb. unfold Math_min.
  destruct (orderKept_spec a b Ha Hb) as [Hlt Heq].
  destruct (orderKept_spec b a Hb Ha) as [Hgt _].
  rewrite Hlt, Hgt, Heq.
  destruct (Z.ltb_spec a b) as [Hab|Hab]; [now rewrite Z.min_l by lia|].
  destruct (Z.ltb_spec b a) as [Hba|Hba]; [now rewrite Z.min_r by lia|].
  assert (a = b) as -> by lia. rewrite Z.eqb_refl, Z.min_id.
  destruct (orderKept_spec b 0 Hb ltac:(lia)) as [_ Hzero].
  change (snd (chanOf 0)) with 0%float in Hzero. rewrite Hzero.
  destruct (Z.eqb_spec b 0) as [-> |]; reflexivity.
Qed.

(** [rgbToHsl] on three channel values, from their largest and their
    smallest. *)
Lemma roundtrip_ok_roundtripOf (r g b : Z) :
  (0 <= r <= 255)%Z -> (0 <= g <= 255)%Z -> (0 <= b <= 255)%Z ->
  roundtrip_ok (Z2F r) (Z2F g) (Z2F b)
  = roundtripOf (snd (chanOf (Z.max (Z.max r g) b)))
      (snd (chanOf (Z.min (Z.min r g) b)))
      (chanOf r) (chanOf g) (chanOf b).
Proof.
  intros Hr Hg Hb.
  rewrite <- !Math_max_chanOf, <- !Math_min_chanOf by lia.
  reflexivity.
Qed.

(** *** The round trip, pair by pair *)

Lemma hue2rgbRounded_spec (p q t : float) :
  hue2rgbRounded p q (Math_round (q * 255)) (Math_round (p * 255)) t
  = Math_round (hue2rgb p q t * 255).
Proof.
  unfold hue2rgbRounded, hue2rgb. cbv zeta.
  repeat match goal with
         | |- context [if ?c then _ else _] => destruct c
         end; reflexivity.
Qed.

(** For a colour that is not gray, the round trip from the values shared
    by all the triples of its largest and smallest channel. *)
Lemma roundtripOf_chromatic (max min : float) (cr cg cb : chan) :
  let l := ((max + min) / 2)%float in
  let d := (max - min)%float in
  let s :=
    (if 0.5 <? l then d / (2 - max - min) else d / (max + min))%float in
  let s' := (s * 100 / 100)%float in
  let l' := (l * 100 / 100)%float in
  let q := (if l' <? 0.5 then l' * (1 + s') else l' + s' - l' * s')%float in
  let p := (2 * l' - q)%float in
  (max =? min)%float = false ->
  (s' =? 0)%float = false ->
  roundtripOf max min cr cg cb
  = roundtripFrom max d p q (Math_round (q * 255)) (Math_round (p * 255))
      (fst cr) (snd cr) (fst cg) (snd cg) (fst cb) (snd cb).
Proof.
  intros l d s s' l' q p Hgray Hs.
  unfold roundtripOf, hslOf, roundtripFrom. rewrite Hgray.
  cbv zeta. unfold hslToRgb. cbv zeta.
  fold l d. fold s. fold s' l'. rewrite Hs. fold q. fold p.
  now rewrite !hue2rgbRounded_spec.
Qed.

Lemma sixWays_arranged
    (ok : float -> float -> float -> float -> float -> float -> bool)
    (X Y Z cr cg cb : chan) :
  sixWays ok (fst X) (snd X) (fst Y) (snd Y) (fst Z) (snd Z) = true ->
  arranged X Y Z cr cg cb ->
  ok (fst cr) (snd cr) (fst cg) (snd cg) (fst cb) (snd cb) = true.
Proof.
  unfold sixWays. rewrite !andb_true_iff.
  intros (((((H1 & H2) & H3) & H4) & H5) & H6) Harr.
  destruct Harr as [E|[E|[E|[E|[E|E]]]]]; injection E as -> -> ->;
    assumption.
Qed.

Lemma roundtripPair_chromatic (X Y Z : chan) (mids : list chan)
    (cr cg cb : chan) :
  (snd X =? snd Z)%float = false ->
  roundtripPair X Z mids = true ->
  In Y mids ->
  arranged X Y Z cr cg cb ->
  roundtripOf (snd X) (snd Z) cr cg cb = true.
Proof.
  intros Hgray Hpair HY Harr. unfold roundtripPair in Hpair.
  destruct X as [x0 max], Z as [z0 min]. cbn [fst snd] in *.
  cbv zeta in Hpair. rewrite Hgray in Hpair.
  match type of Hpair with
  | (if ?c then _ else _) = true => destruct c eqn:Hs; [discriminate|]
  end.
  rewrite forallb_forall in Hpair. specialize (Hpair Y HY).
  rewrite (roundtripOf_chromatic max min cr cg cb Hgray Hs).
  destruct Y as [y0 y].
  exact (sixWays_arranged _ (x0, max) (y0, y) (z0, min) cr cg cb Hpair Harr).
Qed.

(** *** The loops over the channels in decreasing order *)

Lemma roundtripBelow_spec (X : chan) (rest seen : list chan) :
  roundtripBelow X seen rest = true ->
  forall k Z, rest !! k = Some Z ->
    exists mids,
      roundtripPair X Z mids = true /\
      (forall Y, In Y seen -> In Y mids) /\
      (forall j Y, (j <= k)%nat -> rest !! j = Some Y -> In Y mids).
Proof.
  revert seen. induction rest as [|Z0 rest IH]; intros seen H k Z Hk;
    [discriminate|].
  cbn [roundtripBelow] in H. apply andb_true_iff in H as [H1 H2].
  destruct k as [|k].
  - injection Hk as <-. exists (Z0 :: seen). split; [exact H1|]. split.
    + intros Y HY. now right.
    + intros j Y Hj HjY. assert (j = 0)%nat as -> by lia.
      injection HjY as <-. now left.
  - destruct (IH (Z0 :: seen) H2 k Z Hk) as (mids & Hp & Hseen & Hrest).
    exists mids. split; [exact Hp|]. split.
    + intros Y HY. apply Hseen. now right.
    + intros [|j] Y Hj HjY.
      * injection HjY as <-. apply Hseen. now left.
      * apply (Hrest j Y); [lia | exact HjY].
Qed.

Lemma roundtripAll_spec (l : list chan) :
  roundtripAll l = true ->
  forall i j k X Y Z, (i <= j <= k)%nat ->
    l !! i = Some X -> l !! j = Some Y -> l !! k = Some Z ->
    exists mids, roundtripPair X Z mids = true /\ In Y mids.
Proof.
  induction l as [|X0 l IH]; intros H i j k X Y Z Hijk Hi Hj Hk;
    [discriminate|].
  cbn [roundtripAll] in H. apply andb_true_iff in H as [H1 H2].
  destruct i as [|i].
  - injection Hi as <-.
    destruct (roundtripBelow_spec X0 (X0 :: l) [] H1 k Z Hk)
      as (mids & Hp & _ & Hrest).
    exists mids. split; [exact Hp|]. apply (Hrest j Y); [lia | exact Hj].
  - destruct j as [|j]; [lia|]. destruct k as [|k]; [lia|].
    apply (IH H2 i j k X Y Z); [lia | assumption ..].
Qed.

(** Every sorted triple of channels is evaluated. *)
Lemma roundtripAll_channels : roundtripAll channelsDown = true.
Proof. vm_cast_no_check (@eq_refl bool true). Qed.

(** The largest, the middle and the smallest of three channel values. *)
Lemma arranged_channels (r g b : Z) :
  let mx := Z.max (Z.max r g) b in
  let mn := Z.min (Z.min r g) b in
  let md := (r + g + b - mx - mn)%Z in
  (mn <= md <= mx)%Z /\
  arranged (chanOf mx) (chanOf md) (chanOf mn)
    (chanOf r) (chanOf g) (chanOf b).
Proof.
  cbv zeta. unfold arranged.
  destruct (Z.le_gt_cases r g), (Z.le_gt_cases g b), (Z.le_gt_cases r b);
    try lia.
  - rewrite (Z.max_r r g), (Z.max_r g b), (Z.min_l r g), (Z.min_l r b)
      by lia.
    replace (r + g + b - b - r)%Z with g by lia.
    split; [lia|]. do 5 right. reflexivity.
  - rewrite (Z.max_r r g), (Z.max_l g b), (Z.min_l r g), (Z.min_l r b)
      by lia.
    replace (r + g + b - g - r)%Z with b by lia.
    split; [lia|]. do 3 right. left. reflexivity.
  - rewrite (Z.max_r r g), (Z.max_l g b), (Z.min_l r g), (Z.min_r r b)
      by lia.
    replace (r + g + b - g - b)%Z with r by lia.
    split; [lia|]. do 2 right. left. reflexivity.
  - rewrite (Z.max_l r g), (Z.max_r r b), (Z.min_r r g), (Z.min_l g b)
      by lia.
    replace (r + g + b - b - g)%Z with r by lia.
    split; [lia|]. do 4 right. left. reflexivity.
  - rewrite (Z.max_l r g), (Z.max_l r b), (Z.min_r r g), (Z.min_l g b)
      by lia.
    replace (r + g + b - r - g)%Z with b by lia.
    split; [lia|]. right. left. reflexivity.
  - rewrite (Z.max_l r g), (Z.max_l r b), (Z.min_r r g), (Z.min_r g b)
      by lia.
    replace (r + g + b - r - b)%Z with g by lia.
    split; [lia|]. left. reflexivity.
Qed.

(** The round trip of every triple of channel values. *)
Lemma roundtrip_ok_channels (r g b : Z) :
  (0 <= r <= 255)%Z -> (0 <= g <= 255)%Z -> (0 <= b <= 255)%Z ->
  roundtrip_ok (Z2F r) (Z2F g) (Z2F b) = true.
Proof.
  intros Hr Hg Hb.
  destruct (arranged_channels r g b) as [Hmd Harr]. cbv zeta in Hmd, Harr.
  remember (Z.max (Z.max r g) b) as mx eqn:Emx.
  remember (Z.min (Z.min r g) b) as mn eqn:Emn.
  remember (r + g + b - mx - mn)%Z as md eqn:Emd.
  assert (Hmx : (0 <= mx <= 255)%Z) by lia.
  assert (Hmn : (0 <= mn <= 255)%Z) by lia.
  destruct (roundtripAll_spec channelsDown roundtripAll_channels
              (Z.to_nat (255 - mx)) (Z.to_nat (255 - md))
              (Z.to_nat (255 - mn))
              (chanOf mx) (chanOf md) (chanOf mn))
    as (mids & Hpair & Hmid);
    [lia | apply channelsDown_lookup; lia ..|].
  destruct (orderKept_spec mx mn Hmx Hmn) as [_ Heq].
  destruct (Z.eqb_spec mx mn) as [Hsame|Hdiff].
  - unfold roundtripPair, chanOf in Hpair. cbv zeta in Hpair.
    unfold chanOf in Heq. cbn [snd] in Heq. rewrite Heq in Hpair.
    assert (Hall : r = mx /\ g = mx /\ b = mx) by lia.
    destruct Hall as (Hr' & Hg' & Hb'). rewrite Hr', Hg', Hb'. exact Hpair.
  - rewrite roundtrip_ok_roundtripOf by assumption. rewrite <- Emx, <- Emn.
    exact (roundtripPair_chromatic _ _ _ mids _ _ _ Heq Hpair Hmid Harr).
Qed.

(** C1: for every RGB triple with channels in [0,255], [hslToRgb] applied to
    the result of [rgbToHsl] gives back each channel within one unit. *)
Theorem rgb_hsl_roundtrip (r g b : Z) :
  (0 <= r <= 255)%Z -> (0 <= g <= 255)%Z -> (0 <= b <= 255)%Z ->
  let '(h, s, l) := rgbToHsl (Z2F r) (Z2F g) (Z2F b) in
  let '(r', g', b') := hslToRgb h s l in
  within1 r' (Z2F r) = true /\
  within1 g' (Z2F g) = true /\
  within1 b' (Z2F b) = true.
Proof.
  intros Hr Hg Hb.
  pose proof (roundtrip_ok_channels r g b Hr Hg Hb) as Hok.
  unfold roundtrip_ok in Hok.
  destruct (rgbToHsl (Z2F r) (Z2F g) (Z2F b)) as [[h s] l].
  destruct (hslToRgb h s l) as [[r' g'] b'].
  apply andb_true_iff in Hok as [Hok Hb'].
  apply andb_true_iff in Hok as [Hr' Hg'].
  auto.
Qed.

Lemma rgb_hsl_roundtrip_witness :
  let '(h, s, l) := rgbToHsl (Z2F 201) (Z2F 128) (Z2F 64) in
  let '(r', g', b') := hslToRgb h s l in
  within1 r' (Z2F 201) = true /\
  within1 g' (Z2F 128) = true /\
  within1 b' (Z2F 64) = true.
Proof. apply (rgb_hsl_roundtrip 201 128 64); lia. Defined.

End HslRoundTrip.

Section PixelPasses.
Import JsNumber HslFilter.
Local Open Scope nat_scope.

(** *** Reading and writing the buffer *)

Lemma ToUint8Clamp_channels :
  forallb (fun z => Z.eqb (ToUint8Clamp (Z2F z)) z) channels = true.
Proof. vm_compute. reflexivity. Qed.

(** A byte read from the buffer and written back is the same byte. *)
Lemma ToUint8Clamp_byte (z : Z) : isByte z -> ToUint8Clamp (Z2F z) = z.
Proof.
  intros Hz. apply Z.eqb_eq.
  pose proof ToUint8Clamp_channels as H. rewrite forallb_forall in H.
  apply H, channels_spec, Hz.
Qed.

Lemma store4_length (data : list Z) (i : nat)
    (px : float * float * float * float) :
  length (store4 data i px) = length data.
Proof.
  destruct px as [[[r g] b] a]. unfold store4, setByte.
  now rewrite !length_insert.
Qed.

Lemma store4_lookup_other (data : list Z) (i m : nat)
    (px : float * float * float * float) :
  m < i \/ i + 4 <= m -> store4 data i px !! m = data !! m.
Proof.
  intros Hm. destruct px as [[[r g] b] a]. unfold store4, setByte.
  rewrite !list_lookup_insert_ne by lia. reflexivity.
Qed.

Lemma store4_stored (data : list Z) (k : nat)
    (px : float * float * float * float) :
  4 * k + 3 < length data -> storedAt (store4 data (4 * k) px) k px.
Proof.
  intros Hk. destruct px as [[[r g] b] a].
  unfold storedAt, pixelAt, store4, setByte. repeat split.
  - rewrite !list_lookup_insert_ne by lia.
    apply list_lookup_insert_eq. lia.
  - rewrite !list_lookup_insert_ne by lia.
    apply list_lookup_insert_eq. rewrite length_insert. lia.
  - rewrite list_lookup_insert_ne by lia.
    apply list_lookup_insert_eq. rewrite !length_insert. lia.
  - apply list_lookup_insert_eq. rewrite !length_insert. lia.
Qed.

Lemma getByte_ext (data data' : list Z) (i : nat) :
  data !! i = data' !! i -> getByte data i = getByte data' i.
Proof. unfold getByte. now intros ->. Qed.

Lemma load4_pixelAt (data : list Z) (k : nat) (r g b a : Z) :
  pixelAt data k (r, g, b, a) ->
  load4 data (4 * k) = (Z2F r, Z2F g, Z2F b, Z2F a).
Proof.
  intros (Hr & Hg & Hb & Ha). unfold load4, getByte.
  now rewrite Hr, Hg, Hb, Ha.
Qed.

(** The two loop bodies read four numbers and write four numbers. *)
Lemma colorizeAt_store4 (hue saturation : float) (i : nat) (data : list Z) :
  colorizeAt hue saturation i data
  = store4 data i (colorized hue saturation (load4 data i)).
Proof.
  unfold colorizeAt, colorized, load4, store4.
  destruct (rgbToHsl _ _ _) as [[h s] l]. cbn [snd].
  now destruct (hslToRgb hue saturation l) as [[newR newG] newB].
Qed.

Lemma lightenAt_store4 (lightnessAdjust : float) (i : nat) (data : list Z) :
  lightenAt lightnessAdjust i data
  = store4 data i (lightened lightnessAdjust (load4 data i)).
Proof.
  unfold lightenAt, lightened, load4, store4.
  destruct (rgbToHsl _ _ _) as [[h s] l].
  now destruct (hslToRgb h s _) as [[newR newG] newB].
Qed.

(** *** The loop over the pixels *)

(** With enough turns for the pixels that remain, the loop started at
    pixel [j] leaves the pixels before [j] alone and rewrites every other
    pixel from its own four bytes. *)
Lemma forEachPixel_from (f : float * float * float * float ->
                             float * float * float * float)
    (body : nat -> list Z -> list Z) (n : nat) :
  (forall i data, body i data = store4 data i (f (load4 data i))) ->
  forall fuel j data,
    length data = 4 * n -> j <= n -> n - j <= fuel ->
    let out := forEachPixel fuel body (4 * j) data in
    length out = 4 * n /\
    (forall m, m < 4 * j -> out !! m = data !! m) /\
    (forall k, j <= k < n -> storedAt out k (f (load4 data (4 * k)))).
Proof.
  intros Hbody. induction fuel as [|fuel IH]; intros j data Hlen Hj Hfuel;
    cbn [forEachPixel]; cbv zeta.
  - split; [exact Hlen|]. split; [reflexivity|]. intros k Hk. lia.
  - destruct (Nat.ltb_spec (4 * j) (length data)) as [Hlt|Hge].
    + rewrite Hbody.
      remember (store4 data (4 * j) (f (load4 data (4 * j)))) as data'
        eqn:Hdata'.
      replace (4 * j + 4) with (4 * S j) by lia.
      assert (Hlen' : length data' = 4 * n)
        by (subst data'; rewrite store4_length; exact Hlen).
      destruct (IH (S j) data' Hlen' ltac:(lia) ltac:(lia))
        as (Hl & Hlow & Hhigh).
      split; [exact Hl|]. split.
      * intros m Hm. rewrite Hlow by lia. subst data'.
        apply store4_lookup_other. lia.
      * intros k Hk. destruct (decide (k = j)) as [->|Hne].
        -- pose proof (store4_stored data j (f (load4 data (4 * j)))) as Hs.
           rewrite <- Hdata' in Hs. unfold storedAt, pixelAt in *.
           destruct (f (load4 data (4 * j))) as [[[r g] b] a].
           rewrite !Hlow by lia. apply Hs. lia.
        -- specialize (Hhigh k ltac:(lia)).
           replace (load4 data' (4 * k)) with (load4 data (4 * k)) in Hhigh;
             [exact Hhigh|].
           unfold load4. subst data'.
           f_equal; [f_equal; [f_equal|]|]; apply getByte_ext; symmetry;
             apply store4_lookup_other; lia.
    + split; [exact Hlen|]. split; [reflexivity|]. intros k Hk. lia.
Qed.

(** The whole loop: the length of the buffer is fuel enough. *)
Lemma forEachPixel_all (f : float * float * float * float ->
                            float * float * float * float)
    (body : nat -> list Z -> list Z) (n : nat) (data : list Z) :
  (forall i data, body i data = store4 data i (f (load4 data i))) ->
  length data = 4 * n ->
  let out := forEachPixel (length data) body 0 data in
  length out = length data /\
  forall k, k < n -> storedAt out k (f (load4 data (4 * k))).
Proof.
  intros Hbody Hlen. cbv zeta.
  destruct (forEachPixel_from f body n Hbody (length data) 0 data)
    as (Hl & _ & Hall); [exact Hlen | lia | lia |].
  change (4 * 0) with 0 in *. split; [congruence|].
  intros k Hk. apply Hall. lia.
Qed.

(** *** Clamping the lightness *)

Lemma is_nan_Prim2SF (x : float) :
  is_nan x = true <-> Prim2SF x = S754_nan.
Proof.
  unfold is_nan. rewrite FloatAxioms.eqb_spec. unfold SFeqb.
  destruct (Prim2SF x) as [s|s| |s m e]; simpl.
  - split; discriminate.
  - destruct s; split; discriminate.
  - split; reflexivity.
  - destruct s; rewrite Z.compare_refl, Pos.compare_cont_refl; simpl;
      split; discriminate.
Qed.

Lemma of_Prim2SF (x : float) (X : spec_float) :
  Prim2SF x = X -> x = SF2Prim X.
Proof. intros <-. symmetry. apply SF2Prim_Prim2SF. Qed.

Lemma SFcompare_pos_antisym (m1 m2 : positive) (e1 e2 : Z) :
  SFcompare (S754_finite false m1 e1) (S754_finite false m2 e2) = Some Gt ->
  SFcompare (S754_finite false m2 e2) (S754_finite false m1 e1) = Some Lt.
Proof.
  simpl. rewrite (Z.compare_antisym e1 e2).
  destruct (e1 ?= e2)%Z; simpl; try congruence.
  pose proof (Pos.compare_cont_antisym m1 m2 Eq) as H. simpl in H.
  rewrite <- H. destruct (Pos.compare_cont Eq m1 m2); simpl; congruence.
Qed.

(** [Math.max(0, Math.min(100, x))] lies in [0,100] unless [x] is NaN. *)
Lemma clamp_range (x : float) :
  is_nan x = false ->
  (0 <=? Math_max 0 (Math_min 100 x))%float = true /\
  (Math_max 0 (Math_min 100 x) <=? 100)%float = true.
Proof.
  intros Hnan.
  destruct (Prim2SF x) as [s|s| |s m e] eqn:HX.
  - apply of_Prim2SF in HX. subst x. destruct s; vm_compute; auto.
  - apply of_Prim2SF in HX. subst x. destruct s; vm_compute; auto.
  - apply is_nan_Prim2SF in HX. congruence.
  - destruct s.
    + assert (Hmin : Math_min 100 x = x).
      { unfold Math_min. rewrite !FloatAxioms.ltb_spec, HX. reflexivity. }
      assert (Hmax : Math_max 0 x = 0%float).
      { unfold Math_max. rewrite !FloatAxioms.ltb_spec, HX. reflexivity. }
      rewrite Hmin, Hmax. split; reflexivity.
    + assert (H0 : Math_max 0 x = x).
      { unfold Math_max. rewrite !FloatAxioms.ltb_spec, HX. reflexivity. }
      assert (H0le : (0 <=? x)%float = true).
      { rewrite FloatAxioms.leb_spec, HX. reflexivity. }
      unfold Math_min at 1 2.
      destruct (100 <? x)%float eqn:E1; [split; reflexivity|].
      destruct (x <? 100)%float eqn:E2.
      * rewrite H0. split; [exact H0le|].
        rewrite FloatAxioms.ltb_spec in E2. rewrite FloatAxioms.leb_spec.
        unfold SFltb, SFleb in *.
        destruct (SFcompare (Prim2SF x) (Prim2SF 100)) as [[]|]; congruence.
      * destruct (100 =? x)%float eqn:E3; [split; reflexivity|].
        exfalso. rewrite FloatAxioms.ltb_spec in E1, E2.
        rewrite FloatAxioms.eqb_spec in E3.
        rewrite HX in *. unfold SFltb, SFeqb in *.
        change (Prim2SF 100)
          with (S754_finite false 7036874417766400 (-46)) in *.
        pose proof (SFcompare_pos_antisym 7036874417766400 m (-46) e) as Ha.
        destruct (SFcompare (S754_finite false 7036874417766400 (-46))
                    (S754_finite false m e)) as [[]|] eqn:Ec;
          try discriminate.
        rewrite Ha in E2 by reflexivity. discriminate.
Qed.

(** *** The two passes of [applyHslFilter] *)

Lemma applyColorize_pixels (data : list Z) (hue saturation : float)
    (n : nat) :
  length data = 4 * n ->
  length (applyColorize data hue saturation) = length data /\
  forall k, k < n ->
    storedAt (applyColorize data hue saturation) k
      (colorized hue saturation (load4 data (4 * k))).
Proof.
  intros Hlen.
  apply (forEachPixel_all (colorized hue saturation)
           (colorizeAt hue saturation) n data);
    [apply colorizeAt_store4 | exact Hlen].
Qed.

Lemma pixelAt_alpha_byte (data : list Z) (k : nat) (r g b a : Z) :
  Forall isByte data -> pixelAt data k (r, g, b, a) -> isByte a.
Proof.
  intros Hall (_ & _ & _ & Ha).
  exact (Forall_lookup_1 _ _ _ _ Hall Ha).
Qed.

(** The colorize pass leaves the alpha bytes where they are. *)
Lemma applyColorize_alpha (data : list Z) (hue saturation : float)
    (n k : nat) :
  length data = 4 * n -> Forall isByte data -> k < n ->
  applyColorize data hue saturation !! (4 * k + 3) = data !! (4 * k + 3).
Proof.
  intros Hlen Hbytes Hk.
  destruct (applyColorize_pixels data hue saturation n Hlen) as [_ Hpx].
  specialize (Hpx k Hk).
  destruct (lookup_lt_is_Some_2 data (4 * k + 3)) as [a Ha]; [lia|].
  assert (Hbyte : isByte a) by exact (Forall_lookup_1 _ _ _ _ Hbytes Ha).
  unfold colorized, load4 in Hpx.
  destruct (hslToRgb _ _ _) as [[newR newG] newB].
  destruct Hpx as (_ & _ & _ & Hpx). rewrite Hpx, Ha.
  unfold getByte. rewrite Ha. now rewrite ToUint8Clamp_byte.
Qed.

(** C2: whatever the three adjustments are, [applyHslFilter] first runs the
    colorize pass over the whole buffer; the pass gives every pixel the
    colour [hslToRgb(hueShift, saturationAdjust, l)], where [l] is the
    lightness of the gray [0.299 r + 0.587 g + 0.114 b] of the pixel, as
    the byte array stores it, and keeps its alpha byte. *)
Theorem colorize_pass (data : list Z)
    (hueShift saturationAdjust lightnessAdjust : float) (n : nat) :
  length data = 4 * n ->
  Forall isByte data ->
  let out := applyColorize data hueShift saturationAdjust in
  applyHslFilter data hueShift saturationAdjust lightnessAdjust
  = (if (lightnessAdjust =? 0)%float then out
     else forEachPixel (length out) (lightenAt lightnessAdjust) 0 out) /\
  applyHslFilter data hueShift saturationAdjust 0 = out /\
  length out = length data /\
  forall k r g b a, k < n ->
    pixelAt data k (r, g, b, a) ->
    let gray := luminosity (Z2F r) (Z2F g) (Z2F b) in
    let '(_, _, l) := rgbToHsl gray gray gray in
    let '(newR, newG, newB) := hslToRgb hueShift saturationAdjust l in
    pixelAt out k
      (ToUint8Clamp newR, ToUint8Clamp newG, ToUint8Clamp newB, a).
Proof.
  intros Hlen Hbytes. cbv zeta.
  destruct (applyColorize_pixels data hueShift saturationAdjust n Hlen)
    as [Hl Hpx].
  split.
  { unfold applyHslFilter. cbv zeta.
    now destruct (lightnessAdjust =? 0)%float. }
  split; [reflexivity|]. split; [exact Hl|].
  intros k r g b a Hk Hpix. specialize (Hpx k Hk).
  rewrite (load4_pixelAt _ _ _ _ _ _ Hpix) in Hpx. unfold colorized in Hpx.
  destruct (rgbToHsl _ _ _) as [[h s] l]. cbn [snd] in Hpx.
  destruct (hslToRgb hueShift saturationAdjust l) as [[newR newG] newB].
  unfold storedAt in Hpx. rewrite (ToUint8Clamp_byte a) in Hpx; [exact Hpx|].
  exact (pixelAt_alpha_byte _ _ _ _ _ _ Hbytes Hpix).
Qed.

Lemma colorize_pass_witness :
  let data := [10; 200; 30; 128; 255; 255; 255; 0]%Z in
  applyHslFilter data 120 50 0 = applyColorize data 120 50 /\
  length (applyColorize data 120 50) = length data /\
  pixelAt (applyColorize data 120 50) 0 (62, 186, 62, 128)%Z.
Proof.
  cbv zeta.
  assert (Hbytes : Forall isByte [10; 200; 30; 128; 255; 255; 255; 0]%Z)
    by (repeat constructor; unfold isByte; lia).
  destruct (colorize_pass [10; 200; 30; 128; 255; 255; 255; 0]%Z
              120 50 0 2 eq_refl Hbytes) as (_ & H0 & Hl & Hpx).
  split; [exact H0|]. split; [exact Hl|].
  assert (Hk : 0 < 2) by lia.
  refine (Hpx 0 10%Z 200%Z 30%Z 128%Z Hk _). repeat split.
Defined.

(** C3: the lightness pass is skipped when [lightnessAdjust] is 0 and runs
    otherwise; when it runs, every pixel of the colorized buffer is taken
    to HSL, its lightness plus [lightnessAdjust] is clamped to [0,100] (the
    clamp of a number that is not NaN lies in that range), the result is
    taken back to RGB and stored, and the alpha byte is kept. *)
Theorem lightness_pass (data : list Z)
    (hueShift saturationAdjust lightnessAdjust : float) (n : nat) :
  length data = 4 * n ->
  Forall isByte data ->
  let mid := applyColorize data hueShift saturationAdjust in
  let out := applyHslFilter data hueShift saturationAdjust lightnessAdjust in
  ((lightnessAdjust =? 0)%float = true -> out = mid) /\
  ((lightnessAdjust =? 0)%float = false ->
     length out = length data /\
     forall k r g b a, k < n ->
       pixelAt mid k (r, g, b, a) ->
       let '(h, s, l) := rgbToHsl (Z2F r) (Z2F g) (Z2F b) in
       let l' := Math_max 0 (Math_min 100 (l + lightnessAdjust)) in
       let '(newR, newG, newB) := hslToRgb h s l' in
       (is_nan (l + lightnessAdjust) = false ->
        (0 <=? l')%float = true /\ (l' <=? 100)%float = true) /\
       pixelAt out k
         (ToUint8Clamp newR, ToUint8Clamp newG, ToUint8Clamp newB, a)).
Proof.
  intros Hlen Hbytes. cbv zeta. unfold applyHslFilter. cbv zeta.
  destruct (applyColorize_pixels data hueShift saturationAdjust n Hlen)
    as [Hl _].
  set (mid := applyColorize data hueShift saturationAdjust) in *.
  split; [now intros -> |]. intros ->. cbn [negb].
  destruct (forEachPixel_all (lightened lightnessAdjust)
              (lightenAt lightnessAdjust) n mid
              (lightenAt_store4 lightnessAdjust)) as [Hl' Hpx];
    [congruence|].
  split; [congruence|].
  intros k r g b a Hk Hpix. specialize (Hpx k Hk).
  rewrite (load4_pixelAt _ _ _ _ _ _ Hpix) in Hpx. unfold lightened in Hpx.
  destruct (rgbToHsl _ _ _) as [[h s] l].
  destruct (hslToRgb h s _) as [[newR newG] newB].
  split; [apply clamp_range|].
  unfold storedAt in Hpx. rewrite (ToUint8Clamp_byte a) in Hpx; [exact Hpx|].
  destruct Hpix as (_ & _ & _ & Ha). subst mid.
  rewrite (applyColorize_alpha data _ _ n k Hlen Hbytes Hk) in Ha.
  exact (Forall_lookup_1 _ _ _ _ Hbytes Ha).
Qed.

Lemma lightness_pass_witness :
  let data := [10; 200; 30; 128; 255; 255; 255; 0]%Z in
  applyHslFilter data 120 50 0 = applyColorize data 120 50 /\
  length (applyHslFilter data 120 50 20) = length data /\
  pixelAt (applyHslFilter data 120 50 20) 0 (135, 215, 135, 128)%Z.
Proof.
  cbv zeta.
  assert (Hbytes : Forall isByte [10; 200; 30; 128; 255; 255; 255; 0]%Z)
    by (repeat constructor; unfold isByte; lia).
  destruct (lightness_pass [10; 200; 30; 128; 255; 255; 255; 0]%Z
              120 50 0 2 eq_refl Hbytes) as (H0 & _).
  destruct (lightness_pass [10; 200; 30; 128; 255; 255; 255; 0]%Z
              120 50 20 2 eq_refl Hbytes) as (_ & H20).
  split; [exact (H0 eq_refl)|].
  destruct (H20 eq_refl) as (Hl & Hpx).
  split; [exact Hl|].
  assert (Hk : 0 < 2) by lia.
  refine (proj2 (Hpx 0 62%Z 186%Z 62%Z 128%Z Hk _)). repeat split.
Defined.

End PixelPasses.

Section SlugProperties.
Import Util.
Local Open Scope string_scope.

Example extractSlug_url :
  extractSlug "https://start.gg/tournament/foo/event/bar/overview"
  = Some "tournament/foo/event/bar".
Proof. reflexivity. Qed.

Example split_samples :
  split "," "a,b,,c," = ["a"; "b"; ""; "c"; ""] /\
  split "ab" "xabyab" = ["x"; "y"; ""] /\
  split "/" "" = [""].
Proof. repeat split. Qed.

(** *** Strings *)

Lemma append_cons (c : ascii) (s t : string) :
  String c s ++ t = String c (s ++ t).
Proof. reflexivity. Qed.

Lemma append_empty_l (s : string) : "" ++ s = s.
Proof. reflexivity. Qed.

Lemma append_empty_r (s : string) : s ++ "" = s.
Proof.
  induction s as [|c s IH]; [reflexivity|]. now rewrite append_cons, IH.
Qed.

Lemma append_snoc_assoc (a : string) (c : ascii) (b : string) :
  (a ++ String c "") ++ b = a ++ String c b.
Proof.
  induction a as [|x a IH]; [reflexivity|]. now rewrite !append_cons, IH.
Qed.

Lemma startsWith_append (p s t : string) :
  startsWith p s = true -> startsWith p (s ++ t) = true.
Proof.
  revert s. induction p as [|a p IH]; intros [|b s]; try easy.
  rewrite append_cons. simpl.
  intros [Hab Hps]%andb_true_iff. rewrite Hab. simpl. now apply IH.
Qed.

Lemma startsWith_sliceFrom (p s : string) :
  startsWith p s = true -> s = p ++ sliceFrom (String.length p) s.
Proof.
  revert s. induction p as [|a p IH]; intros [|b s]; try easy.
  rewrite append_cons. simpl.
  intros [Hab Hps]%andb_true_iff.
  apply Ascii.eqb_eq in Hab as ->. f_equal. now apply IH.
Qed.

(** *** Unfolding equations of the scanning functions *)

Lemma includes_cons (sep : string) (c : ascii) (s : string) :
  includes sep (String c s) = startsWith sep (String c s) || includes sep s.
Proof. reflexivity. Qed.

Lemma before_cons (sep : string) (c : ascii) (s : string) :
  before sep (String c s) =
  if startsWith sep (String c s) then "" else String c (before sep s).
Proof. reflexivity. Qed.

Lemma after_cons (sep : string) (c : ascii) (s : string) :
  after sep (String c s) =
  if startsWith sep (String c s) then sliceFrom (String.length sep) (String c s)
  else after sep s.
Proof. reflexivity. Qed.

Lemma split_from_cons (sep cur : string) (c : ascii) (s : string) :
  split_from sep 0 cur (String c s) =
  if startsWith sep (String c s)
  then cur :: split_from sep (String.length sep - 1) "" s
  else split_from sep 0 (cur ++ String c "") s.
Proof. reflexivity. Qed.

(** Skipping [k] characters while scanning is scanning the rest. *)
Lemma split_from_skip (sep : string) (k : nat) (cur s : string) :
  split_from sep k cur s = split_from sep 0 cur (sliceFrom k s).
Proof.
  revert k. induction s as [|c s IH]; intros [|k]; try reflexivity.
  simpl. apply IH.
Qed.

(** The pieces of [split]: the text before the first separator, then the
    pieces of the text after it. *)
Lemma split_from_unfold (a : ascii) (p cur s : string) :
  split_from (String a p) 0 cur s =
  if includes (String a p) s
  then (cur ++ before (String a p) s)
       :: split_from (String a p) 0 "" (after (String a p) s)
  else [cur ++ s].
Proof.
  revert cur. induction s as [|c s IH]; intros cur.
  - simpl. now rewrite append_empty_r.
  - rewrite split_from_cons, includes_cons, before_cons, after_cons.
    destruct (startsWith (String a p) (String c s)) eqn:E.
    + rewrite append_empty_r, split_from_skip.
      cbn [orb String.length sliceFrom].
      now replace (S (String.length p) - 1)%nat with (String.length p) by lia.
    + rewrite IH. cbn [orb].
      destruct (includes (String a p) s); now rewrite append_snoc_assoc.
Qed.

Lemma before_no_occurrence (sep s : string) :
  includes sep s = false -> before sep s = s.
Proof.
  induction s as [|c s IH].
  - simpl. now destruct (startsWith sep "").
  - rewrite includes_cons, before_cons.
    intros [-> Hs]%orb_false_iff. now rewrite IH.
Qed.

Lemma head_split_from (a : ascii) (p s : string) :
  split_from (String a p) 0 "" s !! 0%nat = Some (before (String a p) s).
Proof.
  rewrite split_from_unfold.
  destruct (includes (String a p) s) eqn:E; [reflexivity|].
  now rewrite before_no_occurrence.
Qed.

(** *** Occurrences *)

Lemma includes_append_l (sep s t : string) :
  includes sep s = true -> includes sep (s ++ t) = true.
Proof.
  induction s as [|c s IH].
  - destruct sep; [|discriminate]. intros _. now destruct t.
  - rewrite includes_cons. change (String c s ++ t) with (String c (s ++ t)).
    rewrite includes_cons. intros [H|H]%orb_true_iff.
    + apply (startsWith_append _ _ t) in H. rewrite append_cons in H.
      now rewrite H.
    + rewrite (IH H). apply orb_true_r.
Qed.

Lemma before_is_prefix (sep s : string) : exists t, s = before sep s ++ t.
Proof.
  induction s as [|c s [t Ht]].
  - exists "". simpl. now destruct (startsWith sep "").
  - rewrite before_cons. destruct (startsWith sep (String c s)).
    + now exists (String c s).
    + exists t. rewrite append_cons. now rewrite <- Ht.
Qed.

Lemma includes_before_other (sep sep' s : string) :
  includes sep s = false -> includes sep (before sep' s) = false.
Proof.
  intros Hs. destruct (before_is_prefix sep' s) as [t Ht].
  destruct (includes sep (before sep' s)) eqn:E; [|reflexivity].
  apply (includes_append_l _ _ t) in E. rewrite <- Ht in E. congruence.
Qed.

(** No occurrence of the separator lies in the text before its first
    occurrence. *)
Lemma includes_before (a : ascii) (p s : string) :
  includes (String a p) (before (String a p) s) = false.
Proof.
  induction s as [|c s IH]; [reflexivity|].
  rewrite before_cons.
  destruct (startsWith (String a p) (String c s)) eqn:E; [reflexivity|].
  rewrite includes_cons, IH, orb_false_r.
  destruct (startsWith (String a p) (String c (before (String a p) s))) eqn:E';
    [|reflexivity].
  destruct (before_is_prefix (String a p) s) as [t Ht].
  apply (startsWith_append _ _ t) in E'.
  change (String c (before (String a p) s) ++ t)
    with (String c (before (String a p) s ++ t)) in E'.
  rewrite <- Ht in E'. congruence.
Qed.

(** An occurrence splits the string around it. *)
Lemma before_after_decompose (sep s : string) :
  includes sep s = true -> s = before sep s ++ sep ++ after sep s.
Proof.
  induction s as [|c s IH].
  - simpl. destruct (startsWith sep "") eqn:E; [|discriminate].
    intros _. destruct sep; [reflexivity | discriminate].
  - rewrite includes_cons, before_cons, after_cons.
    destruct (startsWith sep (String c s)) eqn:E.
    + intros _. now apply startsWith_sliceFrom.
    + cbn [orb]. intros H. rewrite append_cons. now rewrite <- IH.
Qed.

(** *** [extractSlug] *)

Lemma extractSlug_marker (s : string) :
  includes "start.gg/" s = true ->
  extractSlug s
  = Some (before "/overview" (before "start.gg/" (after "start.gg/" s))).
Proof.
  intros H. unfold extractSlug. rewrite H.
  change (split "start.gg/" s) with (split_from "start.gg/" 0 "" s).
  rewrite split_from_unfold, H, lookup_cons, head_split_from.
  cbn [mbind option_bind].
  change (split "/overview" ?x) with (split_from "/overview" 0 "" x).
  apply head_split_from.
Qed.

Lemma extractSlug_no_marker (s : string) :
  includes "start.gg/" s = false -> extractSlug s = Some s.
Proof. intros H. unfold extractSlug. now rewrite H. Qed.

(** C8, as the specification words it, fails: with a second marker the
    result stops there, and with [/overview] in the middle the result stops
    there too. *)
Lemma extractSlug_stated_fails :
  let input := "https://start.gg/a/start.gg/b" in
  let input' := "https://start.gg/a/overview/b" in
  extractSlug input = Some "a/" /\
  extractSlug_stated input = "a/start.gg/b" /\
  extractSlug input <> Some (extractSlug_stated input) /\
  extractSlug input' = Some "a" /\
  extractSlug_stated input' = "a/overview/b" /\
  extractSlug input' <> Some (extractSlug_stated input').
Proof. cbv zeta. repeat split; discriminate. Qed.

(** C8 (amended): [extractSlug] never fails; on an input that contains the
    marker it returns the text after the first marker, cut before the next
    marker and then before the first [/overview]; any other input is
    returned unchanged; the two inputs of the specification give the slug
    [tournament/foo/event/bar]. *)
Theorem extractSlug_spec (input : string) :
  extractSlug input
  = Some (if includes "start.gg/" input
          then before "/overview"
                 (before "start.gg/" (after "start.gg/" input))
          else input) /\
  extractSlug "https://start.gg/tournament/foo/event/bar/overview"
  = Some "tournament/foo/event/bar" /\
  extractSlug "tournament/foo/event/bar" = Some "tournament/foo/event/bar".
Proof.
  split; [|split; reflexivity].
  destruct (includes "start.gg/" input) eqn:E.
  - now apply extractSlug_marker.
  - now apply extractSlug_no_marker.
Qed.

(** C10: [extractSlug] is idempotent: its result contains no marker, so a
    second application returns it unchanged. *)
Theorem extractSlug_idempotent (s : string) :
  exists t, extractSlug s = Some t /\
            includes "start.gg/" t = false /\
            extractSlug t = Some t.
Proof.
  destruct (includes "start.gg/" s) eqn:E.
  - exists (before "/overview" (before "start.gg/" (after "start.gg/" s))).
    assert (H : includes "start.gg/"
                  (before "/overview"
                     (before "start.gg/" (after "start.gg/" s))) = false)
      by apply includes_before_other, includes_before.
    split; [now apply extractSlug_marker|].
    split; [exact H|]. now apply extractSlug_no_marker.
  - exists s. split; [now apply extractSlug_no_marker|].
    split; [exact E|]. now apply extractSlug_no_marker.
Qed.

End SlugProperties.

Section StandingsClient.
Import Js Util Api.
Local Open Scope string_scope.

Lemma standings_nodes_response (nodes : json) :
  nodes <> JNull ->
  standings_nodes (standings_response nodes) = Returns nodes.
Proof. intros H. destruct nodes; [congruence | reflexivity ..]. Qed.

Lemma extractSlug_returns (s : string) :
  exists slug, extractSlug s = Some slug.
Proof.
  destruct (includes "start.gg/" s) eqn:E.
  - rewrite (extractSlug_marker s E). eauto.
  - rewrite (extractSlug_no_marker s E). eauto.
Qed.

(** C7, as the specification words it, fails on a failed HTTP call whose
    body parses: the code does not read the status.  When the service
    refuses the key with status 401 and a JSON body that tells so, the
    call does not fail: it returns the empty list, after its one
    request. *)
Theorem getTop8_returns_on_refused_key :
  let url := "https://start.gg/tournament/a/event/b" in
  let req := top8_request "key" "tournament/a/event/b" in
  VITE_STARTGG_KEY refusingEnv = Some "key" /\
  fetch refusingEnv req = Resolves 401 (Parses refusal) /\
  getTop8 refusingEnv url = (Returns (JArray []), [req]).
Proof. cbv zeta. repeat split. Qed.

(** X25: [getTop8] sends nothing and fails when the key is unset; otherwise it
    sends exactly one request (page 1, 8 per page, the slug of the URL), fails
    with the error of a rejected [fetch] or of a body that does not parse,
    fails on a body that is [null], and returns the nodes of a body that
    holds some at [data.event.standings.nodes], as they are, whatever else
    the body holds. *)
Theorem getTop8_outcomes (e : env) (eventUrl : string) :
  exists slug, extractSlug eventUrl = Some slug /\
  ((VITE_STARTGG_KEY e = None \/ VITE_STARTGG_KEY e = Some "") ->
     getTop8 e eventUrl
     = (Throws (Exn "Error" "API key not set (VITE_STARTGG_KEY)"), [])) /\
  (forall apiKey, VITE_STARTGG_KEY e = Some apiKey -> apiKey <> "" ->
     let req := top8_request apiKey slug in
     snd (getTop8 e eventUrl) = [req] /\
     body_slug req = slug /\
     includes "standings(query: { perPage: 8, page: 1 })" (body_query req)
     = true /\
     (forall err, fetch e req = Rejects err ->
        fst (getTop8 e eventUrl) = Throws err) /\
     (forall status err, fetch e req = Resolves status (ParseFails err) ->
        fst (getTop8 e eventUrl) = Throws err) /\
     (forall status, fetch e req = Resolves status (Parses JNull) ->
        exists err, fst (getTop8 e eventUrl) = Throws err) /\
     (forall status j data event standings nodes,
        fetch e req = Resolves status (Parses j) ->
        j <> JNull ->
        getProp j "data" = Value data -> data <> JNull ->
        getProp data "event" = Value event -> event <> JNull ->
        getProp event "standings" = Value standings -> standings <> JNull ->
        getProp standings "nodes" = Value nodes -> nodes <> JNull ->
        fst (getTop8 e eventUrl) = Returns nodes)).
Proof.
  destruct (extractSlug_returns eventUrl) as [slug Hslug].
  exists slug. split; [exact Hslug|]. unfold getTop8. rewrite Hslug.
  split.
  - intros [-> | ->]; reflexivity.
  - intros apiKey -> Hkey. apply String.eqb_neq in Hkey. rewrite Hkey.
    cbv zeta. repeat split.
    + now destruct (fetch e (top8_request apiKey slug)) as [|? []].
    + intros err ->. reflexivity.
    + intros status err ->. reflexivity.
    + intros status ->. cbn [fst standings_nodes]. eauto.
    + intros status j data event standings nodes -> Hj Hd Hd' He He' Hs Hs'
        Hn Hn'.
      cbn [fst]. unfold standings_nodes.
      assert (Hnodes :
                nullish
                  (optChain (optChain (optChain (getProp j "data") "event")
                               "standings") "nodes") (JArray [])
                = nodes).
      { rewrite Hd. destruct data; try congruence; cbn [optChain];
          rewrite He; destruct event; try congruence; cbn [optChain];
          rewrite Hs; destruct standings; try congruence; cbn [optChain];
          rewrite Hn; destruct nodes; try congruence; reflexivity. }
      rewrite Hnodes. now destruct j.
Qed.

End StandingsClient.

Section DoubleArithmetic.
Import Double.
Local Open Scope Z_scope.

Lemma nearestEven_bounds (n d : Z) :
  0 < d ->
  2 * d * nearestEven n d - d <= 2 * n <= 2 * d * nearestEven n d + d.
Proof.
  intros Hd. unfold nearestEven. cbv zeta.
  pose proof (Z.div_mod n d ltac:(lia)) as Hn.
  pose proof (Z.mod_pos_bound n d Hd) as Hr.
  destruct (Z.ltb_spec (2 * (n mod d)) d) as [H1|H1]; [nia|].
  destruct (Z.ltb_spec d (2 * (n mod d))) as [H2|H2]; [nia|].
  destruct (Z.even (n / d)); nia.
Qed.

Lemma nearestEven_ge (n d j : Z) :
  0 < d -> j * d <= n -> j <= nearestEven n d.
Proof.
  intros Hd Hj.
  assert (Hq : j <= n / d) by (apply Z.div_le_lower_bound; lia).
  unfold nearestEven. cbv zeta.
  repeat match goal with |- context [if ?c then _ else _] => destruct c end;
    lia.
Qed.

Lemma nearestEven_le (n d j : Z) :
  0 < d -> n <= j * d -> nearestEven n d <= j.
Proof.
  intros Hd Hj. unfold nearestEven. cbv zeta.
  pose proof (Z.div_mod n d ltac:(lia)) as Hn.
  pose proof (Z.mod_pos_bound n d Hd) as Hr.
  assert (Hq : n / d <= j) by nia.
  destruct (Z.ltb_spec (2 * (n mod d)) d) as [H1|H1]; [lia|].
  assert (n / d < j) by nia.
  repeat match goal with |- context [if ?c then _ else _] => destruct c end;
    lia.
Qed.

Lemma numAt_nonneg (n e : Z) : 0 <= e -> numAt n e = n.
Proof. intros H. unfold numAt. now rewrite (proj2 (Z.leb_le 0 e) H). Qed.

Lemma denAt_nonneg (d e : Z) : 0 <= e -> denAt d e = d * 2 ^ e.
Proof. intros H. unfold denAt. now rewrite (proj2 (Z.leb_le 0 e) H). Qed.

Lemma numAt_neg (n e : Z) : e < 0 -> numAt n e = n * 2 ^ (- e).
Proof. intros H. unfold numAt. now rewrite (proj2 (Z.leb_gt 0 e) H). Qed.

Lemma denAt_neg (d e : Z) : e < 0 -> denAt d e = d.
Proof. intros H. unfold denAt. now rewrite (proj2 (Z.leb_gt 0 e) H). Qed.

Lemma denAt_pos (d e : Z) : 0 < d -> 0 < denAt d e.
Proof.
  intros Hd. unfold denAt. destruct (0 <=? e) eqn:E; [|exact Hd].
  apply Z.leb_le in E. pose proof (Z.pow_pos_nonneg 2 e ltac:(lia) E). nia.
Qed.

(** [ilog2 n d] is the integer [k] with [2 ^ k <= n / d < 2 ^ (k + 1)]. *)
Lemma ilog2_spec (n d : Z) :
  0 < n -> 0 < d ->
  denAt d (ilog2 n d) <= numAt n (ilog2 n d) < 2 * denAt d (ilog2 n d).
Proof.
  intros Hn Hd. unfold ilog2. cbv zeta.
  pose proof (Z.log2_spec n Hn) as [Ha1 Ha2].
  pose proof (Z.log2_spec d Hd) as [Hc1 Hc2].
  pose proof (Z.log2_nonneg n) as Ha. pose proof (Z.log2_nonneg d) as Hc.
  set (a := Z.log2 n) in *. set (c := Z.log2 d) in *.
  rewrite Z.pow_succ_r in Ha2, Hc2 by assumption.
  assert (Hlow : denAt d (a - c - 1) <= numAt n (a - c - 1)).
  { destruct (Z.le_gt_cases 0 (a - c - 1)) as [Hk|Hk].
    - rewrite numAt_nonneg, denAt_nonneg by exact Hk.
      replace a with (c + 1 + (a - c - 1)) in Ha1 by lia.
      rewrite Z.pow_add_r, Z.pow_add_r, Z.pow_1_r in Ha1 by lia.
      pose proof (Z.pow_pos_nonneg 2 (a - c - 1) ltac:(lia) Hk). nia.
    - rewrite numAt_neg, denAt_neg by exact Hk.
      replace (- (a - c - 1)) with (c + 1 - a) by lia.
      replace (c + 1) with (a + (c + 1 - a)) in Hc2 at 0 by lia.
      assert (Hp : 2 * 2 ^ c = 2 ^ a * 2 ^ (c + 1 - a)).
      { rewrite <- Z.pow_succ_r, <- Z.pow_add_r by lia. f_equal. lia. }
      pose proof (Z.pow_pos_nonneg 2 (c + 1 - a) ltac:(lia) ltac:(lia)). nia. }
  assert (Hup : numAt n (a - c) < 2 * denAt d (a - c)).
  { destruct (Z.le_gt_cases 0 (a - c)) as [Hk|Hk].
    - rewrite numAt_nonneg, denAt_nonneg by exact Hk.
      assert (Hp : 2 * 2 ^ a = 2 * (2 ^ c * 2 ^ (a - c))).
      { rewrite <- Z.pow_add_r by lia. do 2 f_equal. lia. }
      pose proof (Z.pow_pos_nonneg 2 (a - c) ltac:(lia) Hk). nia.
    - rewrite numAt_neg, denAt_neg by exact Hk.
      assert (Hp : 2 * 2 ^ a * 2 ^ (- (a - c)) = 2 * 2 ^ c).
      { rewrite <- Z.mul_assoc, <- Z.pow_add_r by lia. do 2 f_equal. lia. }
      pose proof (Z.pow_pos_nonneg 2 (- (a - c)) ltac:(lia) ltac:(lia)) as HP.
      assert (n * 2 ^ (- (a - c)) < 2 * 2 ^ a * 2 ^ (- (a - c)))
        by (apply Z.mul_lt_mono_pos_r; lia).
      lia. }
  destruct (Z.leb_spec (denAt d (a - c)) (numAt n (a - c))) as [H|H].
  - split; [exact H | exact Hup].
  - split; [exact Hlow|].
    destruct (Z.le_gt_cases 0 (a - c - 1)) as [Hk|Hk].
    + rewrite numAt_nonneg, denAt_nonneg in * by lia.
      replace (a - c) with (Z.succ (a - c - 1)) in H by lia.
      rewrite Z.pow_succ_r in H by lia. lia.
    + destruct (Z.eq_dec (a - c) 0) as [E0|E0].
      * rewrite E0 in H. rewrite numAt_nonneg, denAt_nonneg in H by lia.
        replace (a - c - 1) with (-1) by lia.
        rewrite numAt_neg, denAt_neg by lia.
        change (2 ^ (- -1)) with 2. rewrite Z.pow_0_r in H. lia.
      * rewrite numAt_neg, denAt_neg in * by lia.
        replace (- (a - c - 1)) with (Z.succ (- (a - c))) by lia.
        rewrite Z.pow_succ_r by lia. lia.
Qed.

Lemma scale2_nonneg_exp (m e : Z) :
  0 <= e -> scale2 m e = inject_Z (m * 2 ^ e).
Proof. intros H. unfold scale2. now rewrite (proj2 (Z.leb_le 0 e) H). Qed.

Lemma scale2_neg_exp (m e : Z) :
  e < 0 -> scale2 m e = (m # Z.to_pos (2 ^ (- e)))%Q.
Proof. intros H. unfold scale2. now rewrite (proj2 (Z.leb_gt 0 e) H). Qed.

Lemma pow2_pos (k : Z) : 0 <= k -> 0 < 2 ^ k.
Proof. intros H. apply Z.pow_pos_nonneg; lia. Qed.

(** Rounding never crosses an integer below 2^53: such an integer is a
    double. *)
Lemma toDouble_ge_int (x : Q) (j : Z) :
  0 <= j <= 2 ^ 53 -> (inject_Z j <= x)%Q -> (inject_Z j <= toDouble x)%Q.
Proof.
  intros Hj Hx. destruct x as [n d]. unfold Qle in Hx.
  cbn [Qnum Qden inject_Z] in Hx. unfold toDouble. cbn [Qnum Qden]. cbv zeta.
  destruct (Z.eqb_spec n 0) as [E|E].
  - subst n. unfold Qle. cbn [Qnum Qden inject_Z]. lia.
  - assert (Hn : 0 < n) by lia.
    rewrite Z.abs_eq by lia.
    pose proof (ilog2_spec n (Z.pos d) Hn eq_refl) as [Hlow _].
    set (il := ilog2 n (Z.pos d)) in *.
    set (e := Z.max (il - 52) (-1074)).
    destruct (Z.le_gt_cases 0 e) as [He|He].
    + rewrite scale2_nonneg_exp by exact He. rewrite <- Zle_Qle.
      rewrite numAt_nonneg, denAt_nonneg by exact He.
      assert (Hil : il = 52 + e) by lia.
      rewrite numAt_nonneg, denAt_nonneg in Hlow by lia.
      rewrite Hil, Z.pow_add_r in Hlow by lia.
      pose proof (pow2_pos e He) as HP.
      destruct (Z.eq_dec e 0) as [E0|E0].
      * rewrite E0, Z.pow_0_r, !Z.mul_1_r.
        apply nearestEven_ge; lia.
      * assert (Hm : 2 ^ 52 <= nearestEven n (Z.pos d * 2 ^ e)).
        { apply nearestEven_ge; [nia | lia]. }
        assert (2 <= 2 ^ e).
        { change 2 with (2 ^ 1) at 1. apply Z.pow_le_mono_r; lia. }
        change (2 ^ 53) with (2 ^ 52 * 2) in Hj. nia.
    + rewrite scale2_neg_exp by exact He.
      rewrite numAt_neg, denAt_neg by exact He.
      pose proof (pow2_pos (- e) ltac:(lia)) as HP.
      unfold Qle. cbn [Qnum Qden inject_Z]. rewrite Z2Pos.id by exact HP.
      rewrite Z.mul_1_r. apply nearestEven_ge; [lia | nia].
Qed.

Lemma toDouble_le_int (x : Q) (j : Z) :
  0 <= j < 2 ^ 53 -> (x <= inject_Z j)%Q -> (toDouble x <= inject_Z j)%Q.
Proof.
  intros Hj Hx. destruct x as [n d]. unfold Qle in Hx.
  cbn [Qnum Qden inject_Z] in Hx. unfold toDouble. cbn [Qnum Qden]. cbv zeta.
  destruct (Z.eqb_spec n 0) as [E|E].
  - unfold Qle. cbn [Qnum Qden inject_Z]. lia.
  - set (e := Z.max (ilog2 (Z.abs n) (Z.pos d) - 52) (-1074)).
    destruct (Z.le_gt_cases 0 e) as [He|He].
    + rewrite scale2_nonneg_exp by exact He. rewrite <- Zle_Qle.
      rewrite numAt_nonneg, denAt_nonneg by exact He.
      pose proof (pow2_pos e He) as HP.
      destruct (Z.le_gt_cases n 0) as [Hn|Hn].
      * assert (nearestEven n (Z.pos d * 2 ^ e) <= 0)
          by (apply nearestEven_le; nia).
        nia.
      * pose proof (ilog2_spec n (Z.pos d) Hn eq_refl) as [Hlow _].
        subst e. rewrite Z.abs_eq in * by lia.
        set (il := ilog2 n (Z.pos d)) in *.
        rewrite numAt_nonneg, denAt_nonneg in Hlow by lia.
        assert (Hil : il < 53).
        { apply (Z.pow_lt_mono_r_iff 2); [lia | lia |].
          pose proof (pow2_pos il ltac:(lia)). nia. }
        replace (Z.max (il - 52) (-1074)) with 0 by lia.
        rewrite Z.pow_0_r, !Z.mul_1_r. apply nearestEven_le; lia.
    + rewrite scale2_neg_exp by exact He.
      rewrite numAt_neg, denAt_neg by exact He.
      pose proof (pow2_pos (- e) ltac:(lia)) as HP.
      unfold Qle. cbn [Qnum Qden inject_Z]. rewrite Z2Pos.id by exact HP.
      rewrite Z.mul_1_r. apply nearestEven_le; [lia | nia].
Qed.

(** An integer below 2^53 is a double. *)
Lemma toDouble_int (j : Z) :
  0 <= j < 2 ^ 53 -> (toDouble (inject_Z j) == inject_Z j)%Q.
Proof.
  intros Hj. apply Qle_antisym.
  - apply toDouble_le_int; [exact Hj | apply Qle_refl].
  - apply toDouble_ge_int; [lia | apply Qle_refl].
Qed.

(** The error of a rounding: for a number of at most [2 ^ K], half a unit
    in the last of 53 bits. *)
Lemma toDouble_error (K : Z) (x : Q) :
  0 <= K <= 51 ->
  (0 <= x)%Q -> (x <= inject_Z (2 ^ K))%Q ->
  (x - (1 # Z.to_pos (2 ^ (53 - K))) <= toDouble x)%Q /\
  (toDouble x <= x + (1 # Z.to_pos (2 ^ (53 - K))))%Q.
Proof.
  intros HK H0 Hx. destruct x as [n d]. unfold Qle in H0, Hx.
  cbn [Qnum Qden inject_Z] in H0, Hx. rewrite Z.mul_1_r in H0, Hx.
  pose proof (pow2_pos (53 - K) ltac:(lia)) as HT.
  unfold toDouble. cbn [Qnum Qden]. cbv zeta.
  destruct (Z.eqb_spec n 0) as [E|E].
  - subst n. unfold Qle, Qminus, Qplus, Qopp. cbn [Qnum Qden].
    split; lia.
  - assert (Hn : 0 < n) by lia.
    rewrite Z.abs_eq by lia.
    pose proof (ilog2_spec n (Z.pos d) Hn eq_refl) as [Hlow _].
    set (il := ilog2 n (Z.pos d)) in *.
    assert (Hil : il <= K).
    { destruct (Z.le_gt_cases il K) as [H|H]; [exact H|exfalso].
      rewrite numAt_nonneg, denAt_nonneg in Hlow by lia.
      assert (2 ^ K < 2 ^ il) by (apply Z.pow_lt_mono_r; lia).
      nia. }
    set (e := Z.max (il - 52) (-1074)).
    assert (He : e < 0) by lia.
    rewrite scale2_neg_exp by exact He.
    rewrite numAt_neg, denAt_neg by exact He.
    pose proof (pow2_pos (- e) ltac:(lia)) as HP.
    pose proof (nearestEven_bounds (n * 2 ^ (- e)) (Z.pos d) eq_refl)
      as [Hb1 Hb2].
    set (m := nearestEven (n * 2 ^ (- e)) (Z.pos d)) in *.
    assert (HTP : 2 ^ (53 - K) <= 2 * 2 ^ (- e)).
    { rewrite <- Z.pow_succ_r by lia. apply Z.pow_le_mono_r; lia. }
    set (P := 2 ^ (- e)) in *. set (T := 2 ^ (53 - K)) in *.
    unfold Qle, Qminus, Qplus, Qopp. cbn [Qnum Qden].
    rewrite !Pos2Z.inj_mul, !Z2Pos.id by assumption.
    split; nia.
Qed.

Lemma nearestEven_exact (j d : Z) : 0 < d -> nearestEven (j * d) d = j.
Proof.
  intros Hd. apply Z.le_antisymm.
  - apply nearestEven_le; lia.
  - apply nearestEven_ge; lia.
Qed.

(** A number with a significand below 2^53 and an exponent of at least
    -1074 is a double: rounding leaves it as it is. *)
Lemma toDouble_scale2 (m e : Z) :
  Z.abs m < 2 ^ 53 -> - 1074 <= e ->
  (toDouble (scale2 m e) == scale2 m e)%Q.
Proof.
  intros Hm He. destruct (Z.eq_dec m 0) as [->|Hm0].
  { unfold toDouble, scale2. destruct (0 <=? e); reflexivity. }
  assert (Habs : 0 < Z.abs m) by lia.
  destruct (Z.le_gt_cases 0 e) as [He0|He0].
  - rewrite (scale2_nonneg_exp m e He0). unfold toDouble.
    cbn [Qnum Qden inject_Z]. cbv zeta.
    pose proof (pow2_pos e He0) as HPe.
    destruct (Z.eqb_spec (m * 2 ^ e) 0) as [E|_]; [nia|].
    assert (Hn : 0 < Z.abs (m * 2 ^ e)) by nia.
    pose proof (ilog2_spec _ 1 Hn eq_refl) as [Hlow _].
    set (il := ilog2 (Z.abs (m * 2 ^ e)) 1) in *.
    assert (Hil : il - 52 <= e).
    { destruct (Z.le_gt_cases il (52 + e)) as [H|H]; [lia|exfalso].
      rewrite numAt_nonneg, denAt_nonneg in Hlow by lia.
      assert (2 ^ (53 + e) <= 2 ^ il) by (apply Z.pow_le_mono_r; lia).
      rewrite Z.pow_add_r in H0 by lia.
      rewrite Z.abs_mul, (Z.abs_eq (2 ^ e)) in Hlow by lia. nia. }
    set (E := Z.max (il - 52) (-1074)).
    assert (HE : E <= e) by lia.
    destruct (Z.le_gt_cases 0 E) as [HE0|HE0].
    + rewrite scale2_nonneg_exp, numAt_nonneg, denAt_nonneg by exact HE0.
      pose proof (pow2_pos E HE0) as HPE.
      replace (m * 2 ^ e) with (m * 2 ^ (e - E) * (1 * 2 ^ E)).
      * rewrite nearestEven_exact by lia. now rewrite Z.mul_1_l.
      * rewrite Z.mul_1_l, <- Z.mul_assoc, <- Z.pow_add_r by lia.
        do 2 f_equal. lia.
    + rewrite scale2_neg_exp, numAt_neg, denAt_neg by exact HE0.
      pose proof (pow2_pos (- E) ltac:(lia)) as HPE.
      rewrite <- (Z.mul_1_r (m * 2 ^ e * 2 ^ (- E))) at 1.
      rewrite nearestEven_exact by lia.
      unfold Qeq. cbn [Qnum Qden inject_Z]. rewrite Z2Pos.id by exact HPE.
      lia.
  - rewrite (scale2_neg_exp m e He0). unfold toDouble.
    cbn [Qnum Qden]. cbv zeta.
    pose proof (pow2_pos (- e) ltac:(lia)) as HPe.
    rewrite Z2Pos.id by exact HPe.
    destruct (Z.eqb_spec m 0) as [E|_]; [contradiction|].
    pose proof (ilog2_spec _ (2 ^ (- e)) Habs HPe) as [Hlow _].
    set (il := ilog2 (Z.abs m) (2 ^ (- e))) in *.
    assert (Hil : il - 52 <= e).
    { destruct (Z.le_gt_cases il (52 + e)) as [H|H]; [lia|exfalso].
      destruct (Z.le_gt_cases 0 il) as [Hi|Hi].
      - rewrite numAt_nonneg, denAt_nonneg in Hlow by lia.
        rewrite <- Z.pow_add_r in Hlow by lia.
        assert (2 ^ 53 <= 2 ^ (- e + il)) by (apply Z.pow_le_mono_r; lia).
        lia.
      - rewrite numAt_neg, denAt_neg in Hlow by lia.
        assert (2 ^ (53 + - il) <= 2 ^ (- e))
          by (apply Z.pow_le_mono_r; lia).
        rewrite Z.pow_add_r in H0 by lia.
        pose proof (pow2_pos (- il) ltac:(lia)). nia. }
    set (E := Z.max (il - 52) (-1074)).
    assert (HE : E <= e) by lia.
    rewrite scale2_neg_exp, numAt_neg, denAt_neg by lia.
    pose proof (pow2_pos (- E) ltac:(lia)) as HPE.
    assert (Hsplit : 2 ^ (- E) = 2 ^ (e - E) * 2 ^ (- e)).
    { rewrite <- Z.pow_add_r by lia. f_equal. lia. }
    replace (m * 2 ^ (- E)) with (m * 2 ^ (e - E) * 2 ^ (- e))
      by (rewrite Hsplit; ring).
    rewrite nearestEven_exact by lia.
    unfold Qeq. cbn [Qnum Qden]. rewrite !Z2Pos.id by assumption.
    rewrite Hsplit. ring.
Qed.

Lemma digits2_pos_size (m : positive) : digits2_pos m = Pos.size m.
Proof. induction m as [m IH|m IH|]; cbn; now rewrite ?IH. Qed.

(** Every finite double of the processor is such a number. *)
Lemma toDouble_ofFloat (x : float) :
  (toDouble (ofFloat x) == ofFloat x)%Q.
Proof.
  unfold ofFloat. pose proof (Prim2SF_valid x) as Hv.
  destruct (Prim2SF x) as [s|s| |s m e]; try reflexivity.
  cbn [valid_binary] in Hv. unfold bounded, canonical_mantissa, fexp in Hv.
  apply andb_true_iff in Hv as [Hc _]. apply Z.eqb_eq in Hc.
  rewrite digits2_pos_size in Hc.
  change (emin FloatOps.prec FloatOps.emax) with (-1074) in Hc.
  change FloatOps.prec with 53 in Hc.
  pose proof (Pos.size_gt m) as Hs.
  assert (Hm : Z.pos m < 2 ^ 53).
  { apply Z.lt_le_trans with (2 ^ Z.pos (Pos.size m)).
    - rewrite <- Pos2Z.inj_pow. lia.
    - apply Z.pow_le_mono_r; lia. }
  apply toDouble_scale2.
  - destruct s; cbn [Z.abs]; exact Hm.
  - lia.
Qed.

End DoubleArithmetic.

(** The operations agree with the binary64 arithmetic of the processor,
    here on sums that are exact, that round down, that are a tie, that
    exceed 2^53 and that lie below the normal range, and on a product and
    a quotient. *)
Example double_agrees_with_binary64 :
  let w := (250 + 1 / 35184372088832)%float in
  let v := (0.5 - 1 / 18014398509481984)%float in
  Forall
    (fun p =>
       (Double.ofFloat (fst p + snd p)
        == Double.add (Double.ofFloat (fst p)) (Double.ofFloat (snd p)))%Q)
    [(4, w); (4 + w, 24); (4 + w + 24, 60); (4, v); (4 + v, 24);
     (0x1.999999999999ap-4, 0x1.999999999999ap-3);
     (9007199254740992, 1); (9007199254740992, 3);
     (0x1p-1074, 0x1p-1074); (0x1.8p-1060, 0x1p-1074)]%float /\
  (Double.ofFloat (343 * 0x1.199999999999ap+0)
   == Double.mul 343 (Double.ofFloat 0x1.199999999999ap+0))%Q /\
  (Double.ofFloat (1 / 3) == Double.div 1 3)%Q.
Proof.
  cbv zeta. split; [|split; vm_compute; reflexivity].
  repeat (constructor; [vm_compute; reflexivity|]). constructor.
Qed.

(** From here on the rounding is used through the lemmas above. *)
Opaque Double.toDouble.

Section RendererProperties.
Import Js Renderer.
Local Open Scope string_scope.
Local Open Scope Z_scope.
Local Infix "+." := Double.add (at level 50, left associativity).
Local Infix "-." := Double.sub (at level 50, left associativity).
Local Infix "/." := Double.div (at level 40, left associativity).

(** *** The preload step *)

Lemma loaded_idem (e : env) (ent : entry) :
  loaded e (loaded e ent) = loaded e ent.
Proof. reflexivity. Qed.

Lemma startCallback_entry (e : env) (w : world) (l : loc) (ent : entry) :
  objects w !! l = Some ent ->
  startCallback e w l
  = Waits l (fst (loadCharacterIcon e (character ent)))
      (snd (loadCharacterIcon e (character ent))).
Proof.
  intros H. unfold startCallback. rewrite H.
  now destruct (loadCharacterIcon e (character ent)).
Qed.

Lemma startCallback_missing (e : env) (w : world) (l : loc) :
  objects w !! l = None -> startCallback e w l = Threw missingElement.
Proof. intros H. unfold startCallback. now rewrite H. Qed.

(** A callback waits on the element it was started on. *)
Lemma startCallback_Waits (e : env) (w : world) (ls : list loc) (c : callback) :
  In c (map (startCallback e w) ls) ->
  match c with
  | Threw x => x = missingElement
  | Waits l _ _ => l ∈ ls
  end.
Proof.
  intros Hin. apply in_map_iff in Hin as (l & <- & Hl).
  apply list_elem_of_In in Hl. unfold startCallback.
  destruct (objects w !! l) as [ent|]; [|reflexivity].
  now destruct (loadCharacterIcon e (character ent)).
Qed.

(** No callback throws exactly when every element is an object. *)
Lemma firstRejection_None (e : env) (w : world) (ls : list loc) :
  firstRejection (map (startCallback e w) ls) = None
  <-> forall l, l ∈ ls -> is_Some (objects w !! l).
Proof.
  induction ls as [|l ls IH]; cbn [map firstRejection].
  - split; [|reflexivity]. intros _ l Hl. now apply elem_of_nil in Hl.
  - destruct (objects w !! l) as [ent|] eqn:E.
    + rewrite (startCallback_entry e w l ent E). rewrite IH. split.
      * intros H l' Hl'. apply elem_of_cons in Hl' as [->|Hl']; eauto.
      * intros H l' Hl'. apply H, elem_of_cons. now right.
    + rewrite (startCallback_missing e w l E). split; [discriminate|].
      intros H. destruct (H l) as [ent Hent]; [apply elem_of_cons; now left|].
      congruence.
Qed.

(** A callback changes the entry it was started on, and no other. *)
Lemma fold_finish_frame (cs : list callback) (h : gmap loc entry) (l' : loc) :
  (forall c, In c cs ->
     match c with Threw _ => True | Waits l _ _ => l <> l' end) ->
  fold_left finish cs h !! l' = h !! l'.
Proof.
  revert h. induction cs as [|c cs IH]; intros h Hcs; [reflexivity|].
  cbn [fold_left]. rewrite IH by (intros c' Hc'; apply Hcs; now right).
  specialize (Hcs c (or_introl eq_refl)). destruct c as [x|l img evs].
  - reflexivity.
  - cbn [finish]. now apply lookup_alter_ne.
Qed.

(** When every callback has gone on, an element of the array holds the
    result of its lookup. *)
Lemma fold_finish_lookup (e : env) (w : world) (ls : list loc)
    (h : gmap loc entry) (l' : loc) (ent0 : entry) :
  (forall l, l ∈ ls -> is_Some (objects w !! l)) ->
  l' ∈ ls ->
  objects w !! l' = Some ent0 ->
  fold_left finish (map (startCallback e w) ls) h !! l'
  = setIcon (fst (loadCharacterIcon e (character ent0))) <$> h !! l'.
Proof.
  intros Hall Hl' Hent0. revert h Hall Hl'.
  induction ls as [|l ls IH]; intros h Hall Hl'.
  - now apply elem_of_nil in Hl'.
  - cbn [map fold_left].
    destruct (Hall l) as [ent Hent]; [apply elem_of_cons; now left|].
    rewrite (startCallback_entry e w l ent Hent). cbn [finish].
    assert (Hall' : forall l0, l0 ∈ ls -> is_Some (objects w !! l0)).
    { intros l0 Hl0. apply Hall, elem_of_cons. now right. }
    destruct (decide (l' ∈ ls)) as [Hin|Hin].
    + rewrite (IH _ Hall' Hin).
      destruct (decide (l' = l)) as [->|Hne].
      * rewrite lookup_alter_eq. now destruct (h !! l).
      * now rewrite lookup_alter_ne.
    + apply elem_of_cons in Hl' as [->|Hl']; [|contradiction].
      rewrite fold_finish_frame.
      * rewrite lookup_alter_eq. replace ent with ent0 by congruence.
        reflexivity.
      * intros c Hc. pose proof (startCallback_Waits e w ls c Hc) as Hc'.
        destruct c as [x|l0 img evs]; [exact I|]. now intros ->.
Qed.

(** The preload succeeds exactly when every element is an object. *)
Lemma preloadAll_returns (e : env) (ls : list loc) (w : world) :
  fst (preloadAll e ls w) = Returns tt
  <-> forall l, l ∈ ls -> is_Some (objects w !! l).
Proof.
  rewrite <- (firstRejection_None e w ls). unfold preloadAll. cbv zeta.
  destruct (firstRejection (map (startCallback e w) ls)); cbn [fst];
    split; intros H; (discriminate H || reflexivity).
Qed.

(** The call touches no object that is not in the array. *)
Lemma preloadAll_frame (e : env) (ls : list loc) (w : world) (l' : loc) :
  l' ∉ ls ->
  objects (snd (preloadAll e ls w)) !! l' = objects w !! l'.
Proof.
  intros Hl'. unfold preloadAll. cbv zeta.
  destruct (firstRejection (map (startCallback e w) ls)); cbn [snd objects];
    apply fold_finish_frame; intros c Hc.
  - apply filter_In in Hc as [Hc _].
    pose proof (startCallback_Waits e w ls c Hc) as Hc'.
    destruct c as [x'|l0 img evs]; [exact I|]. now intros ->.
  - pose proof (startCallback_Waits e w ls c Hc) as Hc'.
    destruct c as [x'|l0 img evs]; [exact I|]. now intros ->.
Qed.

(** Every entry of the array holds the result of its icon lookup when the
    preload has succeeded. *)
Lemma preloadAll_objects (e : env) (ls : list loc) (w : world) (l' : loc) :
  fst (preloadAll e ls w) = Returns tt ->
  objects (snd (preloadAll e ls w)) !! l'
  = if decide (l' ∈ ls) then loaded e <$> objects w !! l'
    else objects w !! l'.
Proof.
  intros Hr. destruct (decide (l' ∈ ls)) as [Hin|Hin];
    [|now apply preloadAll_frame].
  pose proof (proj1 (preloadAll_returns e ls w) Hr) as Hall.
  pose proof (proj2 (firstRejection_None e w ls) Hall) as Hnone.
  unfold preloadAll. cbv zeta. rewrite Hnone. cbn [snd objects].
  destruct (Hall l' Hin) as [ent0 Hent0].
  rewrite (fold_finish_lookup e w ls _ l' ent0 Hall Hin Hent0).
  now rewrite Hent0.
Qed.

Lemma preloadAll_graphicArea (e : env) (ls : list loc) (w : world) :
  graphicArea (snd (preloadAll e ls w)) = graphicArea w.
Proof.
  unfold preloadAll. cbv zeta.
  now destruct (firstRejection (map (startCallback e w) ls)).
Qed.


(** The entries the layout reads after a successful preload. *)
Lemma preloaded_entries (e : env) (ls : list loc) (w : world) :
  fst (preloadAll e ls w) = Returns tt ->
  Forall2 (fun l ent => objects (snd (preloadAll e ls w)) !! l = Some ent)
    ls (omap (fun l => objects (snd (preloadAll e ls w)) !! l) ls).
Proof.
  intros Hr.
  assert (Hall : forall l, l ∈ ls ->
            is_Some (objects (snd (preloadAll e ls w)) !! l)).
  { intros l Hl. rewrite preloadAll_objects by exact Hr.
    rewrite decide_True by exact Hl.
    apply fmap_is_Some. now apply (preloadAll_returns e ls w). }
  revert Hall. generalize (objects (snd (preloadAll e ls w))) as h.
  intros h. clear Hr. induction ls as [|l ls IH]; intros Hall.
  - constructor.
  - simpl. destruct (Hall l) as [ent Hent]; [apply elem_of_cons; now left|].
    rewrite Hent. simpl. constructor; [exact Hent|].
    apply IH. intros l' Hl'. apply Hall, elem_of_cons. now right.
Qed.

(** *** The layout *)

Lemma Math_max_l (a b : Q) : (a <= Math_max a b)%Q.
Proof.
  unfold Math_max. destruct (Qle_bool a b) eqn:E.
  - now apply Qle_bool_iff.
  - apply Qle_refl.
Qed.

Lemma Math_max_r (a b : Q) : (b <= Math_max a b)%Q.
Proof.
  unfold Math_max. destruct (Qle_bool a b) eqn:E.
  - apply Qle_refl.
  - apply Qlt_le_weak, Qnot_le_lt. intros H.
    apply Qle_bool_iff in H. congruence.
Qed.

(** The measuring loop, from any starting value: the result is at least
    the starting value and at least every measured width. *)
Lemma widest_from_ge (e : env) (ents : list entry) (acc : Q) :
  let r :=
    fold_left
      (fun m ent =>
         let w := measureText e textFont (rowLabel ent) in
         if Qle_bool w m then m else w) ents acc in
  (acc <= r)%Q /\
  forall ent, In ent ents -> (measureText e textFont (rowLabel ent) <= r)%Q.
Proof.
  revert acc. induction ents as [|a ents IH]; intros acc; cbn [fold_left].
  - split; [apply Qle_refl | intros ent []].
  - cbv zeta in IH |- *.
    set (w := measureText e textFont (rowLabel a)).
    set (acc' := if Qle_bool w acc then acc else w).
    destruct (IH acc') as [Hacc Hall].
    assert (Hstep : (acc <= acc')%Q /\ (w <= acc')%Q).
    { subst acc'. destruct (Qle_bool w acc) eqn:E.
      - split; [apply Qle_refl | now apply Qle_bool_iff].
      - split; [|apply Qle_refl].
        apply Qlt_le_weak, Qnot_le_lt. intros H.
        apply Qle_bool_iff in H. congruence. }
    destruct Hstep as [H1 H2]. split.
    + eapply Qle_trans; eassumption.
    + intros ent [<- | Hin]; [|now apply Hall].
      eapply Qle_trans; eassumption.
Qed.

(** The result of the measuring loop is the starting value or one of the
    measured widths. *)
Lemma widest_from_attained (e : env) (ents : list entry) (acc : Q) :
  let r :=
    fold_left
      (fun m ent =>
         let w := measureText e textFont (rowLabel ent) in
         if Qle_bool w m then m else w) ents acc in
  r = acc \/
  exists ent, In ent ents /\ r = measureText e textFont (rowLabel ent).
Proof.
  revert acc. induction ents as [|a ents IH]; intros acc; cbn [fold_left].
  - now left.
  - cbv zeta in IH |- *.
    set (w := measureText e textFont (rowLabel a)).
    set (acc' := if Qle_bool w acc then acc else w).
    destruct (IH acc') as [Hr | (ent & Hin & Hr)].
    + rewrite Hr. subst acc'. destruct (Qle_bool w acc).
      * now left.
      * right. exists a. split; [now left | reflexivity].
    + right. exists ent. split; [now right | exact Hr].
Qed.

Lemma maxRowTextWidth_ge (e : env) (ents : list entry) (ent : entry) :
  In ent ents ->
  (measureText e textFont (rowLabel ent) <= maxRowTextWidth e ents)%Q.
Proof. intros H. now apply (widest_from_ge e ents 0%Q). Qed.

Lemma maxRowTextWidth_attained (e : env) (ents : list entry) :
  maxRowTextWidth e ents = 0%Q \/
  exists ent, In ent ents /\
    maxRowTextWidth e ents = measureText e textFont (rowLabel ent).
Proof. apply (widest_from_attained e ents 0%Q). Qed.

(** The inner width holds the widest row and the header, as the sums are
    computed. *)
Lemma innerWidth_holds_rows (e : env) (ents : list entry) :
  (neededWidthForRows e ents <= inject_Z (innerWidth e ents))%Q.
Proof.
  unfold innerWidth.
  eapply Qle_trans; [|apply Qle_ceiling].
  eapply Qle_trans; [|apply Math_max_l]. apply Math_max_l.
Qed.

Lemma innerWidth_holds_header (e : env) :
  forall ents,
    (Double.add (Double.add (inject_Z leftPadding) (headerWidth e))
       (inject_Z rightPadding)
     <= inject_Z (innerWidth e ents))%Q.
Proof.
  intros ents. unfold innerWidth.
  eapply Qle_trans; [|apply Qle_ceiling].
  eapply Qle_trans; [|apply Math_max_l]. apply Math_max_r.
Qed.

(** *** Rounding errors of the layout

    With widths below 2^20, every sum of the layout is below 2^21 and is
    rounded by at most 2^-32. *)

Lemma add_near (a b : Q) :
  (0 <= a + b)%Q -> (a + b <= inject_Z (2 ^ 21))%Q ->
  (a + b - (1 # 4294967296) <= Double.add a b)%Q /\
  (Double.add a b <= a + b + (1 # 4294967296))%Q.
Proof.
  intros H0 H1. apply (toDouble_error 21); [lia | exact H0 | exact H1].
Qed.

Lemma sub_near (a b : Q) :
  (0 <= a - b)%Q -> (a - b <= inject_Z (2 ^ 21))%Q ->
  (a - b - (1 # 4294967296) <= Double.sub a b)%Q /\
  (Double.sub a b <= a - b + (1 # 4294967296))%Q.
Proof.
  intros H0 H1. apply (toDouble_error 21); [lia | exact H0 | exact H1].
Qed.

Lemma half_near (a : Q) :
  (0 <= a)%Q -> (a <= inject_Z (2 ^ 21))%Q ->
  (a / 2 - (1 # 4294967296) <= Double.div a 2)%Q /\
  (Double.div a 2 <= a / 2 + (1 # 4294967296))%Q.
Proof.
  intros H0 H1. apply (toDouble_error 21); [lia | |].
  - unfold Qdiv. change (/ 2)%Q with (1 # 2)%Q. lra.
  - change (inject_Z (2 ^ 21)) with 2097152%Q in *.
    unfold Qdiv. change (/ 2)%Q with (1 # 2)%Q. lra.
Qed.

(** The sum of two integers is exact. *)
Lemma add_int (a b : Z) :
  0 <= a + b < 2 ^ 53 ->
  (Double.add (inject_Z a) (inject_Z b) == inject_Z (a + b))%Q.
Proof.
  intros H. unfold Double.add. apply Qle_antisym.
  - apply toDouble_le_int; [exact H|]. rewrite inject_Z_plus. apply Qle_refl.
  - apply toDouble_ge_int; [lia|]. rewrite inject_Z_plus. apply Qle_refl.
Qed.

Lemma maxRowTextWidth_range (e : env) (ents : list entry) :
  rowsInRange e ents -> inRange (maxRowTextWidth e ents).
Proof.
  intros He. split.
  - apply (widest_from_ge e ents 0%Q).
  - destruct (maxRowTextWidth_attained e ents) as [-> | (ent & Hin & ->)].
    + discriminate.
    + now apply He.
Qed.

(** The width needed for the rows is the exact sum for the widest label,
    up to four roundings. *)
Lemma neededWidthForRows_near (e : env) (ents : list entry) :
  rowsInRange e ents ->
  (inject_Z leftPadding + maxRowTextWidth e ents + inject_Z iconLeftPadding
   + inject_Z iconSize + inject_Z rightPadding - (1 # 1073741824)
   <= neededWidthForRows e ents)%Q /\
  (neededWidthForRows e ents
   <= inject_Z leftPadding + maxRowTextWidth e ents + inject_Z iconLeftPadding
      + inject_Z iconSize + inject_Z rightPadding + (1 # 1073741824))%Q.
Proof.
  intros He. destruct (maxRowTextWidth_range e ents He) as [H0 H1].
  unfold neededWidthForRows.
  set (m := maxRowTextWidth e ents) in *.
  change (inject_Z (2 ^ 20)) with 1048576%Q in H1.
  change (inject_Z leftPadding) with 4%Q.
  change (inject_Z rightPadding) with 4%Q.
  change (inject_Z iconLeftPadding) with 24%Q.
  change (inject_Z iconSize) with 60%Q.
  destruct (add_near 4 m) as [A1 A2];
    [lra | change (inject_Z (2 ^ 21)) with 2097152%Q; lra |].
  set (s1 := Double.add 4 m) in *.
  destruct (add_near s1 24) as [B1 B2];
    [lra | change (inject_Z (2 ^ 21)) with 2097152%Q; lra |].
  set (s2 := Double.add s1 24) in *.
  destruct (add_near s2 60) as [C1 C2];
    [lra | change (inject_Z (2 ^ 21)) with 2097152%Q; lra |].
  set (s3 := Double.add s2 60) in *.
  destruct (add_near s3 4) as [D1 D2];
    [lra | change (inject_Z (2 ^ 21)) with 2097152%Q; lra |].
  split; lra.
Qed.

(** The inner width holds every row, up to the rounding of the sums. *)
Lemma innerWidth_holds_row (e : env) (ents : list entry) (ent : entry) :
  rowsInRange e ents ->
  In ent ents ->
  (inject_Z leftPadding + measureText e textFont (rowLabel ent)
   + inject_Z iconLeftPadding + inject_Z iconSize + inject_Z rightPadding
   - (1 # 1073741824)
   <= inject_Z (innerWidth e ents))%Q.
Proof.
  intros He Hin.
  pose proof (innerWidth_holds_rows e ents) as H1.
  destruct (neededWidthForRows_near e ents He) as [H2 _].
  pose proof (maxRowTextWidth_ge e ents ent Hin) as H3. lra.
Qed.

(** *** Runs of [generateGraphic] on a non-empty array *)

Lemma drawRow_returns (e : env) (b innerW : Z) (i : nat) (ent : entry)
    (font : string) :
  (exists r, drawRow e b innerW i ent font = Returns r) <-> drawable ent.
Proof.
  unfold drawRow, drawable. cbv zeta. destruct (icon ent) as [img|].
  - split; [intros _; now left | intros _; eauto].
  - destruct (charInitials (characterOrName ent)) as [s|x].
    + split; [intros _; right; eauto | intros _; eauto].
    + split.
      * intros [r Hr]. discriminate.
      * intros [H | [s Hs]]; [congruence | discriminate].
Qed.

Lemma drawRows_returns (e : env) (b innerW : Z) (i : nat)
    (ents : list entry) (font : string) :
  (exists rowOps, fst (drawRows e b innerW i ents font) = Returns rowOps)
  <-> Forall drawable ents.
Proof.
  revert i font. induction ents as [|ent ents IH]; intros i font.
  - cbn [drawRows fst]. split; [constructor | eauto].
  - cbn [drawRows]. pose proof (drawRow_returns e b innerW i ent font) as H1.
    destruct (drawRow e b innerW i ent font) as [[font' ops1]|x].
    + specialize (IH (S i) font').
      destruct (drawRows e b innerW (S i) ents font') as [r evs].
      cbn [fst] in *. split.
      * intros [rowOps Hr]. constructor; [apply H1; eauto|].
        apply IH. destruct r; [eauto | discriminate].
      * intros Hall. apply Forall_cons in Hall as [_ Hall].
        apply IH in Hall as [ops2 ->]. eauto.
    + cbn [fst]. split.
      * intros [rowOps Hr]. discriminate.
      * intros Hall. apply Forall_cons in Hall as [Hd _].
        apply H1 in Hd as [r Hr]. discriminate.
Qed.

(** A run that returns: the preload and the drawing succeeded, and the
    page holds a canvas of the computed size. *)
Lemma generateGraphic_returns_inv (e : env) (locs : list loc)
    (w w' : world) :
  locs <> [] ->
  generateGraphic e (ArrayOf locs) w = (Returns tt, w') ->
  let ents := entriesAfterPreload e locs w in
  fst (preloadAll e locs (cleared w)) = Returns tt /\
  Forall drawable ents /\
  objects w' = objects (snd (preloadAll e locs (cleared w))) /\
  exists c,
    graphicArea w' = [CanvasNode c; DownloadLink "top8.png" c] /\
    styleWidth c = neededWidth e ents /\
    styleHeight c = canvasHeight e ents.
Proof.
  intros Hne. unfold generateGraphic, entriesAfterPreload.
  destruct locs as [|l ls]; [congruence|]. clear Hne.
  fold (cleared w).
  destruct (preloadAll e (l :: ls) (cleared w)) as [[[]|x] w1]; cbn [fst snd];
    [|discriminate].
  cbv zeta.
  set (ents := omap (fun l0 => objects w1 !! l0) (l :: ls)).
  pose proof (drawRows_returns e (borderSize (borderChecked e))
                (innerWidth e ents) 0 ents textFont) as Hd.
  destruct (drawRows e (borderSize (borderChecked e)) (innerWidth e ents) 0
              ents textFont) as [[rowOps|x] evs]; [|discriminate].
  intros [= <-]. cbn [objects graphicArea].
  split; [reflexivity|]. split; [apply Hd; cbn [fst]; eauto|].
  split; [reflexivity|]. eexists. split; [reflexivity|].
  split; reflexivity.
Qed.

(** Conversely, with objects in the array and rows that can be drawn the
    call returns. *)
Lemma generateGraphic_returns (e : env) (locs : list loc) (w : world) :
  locs <> [] ->
  fst (preloadAll e locs (cleared w)) = Returns tt ->
  Forall drawable (entriesAfterPreload e locs w) ->
  exists w', generateGraphic e (ArrayOf locs) w = (Returns tt, w').
Proof.
  intros Hne Hp Hd. unfold generateGraphic, entriesAfterPreload in *.
  destruct locs as [|l ls]; [congruence|]. clear Hne.
  fold (cleared w).
  destruct (preloadAll e (l :: ls) (cleared w)) as [r w1]; cbn [fst snd] in *.
  subst r. cbv zeta.
  set (ents := omap (fun l0 => objects w1 !! l0) (l :: ls)) in *.
  apply (drawRows_returns e (borderSize (borderChecked e))
           (innerWidth e ents) 0 ents textFont) in Hd as [rowOps Hd].
  destruct (drawRows e (borderSize (borderChecked e)) (innerWidth e ents) 0
              ents textFont) as [r evs]; cbn [fst] in Hd. subst r.
  eauto.
Qed.

Lemma generateGraphic_objects (e : env) (locs : list loc) (w : world) :
  locs <> [] ->
  objects (snd (generateGraphic e (ArrayOf locs) w))
  = objects (snd (preloadAll e locs (cleared w))).
Proof.
  intros Hne. unfold generateGraphic.
  destruct locs as [|l ls]; [congruence|]. clear Hne.
  fold (cleared w).
  destruct (preloadAll e (l :: ls) (cleared w)) as [[[]|x] w1]; cbn [fst snd];
    [|reflexivity].
  cbv zeta.
  destruct (drawRows _ _ _ _ _ _) as [[rowOps|x] evs]; reflexivity.
Qed.

(** A row without icon whose name has no word cannot be drawn: the call
    throws and the graphic area stays empty. *)
Example render_throws_without_initials :
  let w :=
    {| objects := {[ 1%positive := {| place := "1"; name := "&";
                                      character := ""; icon := None |} ]};
       graphicArea := [];
       events := [] |} in
  fst (generateGraphic dummyEnv (ArrayOf [1%positive]) w)
  = Throws (Exn "TypeError"
              "Cannot read properties of undefined (reading '0')") /\
  graphicArea (snd (generateGraphic dummyEnv (ArrayOf [1%positive]) w)) = [].
Proof. cbv zeta. split; vm_compute; reflexivity. Qed.

(** On a renderable array the call returns. *)
Lemma renderable_returns (e : env) (locs : list loc) (w : world) :
  locs <> [] ->
  renderable e w locs ->
  exists w', generateGraphic e (ArrayOf locs) w = (Returns tt, w').
Proof.
  intros Hne Hr.
  assert (Hp : fst (preloadAll e locs (cleared w)) = Returns tt).
  { apply preloadAll_returns. intros l Hl.
    destruct (Hr l Hl) as (ent & Hent & _). cbn [cleared objects]. eauto. }
  apply generateGraphic_returns; [exact Hne | exact Hp |].
  pose proof (preloaded_entries e locs (cleared w) Hp) as Hents.
  fold (entriesAfterPreload e locs w) in Hents.
  apply Forall_forall. intros ent' Hin.
  apply list_elem_of_lookup_1 in Hin as [i Hi].
  destruct (Forall2_lookup_r _ _ _ _ _ Hents Hi) as (l & Hl & Hent').
  apply list_elem_of_lookup_2 in Hl.
  destruct (Hr l Hl) as (ent & Hent & Hd).
  rewrite (preloadAll_objects _ _ _ _ Hp), decide_True in Hent' by exact Hl.
  cbn [cleared objects] in Hent'. rewrite Hent in Hent'.
  injection Hent' as <-. exact Hd.
Qed.




(** *** Sizes, the empty case and the icons *)

(** C4, as the specification words it, fails, in two ways.  With the
    dummy entries the widest label measures 269.5px, the maximum of the
    three candidate widths is 361.5px, and the canvas is 362px wide: the
    maximum is rounded up.  With labels of 250 + 2^-45 px the canvas is
    342px wide, less than the label, the icon column and the paddings
    together: the sum is computed in doubles and loses the 2^-45. *)
Lemma canvas_width_is_not_the_maximum :
  (let w' := snd (generateGraphic dummyEnv (ArrayOf (map fst dummy))
                    dummyWorld) in
   let ents := entriesAfterPreload dummyEnv (map fst dummy) dummyWorld in
   exists c,
     graphicArea w' = [CanvasNode c; DownloadLink "top8.png" c] /\
     styleWidth c = 362 /\
     (Math_max
        (Math_max
           (inject_Z leftPadding + maxRowTextWidth dummyEnv ents
            + inject_Z iconLeftPadding + inject_Z iconSize
            + inject_Z rightPadding)
           (inject_Z leftPadding + headerWidth dummyEnv
            + inject_Z rightPadding))
        (inject_Z minWidth) == 723 # 2)%Q /\
     ~ (inject_Z (styleWidth c) == 723 # 2)%Q) /\
  (let w' := snd (generateGraphic roundingEnv (ArrayOf (map fst dummy))
                    dummyWorld) in
   exists c,
     graphicArea w' = [CanvasNode c; DownloadLink "top8.png" c] /\
     styleWidth c = 342 /\
     (inject_Z (styleWidth c)
      < inject_Z leftPadding + measureText roundingEnv textFont "1. Lucky"
        + inject_Z iconLeftPadding + inject_Z iconSize
        + inject_Z rightPadding)%Q).
Proof.
  cbv zeta. split.
  - let g := eval vm_compute in
      (graphicArea (snd (generateGraphic dummyEnv (ArrayOf (map fst dummy))
                           dummyWorld))) in
    match g with
    | [CanvasNode ?c; _] => exists c
    end.
    split; [vm_compute; reflexivity|].
    split; [reflexivity|].
    split; [vm_compute; reflexivity|].
    intros H. vm_compute in H. discriminate.
  - let g := eval vm_compute in
      (graphicArea (snd (generateGraphic roundingEnv
                           (ArrayOf (map fst dummy)) dummyWorld))) in
    match g with
    | [CanvasNode ?c; _] => exists c
    end.
    split; [vm_compute; reflexivity|].
    split; [reflexivity|]. vm_compute. reflexivity.
Qed.

(** C4 (amended): on a non-empty renderable array, with the border box
    unchecked, the call returns and leaves one canvas whose logical height
    is header height + header gap + row height x entry count, and whose
    logical width is the maximum of (widest label + icon column +
    paddings), (header width + paddings) and the floor of 200, the sums
    being computed in doubles from left to right, rounded up to an integer.
    The widest label width is the largest measured one (0 if none is
    positive).  The width is at least the sum computed for the widest
    label, and so, for widths in the range of a browser, at least the exact
    sum for every row less 2^-30. *)
Theorem canvas_size_without_border (e : env) (locs : list loc) (w : world) :
  locs <> [] ->
  renderable e w locs ->
  borderChecked e = false ->
  exists w' c ents,
    generateGraphic e (ArrayOf locs) w = (Returns tt, w') /\
    graphicArea w' = [CanvasNode c; DownloadLink "top8.png" c] /\
    Forall2 (fun l ent => objects w' !! l = Some ent) locs ents /\
    styleHeight c
    = headerHeight + headerBottomPadding + rowH * Z.of_nat (length locs) /\
    styleWidth c
    = Qceiling
        (Math_max
           (Math_max
              (inject_Z leftPadding +. maxRowTextWidth e ents
               +. inject_Z iconLeftPadding +. inject_Z iconSize
               +. inject_Z rightPadding)
              (inject_Z leftPadding +. headerWidth e +. inject_Z rightPadding))
           (inject_Z minWidth)) /\
    (forall ent, In ent ents ->
       (measureText e textFont (rowLabel ent) <= maxRowTextWidth e ents)%Q) /\
    (maxRowTextWidth e ents = 0%Q \/
     exists ent, In ent ents /\
       maxRowTextWidth e ents = measureText e textFont (rowLabel ent)) /\
    (inject_Z leftPadding +. maxRowTextWidth e ents
     +. inject_Z iconLeftPadding +. inject_Z iconSize
     +. inject_Z rightPadding <= inject_Z (styleWidth c))%Q /\
    (rowsInRange e ents ->
     forall ent, In ent ents ->
       (inject_Z leftPadding + measureText e textFont (rowLabel ent)
        + inject_Z iconLeftPadding + inject_Z iconSize + inject_Z rightPadding
        - (1 # 1073741824)
        <= inject_Z (styleWidth c))%Q).
Proof.
  intros Hne Hr Hb.
  destruct (renderable_returns e locs w Hne Hr) as [w' Hrun].
  destruct (generateGraphic_returns_inv e locs w w' Hne Hrun)
    as (Hp & _ & Hobj & c & Hg & Hw & Hh).
  pose proof (preloaded_entries e locs (cleared w) Hp) as Hents.
  fold (entriesAfterPreload e locs w) in Hents.
  set (ents := entriesAfterPreload e locs w) in *.
  assert (Hwidth : styleWidth c = innerWidth e ents).
  { rewrite Hw. unfold neededWidth. rewrite Hb. cbn [borderSize]. lia. }
  exists w', c, ents. split; [exact Hrun|]. split; [exact Hg|].
  split; [now rewrite Hobj|].
  split.
  { rewrite Hh. unfold canvasHeight, innerHeight. rewrite Hb.
    cbn [borderSize]. rewrite <- (Forall2_length _ _ _ Hents). lia. }
  split; [rewrite Hwidth; unfold innerWidth, neededWidthForRows; reflexivity|].
  split; [intros ent; apply maxRowTextWidth_ge|].
  split; [apply maxRowTextWidth_attained|].
  split.
  { rewrite Hwidth. fold (neededWidthForRows e ents).
    apply innerWidth_holds_rows. }
  intros He ent Hin. rewrite Hwidth. now apply innerWidth_holds_row.
Qed.

Lemma dummy_renderable : renderable dummyEnv dummyWorld (map fst dummy).
Proof.
  intros l Hl. cbn [map fst dummy] in Hl.
  repeat (apply elem_of_cons in Hl as [-> | Hl];
          [eexists; split; [reflexivity|]; first
             [left; discriminate | right; eexists; reflexivity]|]).
  now apply elem_of_nil in Hl.
Defined.

Lemma rounding_renderable :
  renderable roundingEnv dummyWorld (map fst dummy).
Proof. exact dummy_renderable. Defined.

Lemma rounding_widthsInRange :
  widthsInRange roundingEnv dummyWorld (map fst dummy).
Proof.
  split; [split; discriminate|]. intros l ent _ _. split; discriminate.
Defined.

Lemma canvas_size_without_border_witness :
  exists w' c ents,
    generateGraphic roundingEnv (ArrayOf (map fst dummy)) dummyWorld
    = (Returns tt, w') /\
    graphicArea w' = [CanvasNode c; DownloadLink "top8.png" c] /\
    Forall2 (fun l ent => objects w' !! l = Some ent) (map fst dummy) ents /\
    styleHeight c
    = headerHeight + headerBottomPadding
      + rowH * Z.of_nat (length (map fst dummy)) /\
    styleWidth c
    = Qceiling
        (Math_max
           (Math_max
              (inject_Z leftPadding +. maxRowTextWidth roundingEnv ents
               +. inject_Z iconLeftPadding +. inject_Z iconSize
               +. inject_Z rightPadding)
              (inject_Z leftPadding +. headerWidth roundingEnv
               +. inject_Z rightPadding))
           (inject_Z minWidth)) /\
    (forall ent, In ent ents ->
       (measureText roundingEnv textFont (rowLabel ent)
        <= maxRowTextWidth roundingEnv ents)%Q) /\
    (maxRowTextWidth roundingEnv ents = 0%Q \/
     exists ent, In ent ents /\
       maxRowTextWidth roundingEnv ents
       = measureText roundingEnv textFont (rowLabel ent)) /\
    (inject_Z leftPadding +. maxRowTextWidth roundingEnv ents
     +. inject_Z iconLeftPadding +. inject_Z iconSize
     +. inject_Z rightPadding <= inject_Z (styleWidth c))%Q /\
    (rowsInRange roundingEnv ents ->
     forall ent, In ent ents ->
       (inject_Z leftPadding + measureText roundingEnv textFont (rowLabel ent)
        + inject_Z iconLeftPadding + inject_Z iconSize + inject_Z rightPadding
        - (1 # 1073741824)
        <= inject_Z (styleWidth c))%Q).
Proof.
  apply (canvas_size_without_border roundingEnv (map fst dummy) dummyWorld).
  - discriminate.
  - exact rounding_renderable.
  - reflexivity.
Defined.




(** C6: on an empty array, or a value that is not an array, the call
    returns at once: the graphic area holds the message and nothing else,
    no image is requested, no text is measured, no canvas is created and no
    entry is touched. *)
Theorem no_entries_no_canvas (e : env) (entries : js_arg) (w : world) :
  entries = NotAnArray \/ entries = ArrayOf [] ->
  generateGraphic e entries w
  = (Returns tt,
     {| objects := objects w;
        graphicArea := [TextNode "No entries to generate from."];
        events := events w |}).
Proof. intros [-> | ->]; reflexivity. Qed.

Lemma no_entries_no_canvas_witness :
  generateGraphic dummyEnv (ArrayOf []) dummyWorld
  = (Returns tt,
     {| objects := objects dummyWorld;
        graphicArea := [TextNode "No entries to generate from."];
        events := events dummyWorld |}).
Proof.
  apply (no_entries_no_canvas dummyEnv (ArrayOf []) dummyWorld).
  right. reflexivity.
Defined.

(** C9, as the specification words it, fails: after the call on the dummy
    entries has returned, the first entry of the caller still holds the
    image that was loaded for it. *)
Lemma icon_is_retained_after_render :
  let r := generateGraphic dummyEnv (ArrayOf (map fst dummy)) dummyWorld in
  fst r = Returns tt /\
  icon <$> objects dummyWorld !! 1%positive = Some None /\
  icon <$> objects (snd r) !! 1%positive
  = Some (Some (Image "../assets/stockicons/FoxHeadSSBM.png")) /\
  icon <$> objects (snd r) !! 1%positive <> Some None.
Proof.
  cbv zeta. split; [vm_compute; reflexivity|].
  split; [vm_compute; reflexivity|].
  assert (H : icon <$> objects (snd (generateGraphic dummyEnv
                (ArrayOf (map fst dummy)) dummyWorld)) !! 1%positive
              = Some (Some (Image "../assets/stockicons/FoxHeadSSBM.png")))
    by (vm_compute; reflexivity).
  split; [exact H|]. rewrite H. discriminate.
Qed.

(** When an element of the array is [undefined], the call ends before any
    image has loaded: the Fox of the stale page keeps its old icon although
    its image was requested, and the entry without character already holds
    [null]. *)
Example preload_rejects_before_images_load :
  let r := generateGraphic dummyEnv
             (ArrayOf [9%positive; 1%positive; 2%positive]) staleWorld in
  fst r = Throws missingElement /\
  icon <$> objects (snd r) !! 1%positive = Some (Some (Image "old.png")) /\
  icon <$> objects (snd r) !! 2%positive = Some None /\
  events (snd r) = [ImageRequested "../assets/stockicons/FoxHeadSSBM.png"] /\
  graphicArea (snd r) = [].
Proof. cbv zeta. repeat split; vm_compute; reflexivity. Qed.

(** C9 (amended): however the call on a non-empty array of entries ends,
    every entry of the array then holds, in its [icon] field, the outcome
    of the lookup of its character: the loaded image, or [null]; the call
    never clears the field. *)
Theorem icons_stay_on_entries (e : env) (locs : list loc) (w : world)
    (l : loc) (ent : entry) :
  locs <> [] ->
  (forall l', l' ∈ locs -> is_Some (objects w !! l')) ->
  l ∈ locs ->
  objects w !! l = Some ent ->
  objects (snd (generateGraphic e (ArrayOf locs) w)) !! l
  = Some (setIcon (fst (loadCharacterIcon e (character ent))) ent).
Proof.
  intros Hne Hall Hl Hent.
  rewrite generateGraphic_objects by exact Hne.
  assert (Hp : fst (preloadAll e locs (cleared w)) = Returns tt)
    by now apply preloadAll_returns.
  rewrite (preloadAll_objects _ _ _ _ Hp), decide_True by exact Hl.
  cbn [cleared objects]. now rewrite Hent.
Qed.

Lemma dummy_entries (l' : loc) :
  l' ∈ map fst dummy -> is_Some (objects dummyWorld !! l').
Proof.
  intros Hl. destruct (dummy_renderable l' Hl) as (ent & Hent & _). eauto.
Defined.

Lemma icons_stay_on_entries_witness :
  objects (snd (generateGraphic dummyEnv (ArrayOf (map fst dummy))
                  dummyWorld)) !! 2%positive
  = Some (setIcon
            (fst (loadCharacterIcon dummyEnv "Falco"))
            {| place := "2"; name := "Mango"; character := "Falco";
               icon := None |}).
Proof.
  apply (icons_stay_on_entries dummyEnv (map fst dummy) dummyWorld 2%positive
           {| place := "2"; name := "Mango"; character := "Falco";
              icon := None |}).
  - discriminate.
  - exact dummy_entries.
  - cbn [map fst dummy]. apply elem_of_cons. right.
    apply elem_of_cons. now left.
  - vm_compute. reflexivity.
Defined.

End RendererProperties.

Section SlugOccurrences.
Import Util.
Local Open Scope string_scope.

(** *** More on occurrences *)

Lemma append_assoc (a b c : string) : (a ++ b) ++ c = a ++ b ++ c.
Proof.
  induction a as [|x a IH]; [reflexivity|].
  now rewrite !append_cons, IH.
Qed.

Lemma length_append (a b : string) :
  String.length (a ++ b) = (String.length a + String.length b)%nat.
Proof.
  induction a as [|x a IH]; [reflexivity|].
  rewrite append_cons. cbn [String.length]. now rewrite IH.
Qed.

Lemma includes_append_r (sep s t : string) :
  includes sep t = true -> includes sep (s ++ t) = true.
Proof.
  intros H. induction s as [|c s IH]; [exact H|].
  rewrite append_cons, includes_cons, IH. apply orb_true_r.
Qed.

Lemma startsWith_self_append (sep t : string) :
  startsWith sep (sep ++ t) = true.
Proof.
  induction sep as [|c sep IH]; [now destruct t|].
  rewrite append_cons. cbn [startsWith].
  now rewrite Ascii.eqb_refl, IH.
Qed.


Lemma absent_cons (c a : ascii) (m : string) :
  absent c (String a m) -> Ascii.eqb a c = false /\ absent c m.
Proof.
  unfold absent. rewrite includes_cons. cbn [startsWith].
  intros H. apply orb_false_iff in H as [H1 H2].
  rewrite andb_true_r in H1. split; [|exact H2].
  now rewrite Ascii.eqb_sym.
Qed.

(** A pattern that ends with a character it has nowhere else matches at
    the front of a text cut right after that character as it does on the
    whole text. *)
Lemma startsWith_last (c : ascii) (m x u : string) :
  absent c m ->
  startsWith (m ++ String c "") (x ++ String c u)
  = startsWith (m ++ String c "") (x ++ String c "").
Proof.
  revert x. induction m as [|a m IH]; intros x Hc.
  - rewrite !append_empty_l. destruct x as [|d x].
    + rewrite !append_empty_l. cbn [startsWith]. now rewrite Ascii.eqb_refl.
    + rewrite !append_cons. cbn [startsWith]. now rewrite !andb_true_r.
  - apply absent_cons in Hc as [Hac Hc]. rewrite !append_cons.
    destruct x as [|d x].
    + rewrite !append_empty_l. cbn [startsWith]. now rewrite Hac.
    + rewrite !append_cons. cbn [startsWith]. now rewrite IH.
Qed.

(** A pattern without the character [c] matches at the front of
    [x ++ c ...] as it does at the front of [x]. *)
Lemma startsWith_without (c : ascii) (m x u : string) :
  absent c m ->
  startsWith m (x ++ String c u) = startsWith m x.
Proof.
  revert x. induction m as [|a m IH]; intros x Hc.
  - now destruct x.
  - apply absent_cons in Hc as [Hac Hc]. destruct x as [|d x].
    + rewrite append_empty_l. cbn [startsWith]. now rewrite Hac.
    + rewrite append_cons. cbn [startsWith]. now rewrite IH.
Qed.

Lemma startsWith_first (c : ascii) (m : string) (d : ascii) (x u : string) :
  absent c m ->
  startsWith (String c m) (String d x ++ String c u)
  = startsWith (String c m) (String d x).
Proof.
  intros Hc. rewrite append_cons. cbn [startsWith].
  now rewrite startsWith_without.
Qed.

(** With a pattern [m ++ c] that has [c] only at its end: a text [x]
    followed by [c] in which the pattern does not occur can be passed. *)
Lemma before_pass_last (c : ascii) (m x u : string) :
  absent c m ->
  includes (m ++ String c "") (x ++ String c "") = false ->
  before (m ++ String c "") (x ++ String c u)
  = x ++ before (m ++ String c "") (String c u).
Proof.
  intros Hc. induction x as [|d x IH]; intros H; [reflexivity|].
  rewrite append_cons, includes_cons in H.
  apply orb_false_iff in H as [H1 H2].
  pose proof (startsWith_last c m (String d x) u Hc) as E.
  rewrite !append_cons in E.
  rewrite (append_cons d x (String c u)), before_cons, E, H1.
  rewrite IH by exact H2. reflexivity.
Qed.

(** With a pattern [c m] that has [c] only at its front: a text [x] in
    which the pattern does not occur can be passed when [c] follows. *)
Lemma before_pass_first (c : ascii) (m x u : string) :
  absent c m ->
  includes (String c m) x = false ->
  before (String c m) (x ++ String c u)
  = x ++ before (String c m) (String c u).
Proof.
  intros Hc. induction x as [|d x IH]; intros H; [reflexivity|].
  rewrite includes_cons in H. apply orb_false_iff in H as [H1 H2].
  pose proof (startsWith_first c m d x u Hc) as E.
  rewrite append_cons in E.
  rewrite (append_cons d x (String c u)), before_cons, E, H1.
  rewrite IH by exact H2. reflexivity.
Qed.

(** A pattern [m ++ c] cannot match at the front of [t ++ c] when [t] is
    longer than [m] and has no [c]. *)
Lemma startsWith_too_long (c : ascii) (m t : string) :
  absent c t ->
  (String.length m < String.length t)%nat ->
  startsWith (m ++ String c "") (t ++ String c "") = false.
Proof.
  revert t. induction m as [|a m IH]; intros t Ht Hlen.
  - destruct t as [|d t]; [cbn in Hlen; lia|].
    apply absent_cons in Ht as [Hd _].
    rewrite append_empty_l, append_cons. cbn [startsWith].
    now rewrite Ascii.eqb_sym, Hd.
  - destruct t as [|d t]; [cbn in Hlen; lia|].
    apply absent_cons in Ht as [_ Ht]. rewrite !append_cons.
    cbn [startsWith]. rewrite IH; [apply andb_false_r | exact Ht|].
    cbn [String.length] in Hlen. lia.
Qed.

Lemma startsWith_straddle (c : ascii) (m t : string) (d : ascii)
    (y : string) :
  absent c m -> absent c t ->
  (String.length m <= String.length t)%nat ->
  startsWith (m ++ String c "") (String d y ++ t ++ String c "")
  = startsWith (m ++ String c "") (String d y).
Proof.
  revert d y. induction m as [|a m IH]; intros d y Hm Ht Hlen.
  - rewrite append_empty_l, append_cons. reflexivity.
  - apply absent_cons in Hm as [_ Hm]. rewrite !append_cons.
    cbn [startsWith]. f_equal. cbn [String.length] in Hlen.
    destruct y as [|d' y].
    + rewrite append_empty_l.
      rewrite startsWith_too_long by (try assumption; lia).
      now destruct m.
    + apply IH; [assumption | assumption | lia].
Qed.

(** With a pattern [m ++ c] that has [c] only at its end: in
    [p ++ m ++ c ++ w] the first occurrence is the one written out, when
    the pattern does not occur in [p]. *)
Lemma first_occurrence (c : ascii) (m p w : string) :
  absent c m ->
  includes (m ++ String c "") p = false ->
  includes (m ++ String c "") (p ++ (m ++ String c "") ++ w) = true /\
  before (m ++ String c "") (p ++ (m ++ String c "") ++ w) = p /\
  after (m ++ String c "") (p ++ (m ++ String c "") ++ w) = w.
Proof.
  intros Hc. set (sep := m ++ String c "").
  assert (Hlen : String.length sep = S (String.length m)).
  { unfold sep. rewrite length_append. cbn. lia. }
  assert (Hslice : forall w, sliceFrom (String.length sep) (sep ++ w) = w).
  { clear. induction sep as [|a s IH]; intros w; [reflexivity|].
    rewrite append_cons. cbn [String.length sliceFrom]. apply IH. }
  induction p as [|d p IH]; intros H.
  - rewrite !append_empty_l.
    pose proof (startsWith_self_append sep w) as Hs.
    repeat split.
    + destruct (sep ++ w) eqn:E; cbn [includes]; now rewrite Hs.
    + destruct (sep ++ w) eqn:E; cbn [before]; now rewrite Hs.
    + destruct (sep ++ w) as [|a s] eqn:E.
      * destruct sep; [cbn in Hlen; lia | discriminate].
      * rewrite after_cons, Hs, <- E. apply Hslice.
  - rewrite includes_cons in H. apply orb_false_iff in H as [H1 H2].
    destruct (IH H2) as (I1 & I2 & I3).
    assert (Hs : startsWith sep (String d p ++ sep ++ w) = false).
    { unfold sep at 2. rewrite (append_assoc m (String c "") w).
      rewrite <- (append_assoc (String d p) m (String c "" ++ w)).
      change (String c "" ++ w) with (String c w).
      unfold sep. rewrite startsWith_last by exact Hc.
      rewrite (append_assoc (String d p) m (String c "")).
      rewrite startsWith_straddle by (try exact Hc; lia). exact H1. }
    rewrite append_cons in Hs |- *.
    rewrite includes_cons, before_cons, after_cons, Hs, I1, I2, I3.
    rewrite orb_true_r. repeat split.
Qed.

(** *** [extractSlug] on the parts of a URL *)

(** X1: The slug is a contiguous part of the input. *)
Theorem extractSlug_is_substring (input : string) :
  exists pre slug post,
    extractSlug input = Some slug /\ input = pre ++ slug ++ post.
Proof.
  destruct (includes "start.gg/" input) eqn:E.
  - set (a := after "start.gg/" input).
    destruct (before_is_prefix "start.gg/" a) as [t1 H1].
    destruct (before_is_prefix "/overview" (before "start.gg/" a))
      as [t2 H2].
    exists (before "start.gg/" input ++ "start.gg/"),
      (before "/overview" (before "start.gg/" a)), (t2 ++ t1).
    split; [now apply extractSlug_marker|].
    rewrite <- (append_assoc _ t2 t1), <- H2, <- H1.
    rewrite append_assoc. now apply before_after_decompose.
  - exists "", input, "". split; [now apply extractSlug_no_marker|].
    now rewrite append_empty_l, append_empty_r.
Qed.

(** X2: On an input with the marker, the slug has neither the marker nor
    [/overview] in it. *)
Theorem extractSlug_strips_url (input : string) :
  includes "start.gg/" input = true ->
  exists slug,
    extractSlug input = Some slug /\
    includes "start.gg/" slug = false /\
    includes "/overview" slug = false.
Proof.
  intros H. eexists. split; [now apply extractSlug_marker|]. split.
  - apply includes_before_other, includes_before.
  - apply includes_before.
Qed.

Lemma extractSlug_strips_url_witness :
  exists slug,
    extractSlug "https://www.start.gg/tournament/a/event/b/overview/x"
    = Some slug /\
    includes "start.gg/" slug = false /\
    includes "/overview" slug = false.
Proof.
  apply (extractSlug_strips_url
           "https://www.start.gg/tournament/a/event/b/overview/x").
  reflexivity.
Defined.

(** X3: A URL written as a prefix without the marker, the marker, a slug and
    possibly [/overview] with more text gives the slug back, when the slug
    has no [/overview] in it and the slug followed by [/] has no marker. *)
Theorem extractSlug_of_event_url (p slug : string) :
  includes "start.gg/" p = false ->
  includes "start.gg/" (slug ++ "/") = false ->
  includes "/overview" slug = false ->
  extractSlug (p ++ "start.gg/" ++ slug) = Some slug /\
  forall rest,
    extractSlug (p ++ "start.gg/" ++ slug ++ "/overview" ++ rest)
    = Some slug.
Proof.
  intros Hp Hs Ho.
  assert (Habs : absent "/" "start.gg") by reflexivity.
  assert (Habs' : absent "/" "overview") by reflexivity.
  assert (Hs' : includes "start.gg/" slug = false).
  { destruct (includes "start.gg/" slug) eqn:E; [|reflexivity].
    now rewrite (includes_append_l _ _ "/" E) in Hs. }
  split; [|intros rest].
  - destruct (first_occurrence "/" "start.gg" p slug Habs Hp)
      as (I1 & _ & I3).
    change ("start.gg" ++ "/") with "start.gg/" in *.
    rewrite extractSlug_marker, I3 by exact I1.
    rewrite (before_no_occurrence "start.gg/" slug Hs').
    now rewrite (before_no_occurrence "/overview" slug Ho).
  - destruct (first_occurrence "/" "start.gg" p
                (slug ++ "/overview" ++ rest) Habs Hp) as (I1 & _ & I3).
    change ("start.gg" ++ "/") with "start.gg/" in *.
    rewrite extractSlug_marker, I3 by exact I1.
    change ("/overview" ++ rest) with (String "/" ("overview" ++ rest)).
    pose proof (before_pass_last "/" "start.gg" slug ("overview" ++ rest)
                  Habs Hs) as B1.
    change ("start.gg" ++ "/") with "start.gg/" in B1. rewrite B1.
    assert (B2 : exists z,
               before "start.gg/" (String "/" ("overview" ++ rest))
               = String "/" ("overview" ++ z)).
    { exists (before "start.gg/" rest).
      change ("overview" ++ rest)
        with (String "o" (String "v" (String "e" (String "r" (String "v"
               (String "i" (String "e" (String "w" rest)))))))).
      rewrite !before_cons. reflexivity. }
    destruct B2 as [z ->].
    rewrite (before_pass_first "/" "overview" slug ("overview" ++ z)
               Habs' Ho).
    change (String "/" ("overview" ++ z)) with ("/overview" ++ z).
    assert (B3 : before "/overview" ("/overview" ++ z) = "").
    { change ("/overview" ++ z)
        with (String "/" ("overview" ++ z)).
      rewrite before_cons.
      change (String "/" ("overview" ++ z)) with ("/overview" ++ z).
      now rewrite startsWith_self_append. }
    rewrite B3. now rewrite append_empty_r.
Qed.

Lemma extractSlug_of_event_url_witness :
  extractSlug ("https://www." ++ "start.gg/" ++ "tournament/a/event/b")
  = Some "tournament/a/event/b" /\
  forall rest,
    extractSlug ("https://www." ++ "start.gg/" ++ "tournament/a/event/b"
                 ++ "/overview" ++ rest)
    = Some "tournament/a/event/b".
Proof.
  apply (extractSlug_of_event_url "https://www." "tournament/a/event/b");
    reflexivity.
Defined.

End SlugOccurrences.

Section HslRanges.
Import JsNumber HslFilter.

Lemma pairsBelow_spec (check : chan -> chan -> list chan -> bool)
    (X : chan) (rest seen : list chan) :
  pairsBelow check X seen rest = true ->
  forall k Z, rest !! k = Some Z ->
    exists mids,
      check X Z mids = true /\
      (forall Y, In Y seen -> In Y mids) /\
      (forall j Y, (j <= k)%nat -> rest !! j = Some Y -> In Y mids).
Proof.
  revert seen. induction rest as [|Z0 rest IH]; intros seen H k Z Hk;
    [discriminate|].
  cbn [pairsBelow] in H. apply andb_true_iff in H as [H1 H2].
  destruct k as [|k].
  - injection Hk as <-. exists (Z0 :: seen). split; [exact H1|]. split.
    + intros Y HY. now right.
    + intros j Y Hj HjY. assert (j = 0)%nat as -> by lia.
      injection HjY as <-. now left.
  - destruct (IH (Z0 :: seen) H2 k Z Hk) as (mids & Hp & Hseen & Hrest).
    exists mids. split; [exact Hp|]. split.
    + intros Y HY. apply Hseen. now right.
    + intros [|j] Y Hj HjY.
      * injection HjY as <-. apply Hseen. now left.
      * apply (Hrest j Y); [lia | exact HjY].
Qed.

Lemma pairsAll_spec (check : chan -> chan -> list chan -> bool)
    (l : list chan) :
  pairsAll check l = true ->
  forall i j k X Y Z, (i <= j <= k)%nat ->
    l !! i = Some X -> l !! j = Some Y -> l !! k = Some Z ->
    exists mids, check X Z mids = true /\ In Y mids.
Proof.
  induction l as [|X0 l IH]; intros H i j k X Y Z Hijk Hi Hj Hk;
    [discriminate|].
  cbn [pairsAll] in H. apply andb_true_iff in H as [H1 H2].
  destruct i as [|i].
  - injection Hi as <-.
    destruct (pairsBelow_spec check X0 (X0 :: l) [] H1 k Z Hk)
      as (mids & Hp & _ & Hrest).
    exists mids. split; [exact Hp|]. apply (Hrest j Y); [lia | exact Hj].
  - destruct j as [|j]; [lia|]. destruct k as [|k]; [lia|].
    apply (IH H2 i j k X Y Z); [lia | assumption ..].
Qed.

Lemma rangesPair_channels : pairsAll rangesPair channelsDown = true.
Proof. vm_cast_no_check (@eq_refl bool true). Qed.

Lemma rgbToHsl_hslOf (r g b : Z) :
  (0 <= r <= 255)%Z -> (0 <= g <= 255)%Z -> (0 <= b <= 255)%Z ->
  rgbToHsl (Z2F r) (Z2F g) (Z2F b)
  = hslOf (snd (chanOf (Z.max (Z.max r g) b)))
      (snd (chanOf (Z.min (Z.min r g) b)))
      (snd (chanOf r)) (snd (chanOf g)) (snd (chanOf b)).
Proof.
  intros Hr Hg Hb.
  rewrite <- !Math_max_chanOf, <- !Math_min_chanOf by lia.
  reflexivity.
Qed.

(** X5: On 8-bit channels, [rgbToHsl] gives a hue in [0,360) and a saturation
    and a lightness in [0,100]; the saturation is 0 for the grays and only
    for them, and their hue is 0. *)
Theorem rgbToHsl_ranges (r g b : Z) :
  (0 <= r <= 255)%Z -> (0 <= g <= 255)%Z -> (0 <= b <= 255)%Z ->
  let '(h, s, l) := rgbToHsl (Z2F r) (Z2F g) (Z2F b) in
  ((0 <=? h) && (h <? 360))%float = true /\
  ((0 <=? s) && (s <=? 100))%float = true /\
  ((0 <=? l) && (l <=? 100))%float = true /\
  ((s =? 0)%float = true <-> r = g /\ g = b) /\
  (r = g /\ g = b -> h = 0%float /\ s = 0%float).
Proof.
  intros Hr Hg Hb.
  destruct (arranged_channels r g b) as [Hmd Harr]. cbv zeta in Hmd, Harr.
  rewrite rgbToHsl_hslOf by assumption.
  remember (Z.max (Z.max r g) b) as mx eqn:Emx.
  remember (Z.min (Z.min r g) b) as mn eqn:Emn.
  remember (r + g + b - mx - mn)%Z as md eqn:Emd.
  assert (Hmx : (0 <= mx <= 255)%Z) by lia.
  assert (Hmn : (0 <= mn <= 255)%Z) by lia.
  destruct (pairsAll_spec rangesPair channelsDown rangesPair_channels
              (Z.to_nat (255 - mx)) (Z.to_nat (255 - md))
              (Z.to_nat (255 - mn))
              (chanOf mx) (chanOf md) (chanOf mn))
    as (mids & Hpair & Hmid);
    [lia | apply channelsDown_lookup; lia ..|].
  destruct (orderKept_spec mx mn Hmx Hmn) as [_ Heq].
  unfold rangesPair in Hpair.
  destruct (chanOf mx) as [x0 max] eqn:EX.
  destruct (chanOf mn) as [z0 min] eqn:EZ.
  cbn [snd] in *. cbv zeta in Hpair.
  apply andb_true_iff in Hpair as [Hl Hpair].
  unfold hslOf. cbv zeta.
  destruct (max =? min)%float eqn:Hgray.
  - assert (Hall : r = g /\ g = b).
    { symmetry in Heq. apply Z.eqb_eq in Heq. lia. }
    repeat split; try reflexivity; try exact Hl; try apply Hall.
  - apply andb_true_iff in Hpair as [Hs Hhue].
    rewrite forallb_forall in Hhue. specialize (Hhue _ Hmid).
    destruct (chanOf md) as [y0 y] eqn:EY.
    pose proof (sixWays_arranged (hueInRange max (max - min))
                  (x0, max) (y0, y) (z0, min) _ _ _ Hhue Harr) as Hh.
    unfold hueInRange in Hh. cbv zeta in Hh.
    split; [exact Hh|].
    apply andb_true_iff in Hs as [Hs0 Hs1].
    assert (Hs0' : forall s : float,
               (0 <? s)%float = true ->
               (0 <=? s)%float = true /\ (s =? 0)%float = false).
    { intros s. rewrite FloatAxioms.ltb_spec, FloatAxioms.leb_spec,
        FloatAxioms.eqb_spec.
      unfold SFltb, SFleb, SFeqb.
      change (Prim2SF 0) with (S754_zero false).
      destruct (Prim2SF s) as [[]| [] | | [] m e]; cbn; try discriminate;
        auto. }
    destruct (Hs0' _ Hs0) as [Hs2 Hs3].
    split; [now rewrite Hs2, Hs1|]. split; [exact Hl|].
    assert (Hne : ~ (r = g /\ g = b)).
    { symmetry in Heq. apply Z.eqb_neq in Heq. lia. }
    split; [|tauto]. split; [|tauto]. rewrite Hs3. discriminate.
Qed.

Lemma rgbToHsl_ranges_witness :
  let '(h, s, l) := rgbToHsl (Z2F 201) (Z2F 128) (Z2F 64) in
  ((0 <=? h) && (h <? 360))%float = true /\
  ((0 <=? s) && (s <=? 100))%float = true /\
  ((0 <=? l) && (l <=? 100))%float = true /\
  ((s =? 0)%float = true <-> 201 = 128 /\ 128 = 64)%Z /\
  (201 = 128 /\ 128 = 64 -> h = 0%float /\ s = 0%float)%Z.
Proof. apply (rgbToHsl_ranges 201 128 64); lia. Defined.

End HslRanges.

Section ColorizeEdges.
Import JsNumber HslFilter.
Local Open Scope float_scope.

(** *** Zeros and NaN *)

Lemma zeroish_Prim2SF (x : float) :
  zeroish x <->
  (exists s, Prim2SF x = S754_zero s) \/ Prim2SF x = S754_nan.
Proof.
  split.
  - intros [-> | [-> | ->]];
      [left; now exists false | left; now exists true | now right].
  - intros [[[] H] | H]; apply of_Prim2SF in H; subst x;
      [right; left | left | right; right]; reflexivity.
Qed.

Lemma zeroish_mul_l (x y : float) : zeroish x -> zeroish (x * y).
Proof.
  rewrite !zeroish_Prim2SF, FloatAxioms.mul_spec.
  intros [[s ->] | ->]; destruct (Prim2SF y); cbn; eauto.
Qed.

Lemma zeroish_mul_r (x y : float) : zeroish y -> zeroish (x * y).
Proof.
  rewrite !zeroish_Prim2SF, FloatAxioms.mul_spec.
  intros [[s ->] | ->]; destruct (Prim2SF x); cbn; eauto.
Qed.

Lemma zeroish_add (x y : float) : zeroish x -> zeroish y -> zeroish (x + y).
Proof.
  rewrite !zeroish_Prim2SF, FloatAxioms.add_spec.
  intros [[s ->] | ->] [[s' ->] | ->]; cbn; eauto.
  all: destruct s, s'; cbn; eauto.
Qed.

Lemma zeroish_sub (x y : float) : zeroish x -> zeroish y -> zeroish (x - y).
Proof.
  rewrite !zeroish_Prim2SF, FloatAxioms.sub_spec.
  intros [[s ->] | ->] [[s' ->] | ->]; cbn; eauto.
  all: destruct s, s'; cbn; eauto.
Qed.

Lemma zeroish_hue2rgb (p q t : float) :
  zeroish p -> zeroish q -> zeroish (hue2rgb p q t).
Proof.
  intros Hp Hq. unfold hue2rgb. cbv zeta.
  repeat match goal with
         | |- context [if ?c then _ else _] => destruct c
         end;
    auto using zeroish_add, zeroish_sub, zeroish_mul_l.
Qed.

(** Stored in the byte array, the rounded value of a zero or of NaN is 0. *)
Lemma zeroish_stored (x : float) :
  zeroish x -> ToUint8Clamp (Math_round (x * 255)) = 0%Z.
Proof. intros [-> | [-> | ->]]; reflexivity. Qed.

(** With lightness 0, [hslToRgb] gives black in the byte array, whatever
    the hue and the saturation are. *)
Lemma hslToRgb_black (hue saturation : float) :
  let '(r, g, b) := hslToRgb hue saturation 0 in
  ToUint8Clamp r = 0%Z /\ ToUint8Clamp g = 0%Z /\ ToUint8Clamp b = 0%Z.
Proof.
  unfold hslToRgb. cbv zeta.
  change (0 / 100) with 0. change (0 <? 0.5) with true. cbv iota.
  change (2 * 0) with 0.
  destruct (saturation / 100 =? 0); [repeat split|].
  assert (Hq : zeroish (0 * (1 + saturation / 100)))
    by (apply zeroish_mul_l; now left).
  assert (Hp : zeroish (0 - 0 * (1 + saturation / 100)))
    by (apply zeroish_sub; [now left | exact Hq]).
  repeat split; apply zeroish_stored, zeroish_hue2rgb; assumption.
Qed.

(** *** The colorize pass on black, and without saturation *)

(** X6: The colorize pass keeps a black pixel black and keeps its alpha,
    whatever the hue and the saturation are (NaN and the infinities
    included). *)
Theorem colorize_keeps_black (data : list Z) (hue saturation : float)
    (n k : nat) (a : Z) :
  length data = (4 * n)%nat ->
  Forall isByte data ->
  (k < n)%nat ->
  pixelAt data k (0, 0, 0, a)%Z ->
  pixelAt (applyColorize data hue saturation) k (0, 0, 0, a)%Z.
Proof.
  intros Hlen Hbytes Hk Hpix.
  destruct (applyColorize_pixels data hue saturation n Hlen) as [_ Hpx].
  specialize (Hpx k Hk).
  rewrite (load4_pixelAt _ _ _ _ _ _ Hpix) in Hpx. unfold colorized in Hpx.
  change (snd (rgbToHsl (luminosity (Z2F 0) (Z2F 0) (Z2F 0))
                 (luminosity (Z2F 0) (Z2F 0) (Z2F 0))
                 (luminosity (Z2F 0) (Z2F 0) (Z2F 0)))) with 0 in Hpx.
  pose proof (hslToRgb_black hue saturation) as Hblack.
  destruct (hslToRgb hue saturation 0) as [[newR newG] newB].
  destruct Hblack as (Er & Eg & Eb).
  unfold storedAt in Hpx. rewrite Er, Eg, Eb in Hpx.
  rewrite (ToUint8Clamp_byte a) in Hpx; [exact Hpx|].
  exact (pixelAt_alpha_byte _ _ _ _ _ _ Hbytes Hpix).
Qed.

Lemma colorize_keeps_black_witness :
  pixelAt (applyColorize [0; 0; 0; 77; 9; 9; 9; 255]%Z 200 80) 0
    (0, 0, 0, 77)%Z.
Proof.
  apply (colorize_keeps_black [0; 0; 0; 77; 9; 9; 9; 255]%Z 200 80 2 0 77).
  - reflexivity.
  - repeat constructor; unfold isByte; lia.
  - lia.
  - repeat split.
Defined.

(** X7: With saturation 0 and no lightness adjustment (the defaults of
    [applyHslFilter]), every pixel comes out gray: its three colour bytes
    are equal, they do not depend on the hue, and the alpha is kept. *)
Theorem filter_without_saturation_is_gray (data : list Z) (n k : nat)
    (r g b a : Z) :
  length data = (4 * n)%nat ->
  Forall isByte data ->
  (k < n)%nat ->
  pixelAt data k (r, g, b, a) ->
  exists v,
    forall hue, pixelAt (applyHslFilter data hue 0 0) k (v, v, v, a).
Proof.
  intros Hlen Hbytes Hk Hpix.
  set (gray := luminosity (Z2F r) (Z2F g) (Z2F b)).
  set (l := snd (rgbToHsl gray gray gray)).
  exists (ToUint8Clamp (Math_round (l / 100 * 255))). intros hue.
  change (applyHslFilter data hue 0 0) with (applyColorize data hue 0).
  destruct (applyColorize_pixels data hue 0 n Hlen) as [_ Hpx].
  specialize (Hpx k Hk).
  rewrite (load4_pixelAt _ _ _ _ _ _ Hpix) in Hpx. unfold colorized in Hpx.
  fold gray in Hpx. fold l in Hpx. unfold hslToRgb in Hpx.
  cbv zeta in Hpx. change (0 / 100 =? 0) with true in Hpx. cbv iota in Hpx.
  unfold storedAt in Hpx. rewrite (ToUint8Clamp_byte a) in Hpx; [exact Hpx|].
  exact (pixelAt_alpha_byte _ _ _ _ _ _ Hbytes Hpix).
Qed.

Lemma filter_without_saturation_is_gray_witness :
  exists v,
    forall hue,
      pixelAt (applyHslFilter [255; 0; 0; 255]%Z hue 0 0) 0
        (v, v, v, 255)%Z.
Proof.
  apply (filter_without_saturation_is_gray [255; 0; 0; 255]%Z 1 0
           255 0 0 255).
  - reflexivity.
  - repeat constructor; unfold isByte; lia.
  - lia.
  - repeat split.
Defined.

End ColorizeEdges.

Section FilterAsAWhole.
Import Js Api JsNumber HslFilter FilterIO.
Local Open Scope string_scope.

Lemma pixel_of_buffer (data : list Z) (n k : nat) :
  length data = (4 * n)%nat -> (k < n)%nat ->
  exists r g b a, pixelAt data k (r, g, b, a).
Proof.
  intros Hlen Hk.
  destruct (lookup_lt_is_Some_2 data (4 * k)) as [r Hr]; [lia|].
  destruct (lookup_lt_is_Some_2 data (4 * k + 1)) as [g Hg]; [lia|].
  destruct (lookup_lt_is_Some_2 data (4 * k + 2)) as [b Hb]; [lia|].
  destruct (lookup_lt_is_Some_2 data (4 * k + 3)) as [a Ha]; [lia|].
  exists r, g, b, a. repeat split; assumption.
Qed.

(** X8: Whatever the three adjustments are, the two passes give a buffer of
    the same length in which every alpha byte is the one of the input. *)
Theorem filter_keeps_size_and_alpha (data : list Z)
    (hueShift saturationAdjust lightnessAdjust : float) (n k : nat) :
  length data = (4 * n)%nat ->
  Forall isByte data ->
  (k < n)%nat ->
  let out :=
    HslFilter.applyHslFilter data hueShift saturationAdjust
      lightnessAdjust in
  length out = length data /\
  out !! (4 * k + 3)%nat = data !! (4 * k + 3)%nat.
Proof.
  intros Hlen Hbytes Hk. cbv zeta. unfold HslFilter.applyHslFilter.
  cbv zeta.
  destruct (applyColorize_pixels data hueShift saturationAdjust n Hlen)
    as [Hl _].
  pose proof (applyColorize_alpha data hueShift saturationAdjust n k Hlen
                Hbytes Hk) as Halpha.
  set (mid := applyColorize data hueShift saturationAdjust) in *.
  destruct (lightnessAdjust =? 0)%float; cbn [negb]; [auto|].
  destruct (forEachPixel_all (lightened lightnessAdjust)
              (lightenAt lightnessAdjust) n mid
              (lightenAt_store4 lightnessAdjust)) as [Hl' Hpx];
    [congruence|].
  split; [congruence|]. specialize (Hpx k Hk).
  destruct (pixel_of_buffer mid n k ltac:(congruence) Hk)
    as (r & g & b & a & Hpix).
  rewrite (load4_pixelAt _ _ _ _ _ _ Hpix) in Hpx. unfold lightened in Hpx.
  destruct (rgbToHsl _ _ _) as [[h s] l].
  destruct (hslToRgb h s _) as [[newR newG] newB].
  destruct Hpx as (_ & _ & _ & Hout). destruct Hpix as (_ & _ & _ & Ha).
  rewrite Hout, <- Halpha, Ha. f_equal. apply ToUint8Clamp_byte.
  rewrite Halpha in Ha. exact (Forall_lookup_1 _ _ _ _ Hbytes Ha).
Qed.

Lemma filter_keeps_size_and_alpha_witness :
  let out :=
    HslFilter.applyHslFilter [10; 200; 30; 128; 255; 255; 255; 0]%Z
      120 50 20 in
  length out = 8%nat /\ out !! 7%nat = Some 0%Z.
Proof.
  apply (filter_keeps_size_and_alpha
           [10; 200; 30; 128; 255; 255; 255; 0]%Z 120 50 20 2 1).
  - reflexivity.
  - repeat constructor; unfold isByte; lia.
  - lia.
Defined.

(** X11: How [applyHslFilter] ends.  Without [removeBg] nothing is sent.  The
    promise is rejected with the error of a failed removal, and then no
    file is read, or with [Failed to read file], or with
    [Failed to load image], and with nothing else.  It is resolved with
    the PNG that [toBlob] makes of the filtered pixels of the image, in
    the size of the image.  On an image without width or height it is
    never settled. *)
Theorem filter_settles (e : env) (imageFile : blob)
    (hueShift saturationAdjust lightnessAdjust : float) (removeBg : bool) :
  let '(out, requests, files) :=
    applyHslFilter e imageFile hueShift saturationAdjust lightnessAdjust
      removeBg in
  let removal := removeBackgroundWithAPI e imageFile in
  requests = (if removeBg then snd removal else []) /\
  (length requests <= 1)%nat /\
  match out with
  | Rejected x =>
      (removeBg = true /\ fst removal = Throws x /\ files = []) \/
      (exists file, files = [file] /\ readAsDataURL e file = None /\
                    x = Exn "Error" "Failed to read file") \/
      (exists file dataUrl,
         files = [file] /\ readAsDataURL e file = Some dataUrl /\
         loadImage e dataUrl = None /\
         x = Exn "Error" "Failed to load image")
  | Resolved b =>
      exists file dataUrl img,
        files = [file] /\
        (if removeBg then fst removal = Returns file
         else file = imageFile) /\
        readAsDataURL e file = Some dataUrl /\
        loadImage e dataUrl = Some img /\
        img_width img <> 0%Z /\ img_height img <> 0%Z /\
        b = toBlob e (img_width img) (img_height img)
              (HslFilter.applyHslFilter (img_data img) hueShift
                 saturationAdjust lightnessAdjust)
              "image/png"
  | Pending =>
      exists file dataUrl img,
        files = [file] /\
        readAsDataURL e file = Some dataUrl /\
        loadImage e dataUrl = Some img /\
        (img_width img = 0%Z \/ img_height img = 0%Z)
  end.
Proof.
  unfold applyHslFilter.
  assert (Hone : (length (snd (removeBackgroundWithAPI e imageFile)) <= 1)%nat).
  { unfold removeBackgroundWithAPI.
    destruct (VITE_REMOVEBG_KEY e) as [k|]; [|cbn; lia].
    destruct (String.eqb k ""); cbn; lia. }
  destruct removeBg;
    [destruct (removeBackgroundWithAPI e imageFile) as [[file|x] reqs];
     cbn [fst snd] in *;
     [|split; [reflexivity|]; split; [exact Hone|]; left; auto]
    |set (file := imageFile)].
  all: split; [reflexivity|].
  all: split; [first [exact Hone | cbn; lia]|].
  all: destruct (readAsDataURL e file) as [dataUrl|] eqn:Er;
    [|right; left; eauto].
  all: destruct (loadImage e dataUrl) as [img|] eqn:Ei;
    [|right; right; eauto 6].
  all: destruct (Z.eqb_spec (img_width img) 0) as [Hw|Hw]; cbn [orb];
    [eauto 8|].
  all: destruct (Z.eqb_spec (img_height img) 0) as [Hh|Hh]; [eauto 8|].
  all: exists file, dataUrl, img; repeat split; auto.
Qed.

End FilterAsAWhole.

Section StandingsStatus.
Import Js Util Api.
Local Open Scope string_scope.

(** X4: [getTop8] does not look at the status of the response: whatever the
    status, a body that parses and is not [null] gives a normal return,
    and the empty list when the body has no [data]. *)
Theorem getTop8_ignores_status (e : env) (eventUrl apiKey slug : string)
    (status : Z) (j : json) :
  VITE_STARTGG_KEY e = Some apiKey ->
  apiKey <> "" ->
  extractSlug eventUrl = Some slug ->
  fetch e (top8_request apiKey slug) = Resolves status (Parses j) ->
  j <> JNull ->
  exists v,
    fst (getTop8 e eventUrl) = Returns v /\
    (getProp j "data" = Undefined -> v = JArray []).
Proof.
  intros Hkey Hne Hslug Hfetch Hj. unfold getTop8.
  rewrite Hslug, Hkey. apply String.eqb_neq in Hne. rewrite Hne, Hfetch.
  cbn [fst]. unfold standings_nodes.
  destruct j; try congruence; eexists; (split; [reflexivity|]);
    cbn [getProp]; try reflexivity.
  intros H. rewrite H. reflexivity.
Qed.

Lemma getTop8_ignores_status_witness :
  exists v,
    fst (getTop8 refusingEnv "tournament/a/event/b") = Returns v /\
    (getProp refusal "data" = Undefined -> v = JArray []).
Proof.
  apply (getTop8_ignores_status refusingEnv "tournament/a/event/b" "key"
           "tournament/a/event/b" 401 refusal);
    [reflexivity | discriminate | reflexivity | reflexivity | discriminate].
Defined.

End StandingsStatus.

Section BackgroundRemoval.
Import Js Api FilterIO.
Local Open Scope string_scope.

(** What is thrown inside the [try] block comes out wrapped. *)
Lemma removeBackground_with_key (e : env) (imageFile : blob)
    (apiKey : string) :
  VITE_REMOVEBG_KEY e = Some apiKey ->
  apiKey <> "" ->
  removeBackgroundWithAPI e imageFile
  = (match
       match fetch e (removebg_request apiKey imageFile) with
       | Rejects err => Throws err
       | Resolves res => removedBackground e res
       end
     with
     | Returns b => Returns b
     | Throws (Exn _ message) =>
         Throws (Exn "Error" ("Failed to remove background: " ++ message))
     end, [removebg_request apiKey imageFile]).
Proof.
  intros Hkey Hne. unfold removeBackgroundWithAPI. rewrite Hkey.
  apply String.eqb_neq in Hne. now rewrite Hne.
Qed.

Lemma removedBackground_returns (e : env) (res : response) (b : blob) :
  removedBackground e res = Returns b
  <-> ok res = true /\ blob_body res = Returns b.
Proof.
  unfold removedBackground. destruct (ok res); cbn [negb].
  - tauto.
  - split; [|intros [? _]; discriminate].
    destruct (json_body res) as [[]|]; discriminate.
Qed.

(** X9: Without a key [removeBackgroundWithAPI] throws its own message (that
    the key is not configured), not wrapped, and sends nothing.  With a
    key it sends one request, with the image, and returns the blob of a
    response whose status is in 200..299; everything
    else, the rejection of [fetch], a body that does not parse, an error
    status, comes out as an [Error] whose message begins with
    [Failed to remove background: ]. *)
Theorem removeBackground_outcomes (e : env) (imageFile : blob) :
  let r := removeBackgroundWithAPI e imageFile in
  (VITE_REMOVEBG_KEY e = None \/ VITE_REMOVEBG_KEY e = Some "" ->
   r = (Throws (Exn "Error" noKeyMessage), [])) /\
  (forall apiKey, VITE_REMOVEBG_KEY e = Some apiKey -> apiKey <> "" ->
   let req := removebg_request apiKey imageFile in
   snd r = [req] /\
   In ("image_file", FormBlob imageFile) (form req) /\
   In ("X-Api-Key", apiKey) (headers req) /\
   (forall b,
      fst r = Returns b
      <-> exists res,
            fetch e req = Resolves res /\ ok res = true /\
            blob_body res = Returns b) /\
   (forall x,
      fst r = Throws x ->
      exists m, x = Exn "Error" ("Failed to remove background: " ++ m))).
Proof.
  cbv zeta. split.
  - unfold removeBackgroundWithAPI. intros [-> | ->]; reflexivity.
  - intros apiKey Hkey Hne.
    rewrite (removeBackground_with_key e imageFile apiKey Hkey Hne).
    cbn [fst snd]. split; [reflexivity|].
    split; [now left|]. split; [now left|].
    destruct (fetch e (removebg_request apiKey imageFile)) as [err|res].
    + split.
      * intros b. destruct err. split; [discriminate|].
        intros (res & H & _). discriminate.
      * intros x. destruct err as [n m]. intros [= <-]. eauto.
    + pose proof (removedBackground_returns e res) as Hret.
      destruct (removedBackground e res) as [b0|[n m]]. split.
      * intros b. split.
        -- intros [= <-]. exists res. split; [reflexivity|].
           now apply Hret.
        -- intros (res' & [= <-] & Hok & Hb). f_equal.
           assert (H : Returns b0 = Returns b) by (apply Hret; auto).
           now injection H.
      * intros x. discriminate.
      * split.
        -- intros b. split; [discriminate|].
           intros (res' & [= <-] & Hok & Hb).
           assert (H : @Throws blob (Exn n m) = Returns b)
             by (apply Hret; auto).
           discriminate.
        -- intros x [= <-]. eauto.
Qed.

(** X10: The message of an error status: the title of the first error of the
    body when there is one, the status text when the body has no errors,
    and the message of the parser, without the status, when the body is
    not JSON. *)
Theorem removeBackground_error_message (e : env) (imageFile : blob)
    (apiKey : string) (res : response) :
  VITE_REMOVEBG_KEY e = Some apiKey ->
  apiKey <> "" ->
  fetch e (removebg_request apiKey imageFile) = Resolves res ->
  ok res = false ->
  let failure m :=
    @Throws blob (Exn "Error" ("Failed to remove background: " ++ m)) in
  (forall errorData first rest title,
     json_body res = Parses errorData ->
     getProp errorData "errors" = Value (JArray (first :: rest)) ->
     getProp first "title" = Value (JString title) ->
     title <> "" ->
     fst (removeBackgroundWithAPI e imageFile)
     = failure ("remove.bg API error: " ++ title)) /\
  (forall errorData,
     json_body res = Parses errorData ->
     errorData <> JNull ->
     getProp errorData "errors" = Undefined ->
     fst (removeBackgroundWithAPI e imageFile)
     = failure ("remove.bg API error: " ++ statusText res)) /\
  (forall name message,
     json_body res = ParseFails (Exn name message) ->
     fst (removeBackgroundWithAPI e imageFile) = failure message).
Proof.
  intros Hkey Hne Hfetch Hok. cbv zeta.
  rewrite (removeBackground_with_key e imageFile apiKey Hkey Hne), Hfetch.
  cbn [fst]. unfold removedBackground. rewrite Hok. cbn [negb].
  split; [|split].
  - intros errorData first rest title -> Herrors Htitle Ht.
    destruct errorData; try discriminate.
    rewrite Herrors. cbn [optIndex0].
    assert (Hfirst : optChain (Value first) "title"
                     = Value (JString title)).
    { destruct first; try discriminate. exact Htitle. }
    rewrite Hfirst. cbn [orElse truthy]. apply String.eqb_neq in Ht.
    rewrite Ht. reflexivity.
  - intros errorData -> Hnull Herrors.
    destruct errorData; try congruence; rewrite Herrors; reflexivity.
  - intros name message ->. reflexivity.
Qed.

Lemma removeBackground_error_message_witness :
  fst (removeBackgroundWithAPI outOfCreditsEnv (Blob "image/png" []))
  = Throws
      (Exn "Error"
         ("Failed to remove background: "
          ++ "remove.bg API error: " ++ "Insufficient credits")).
Proof.
  refine (proj1 (removeBackground_error_message outOfCreditsEnv
                   (Blob "image/png" []) "key" outOfCredits _ _ _ _)
            _ _ _ "Insufficient credits" _ _ _ _);
    first [reflexivity | discriminate].
Defined.

End BackgroundRemoval.

Section RowDrawing.
Import Js Renderer.
Local Open Scope string_scope.
Local Open Scope Z_scope.
Local Infix "+." := Double.add (at level 50, left associativity).
Local Infix "-." := Double.sub (at level 50, left associativity).
Local Infix "/." := Double.div (at level 40, left associativity).

Lemma fold_fontAfter (ents : list entry) (font : string) :
  fold_left fontAfter ents font
  = if forallb hasIcon ents then font else badgeFont.
Proof.
  revert font. induction ents as [|ent ents IH]; intros font; [reflexivity|].
  cbn [fold_left forallb]. rewrite IH. unfold fontAfter.
  destruct (hasIcon ent); cbn [andb]; [reflexivity|].
  now destruct (forallb hasIcon ents).
Qed.

(** One row: the label in the context font, then the icon or the badge
    square at [iconLeft], vertically centred in the row, then the initials
    of a badge. *)
Lemma drawRow_ops (e : env) (b innerW : Z) (i : nat) (ent : entry)
    (font font' : string) (ops : list drawop) :
  drawRow e b innerW i ent font = Returns (font', ops) ->
  font' = fontAfter font ent /\
  exists box badge,
    ops = ([labelOp b i font ent; box] ++ badge)%list /\
    iconBox box
    = Some (inject_Z (iconLeft e b innerW font ent),
            (inject_Z (rowTop b i)
             + (inject_Z rowH - inject_Z iconSize) / 2)%Q,
            inject_Z iconSize, inject_Z iconSize) /\
    iconBox (labelOp b i font ent) = None /\
    Forall (fun op => iconBox op = None) badge.
Proof.
  unfold drawRow, fontAfter, hasIcon. cbv zeta.
  fold (rowTop b i). fold (iconAfterLabel e b font ent).
  fold (iconLeft e b innerW font ent). fold (labelOp b i font ent).
  destruct (icon ent) as [img|].
  - intros [= <- <-]. split; [reflexivity|]. eexists _, [].
    repeat split. constructor.
  - destruct (charInitials (characterOrName ent)) as [s|x]; [|discriminate].
    intros [= <- <-]. split; [reflexivity|]. eexists _, [_].
    repeat split. repeat constructor.
Qed.

(** The rows of a drawing that completes: row [j] is drawn by [drawRow]
    under the font the rows before it left. *)
Lemma drawRows_rows (e : env) (b innerW : Z) (ents : list entry) :
  forall (i : nat) (font : string) (ops : list drawop) (evs : list event),
    drawRows e b innerW i ents font = (Returns ops, evs) ->
    (forall j ent, ents !! j = Some ent ->
       exists font' ops_j,
         drawRow e b innerW (i + j) ent
           (fold_left fontAfter (take j ents) font)
         = Returns (font', ops_j) /\
         forall op, In op ops_j -> In op ops) /\
    (forall op, In op ops ->
       exists j ent font' ops_j,
         ents !! j = Some ent /\
         drawRow e b innerW (i + j) ent
           (fold_left fontAfter (take j ents) font)
         = Returns (font', ops_j) /\
         In op ops_j).
Proof.
  induction ents as [|ent0 ents IH]; intros i font ops evs.
  - cbn [drawRows]. intros [= <- <-]. split.
    + intros j ent Hj. discriminate.
    + intros op [].
  - cbn [drawRows].
    destruct (drawRow e b innerW i ent0 font) as [[font' ops1]|x] eqn:E1;
      [|discriminate].
    destruct (drawRows e b innerW (S i) ents font') as [r evs'] eqn:E2.
    destruct r as [ops2|x]; [|discriminate].
    intros [= <- <-].
    destruct (drawRow_ops _ _ _ _ _ _ _ _ E1) as [Hf _].
    destruct (IH _ _ _ _ E2) as [IH1 IH2]. split.
    + intros [|j] ent Hj.
      * injection Hj as <-. exists font', ops1.
        rewrite Nat.add_0_r. cbn [take fold_left].
        split; [exact E1|]. intros op Hop. apply in_or_app. now left.
      * destruct (IH1 j ent Hj) as (f & ops_j & Hr & Hin).
        exists f, ops_j. cbn [take fold_left]. rewrite <- Hf.
        replace (i + S j)%nat with (S i + j)%nat by lia.
        split; [exact Hr|]. intros op Hop. apply in_or_app. right. auto.
    + intros op Hop. apply in_app_or in Hop as [Hop|Hop].
      * exists 0%nat, ent0, font', ops1. rewrite Nat.add_0_r.
        cbn [take fold_left]. auto.
      * destruct (IH2 op Hop) as (j & ent & f & ops_j & Hj & Hr & Hin).
        exists (S j), ent, f, ops_j. cbn [take fold_left]. rewrite <- Hf.
        replace (i + S j)%nat with (S i + j)%nat by lia. auto.
Qed.

Lemma drawRow_no_stroke (e : env) (b innerW : Z) (i : nat) (ent : entry)
    (font font' : string) (ops : list drawop) :
  drawRow e b innerW i ent font = Returns (font', ops) ->
  forall op, In op ops -> isStroke op = false.
Proof.
  unfold drawRow. cbv zeta. destruct (icon ent) as [img|].
  - intros [= <- <-] op [<- | [<- | []]]; reflexivity.
  - destruct (charInitials (characterOrName ent)) as [s|x]; [|discriminate].
    intros [= <- <-] op [<- | [<- | [<- | []]]]; reflexivity.
Qed.

(** A run that returns, with the calls made on its canvas. *)
Lemma generateGraphic_canvas (e : env) (locs : list loc) (w w' : world) :
  locs <> [] ->
  generateGraphic e (ArrayOf locs) w = (Returns tt, w') ->
  let ents := entriesAfterPreload e locs w in
  let b := borderSize (borderChecked e) in
  exists c rowOps evs scale clear,
    graphicArea w' = [CanvasNode c; DownloadLink "top8.png" c] /\
    styleWidth c = innerWidth e ents + b * 2 /\
    styleHeight c = innerHeight ents + b * 2 /\
    length ents = length locs /\
    drawRows e b (innerWidth e ents) 0 ents textFont
    = (Returns rowOps, evs) /\
    ops c
    = ([scale; clear; headerOp e b (innerWidth e ents)] ++ rowOps
       ++ borderOps (borderChecked e) (styleWidth c) (styleHeight c))%list /\
    iconBox scale = None /\ iconBox clear = None /\
    isStroke scale = false /\ isStroke clear = false.
Proof.
  intros Hne Hrun.
  destruct (generateGraphic_returns_inv e locs w w' Hne Hrun)
    as (Hp & _ & _ & _).
  pose proof (preloaded_entries e locs (cleared w) Hp) as Hents.
  apply Forall2_length in Hents.
  revert Hrun. unfold generateGraphic.
  fold (cleared w). unfold entriesAfterPreload in *.
  destruct locs as [|l ls]; [congruence|]. clear Hne.
  destruct (preloadAll e (l :: ls) (cleared w)) as [[[]|x] w1];
    cbn [fst snd] in *; [|discriminate].
  cbv zeta.
  set (ents := omap (fun l0 => objects w1 !! l0) (l :: ls)) in *.
  destruct (drawRows e (borderSize (borderChecked e)) (innerWidth e ents) 0
              ents textFont) as [[rowOps|x] evs] eqn:Ed; [|discriminate].
  intros [= <-]. cbn [graphicArea].
  eexists _, rowOps, evs, _, _.
  split; [reflexivity|]. cbn [styleWidth styleHeight ops].
  split; [reflexivity|]. split; [reflexivity|].
  split; [now symmetry|]. split; [reflexivity|]. split; [reflexivity|].
  repeat split.
Qed.

Lemma borderOps_no_icon (addBorder : bool) (neededW h : Z) (op : drawop) :
  In op (borderOps addBorder neededW h) -> iconBox op = None.
Proof.
  unfold borderOps. cbv zeta. destruct (addBorder && _); [|intros []].
  intros [<- | []]. reflexivity.
Qed.

(** The entries the layout reads are the caller's, each with the result of
    its icon lookup. *)
Lemma entriesAfterPreload_loaded (e : env) (locs : list loc) (w : world) :
  fst (preloadAll e locs (cleared w)) = Returns tt ->
  Forall2 (fun l ent => loaded e <$> objects w !! l = Some ent)
    locs (entriesAfterPreload e locs w).
Proof.
  intros Hp. pose proof (preloaded_entries e locs (cleared w) Hp) as H.
  fold (entriesAfterPreload e locs w) in H.
  apply Forall2_same_length_lookup in H as [Hlen H].
  apply Forall2_same_length_lookup. split; [exact Hlen|].
  intros i l ent Hl Hent. specialize (H i l ent Hl Hent).
  apply list_elem_of_lookup_2 in Hl.
  now rewrite (preloadAll_objects _ _ _ _ Hp), decide_True in H by exact Hl.
Qed.

(** *** Numbers of the layout, continued *)

Lemma innerWidth_min (e : env) (ents : list entry) :
  minWidth <= innerWidth e ents.
Proof.
  unfold innerWidth. rewrite <- (Qceiling_Z minWidth) at 1.
  apply Qceiling_resp_le, Math_max_r.
Qed.

Lemma Math_round_lower (x : Q) (z : Z) :
  (inject_Z z <= x)%Q -> z <= Math_round x.
Proof.
  intros H. unfold Math_round. rewrite <- (Qfloor_Z z).
  apply Qfloor_resp_le. eapply Qle_trans; [exact H|].
  rewrite <- (Qplus_0_r x) at 1. apply Qplus_le_compat; [apply Qle_refl|].
  discriminate.
Qed.

Lemma Math_round_upper (x : Q) (z : Z) :
  (x <= inject_Z z)%Q -> Math_round x <= z.
Proof.
  intros H. unfold Math_round.
  assert (Hlt : (inject_Z (Qfloor (x + (1 # 2))) < inject_Z (z + 1))%Q).
  { eapply Qle_lt_trans; [apply Qfloor_le|].
    rewrite inject_Z_plus.
    apply (Qle_lt_trans _ (inject_Z z + (1 # 2)));
      [apply Qplus_le_compat; [exact H | apply Qle_refl]|].
    apply Qplus_lt_r. reflexivity. }
  rewrite <- Zlt_Qlt in Hlt. lia.
Qed.

(** The end of the label plus the icon gap, before it is rounded to an
    integer. *)
Lemma iconAfterLabel_lower (e : env) (b : Z) (font : string) (ent : entry) :
  0 <= b <= 1 ->
  (0 <= measureText e font (rowLabel ent))%Q ->
  b + leftPadding + iconLeftPadding <= iconAfterLabel e b font ent.
Proof.
  intros Hb Hw. unfold iconAfterLabel. apply Math_round_lower.
  unfold Double.add at 1. apply toDouble_ge_int.
  { unfold leftPadding, iconLeftPadding. change (2 ^ 53) with 9007199254740992.
    lia. }
  assert (H1 : (inject_Z (b + leftPadding)
                <= inject_Z b +. inject_Z leftPadding
                   +. measureText e font (rowLabel ent))%Q).
  { unfold Double.add at 1. apply toDouble_ge_int.
    { unfold leftPadding. change (2 ^ 53) with 9007199254740992. lia. }
    rewrite <- (Qplus_0_r (inject_Z (b + leftPadding))).
    apply Qplus_le_compat; [|exact Hw].
    rewrite add_int; [apply Qle_refl|].
    unfold leftPadding. change (2 ^ 53) with 9007199254740992. lia. }
  rewrite (inject_Z_plus (b + leftPadding)).
  apply Qplus_le_compat; [exact H1 | apply Qle_refl].
Qed.

Lemma iconAfterLabel_upper (e : env) (b : Z) (ent : entry) :
  0 <= b <= 1 ->
  inRange (measureText e textFont (rowLabel ent)) ->
  (inject_Z (iconAfterLabel e b textFont ent)
   <= inject_Z b + inject_Z leftPadding
      + measureText e textFont (rowLabel ent) + inject_Z iconLeftPadding
      + (1 # 2) + (1 # 2147483648))%Q.
Proof.
  intros Hb [H0 H1]. unfold iconAfterLabel, Math_round.
  eapply Qle_trans; [apply Qfloor_le|].
  set (m := measureText e textFont (rowLabel ent)) in *.
  change (inject_Z (2 ^ 20)) with 1048576%Q in H1.
  assert (Hs0 : (inject_Z b +. inject_Z leftPadding
                 == inject_Z b + inject_Z leftPadding)%Q).
  { rewrite add_int, inject_Z_plus; [reflexivity|].
    unfold leftPadding. change (2 ^ 53) with 9007199254740992. lia. }
  set (s0 := inject_Z b +. inject_Z leftPadding) in *.
  assert (Hb' : (0 <= inject_Z b)%Q /\ (inject_Z b <= 1)%Q).
  { split; [change (inject_Z 0 <= inject_Z b)%Q
           | change (inject_Z b <= inject_Z 1)%Q]; rewrite <- Zle_Qle; lia. }
  clearbody s0.
  change (inject_Z leftPadding) with 4%Q in *.
  change (inject_Z iconLeftPadding) with 24%Q in *.
  destruct (add_near s0 m) as [A1 A2];
    [lra | change (inject_Z (2 ^ 21)) with 2097152%Q; lra |].
  set (s1 := s0 +. m) in *.
  destruct (add_near s1 24) as [_ B2];
    [lra | change (inject_Z (2 ^ 21)) with 2097152%Q; lra |].
  lra.
Qed.

(** Under the text font the icon fits right after its label: the check
    against the right padding changes nothing, for widths in the range of
    a browser. *)
Lemma iconLeft_textFont (e : env) (b : Z) (ents : list entry)
    (ent : entry) :
  0 <= b <= 1 ->
  rowsInRange e ents ->
  In ent ents ->
  iconLeft e b (innerWidth e ents) textFont ent
  = iconAfterLabel e b textFont ent.
Proof.
  intros Hb He Hin. unfold iconLeft. cbv zeta.
  destruct (Z.ltb_spec (b + innerWidth e ents - rightPadding)
              (iconAfterLabel e b textFont ent + iconSize)) as [H|H];
    [|reflexivity].
  exfalso. revert H. apply Z.le_ngt.
  pose proof (innerWidth_holds_row e ents ent He Hin) as Hrow.
  pose proof (iconAfterLabel_upper e b ent Hb (He ent Hin)) as Hup.
  assert (Hlt : (inject_Z (iconAfterLabel e b textFont ent + iconSize
                           + rightPadding - b)
                 < inject_Z (innerWidth e ents + 1))%Q).
  { unfold Z.sub. rewrite !inject_Z_plus, !inject_Z_opp.
    change (inject_Z leftPadding) with 4%Q in *.
    change (inject_Z rightPadding) with 4%Q in *.
    change (inject_Z iconLeftPadding) with 24%Q in *.
    change (inject_Z iconSize) with 60%Q in *.
    change (inject_Z 1) with 1%Q. lra. }
  rewrite <- Zlt_Qlt in Hlt. lia.
Qed.

Lemma iconLeft_bounds (e : env) (b innerW : Z) (font : string)
    (ent : entry) :
  iconLeft e b innerW font ent + iconSize <= b + innerW - rightPadding /\
  (b + leftPadding + iconLeftPadding <= iconAfterLabel e b font ent ->
   minWidth <= innerW ->
   b + leftPadding + iconLeftPadding <= iconLeft e b innerW font ent).
Proof.
  unfold iconLeft. cbv zeta.
  destruct (Z.ltb_spec (b + innerW - rightPadding)
              (iconAfterLabel e b font ent + iconSize)) as [H|H].
  - split; [lia|]. intros _.
    unfold minWidth, leftPadding, iconLeftPadding, rightPadding, iconSize.
    lia.
  - split; [lia|]. auto.
Qed.

Lemma dummyEnv_measures (font text : string) :
  (0 <= measureText dummyEnv font text)%Q.
Proof.
  cbn [measureText dummyEnv]. destruct (String.eqb font headerFont).
  - rewrite <- (Zle_Qle 0). lia.
  - unfold Qle. cbn [Qnum Qden]. lia.
Qed.

Lemma Math_max_lub (a b c : Q) :
  (a <= c)%Q -> (b <= c)%Q -> (Math_max a b <= c)%Q.
Proof. intros Ha Hb. unfold Math_max. now destruct (Qle_bool a b). Qed.

(** The header with its paddings, up to two roundings. *)
Lemma neededWidthForHeader_near (e : env) :
  inRange (headerWidth e) ->
  (inject_Z leftPadding + headerWidth e + inject_Z rightPadding
   - (1 # 2147483648)
   <= inject_Z leftPadding +. headerWidth e +. inject_Z rightPadding)%Q /\
  (inject_Z leftPadding +. headerWidth e +. inject_Z rightPadding
   <= inject_Z leftPadding + headerWidth e + inject_Z rightPadding
      + (1 # 2147483648))%Q.
Proof.
  intros [H0 H1]. set (hw := headerWidth e) in *.
  change (inject_Z (2 ^ 20)) with 1048576%Q in H1.
  change (inject_Z leftPadding) with 4%Q.
  change (inject_Z rightPadding) with 4%Q.
  destruct (add_near 4 hw) as [A1 A2];
    [lra | change (inject_Z (2 ^ 21)) with 2097152%Q; lra |].
  set (s1 := 4 +. hw) in *.
  destruct (add_near s1 4) as [B1 B2];
    [lra | change (inject_Z (2 ^ 21)) with 2097152%Q; lra |].
  split; lra.
Qed.

Lemma innerWidth_upper (e : env) (ents : list entry) :
  inRange (headerWidth e) ->
  rowsInRange e ents ->
  (inject_Z (innerWidth e ents) <= 1048670)%Q.
Proof.
  intros Hhw He. unfold innerWidth.
  destruct (neededWidthForRows_near e ents He) as [_ Hr].
  destruct (neededWidthForHeader_near e Hhw) as [_ Hh].
  destruct (maxRowTextWidth_range e ents He) as [_ Hm].
  destruct Hhw as [_ Hw].
  change (inject_Z (2 ^ 20)) with 1048576%Q in *.
  change (inject_Z leftPadding) with 4%Q in *.
  change (inject_Z rightPadding) with 4%Q in *.
  change (inject_Z iconLeftPadding) with 24%Q in *.
  change (inject_Z iconSize) with 60%Q in *.
  change 1048670%Q with (inject_Z 1048670). rewrite <- Zle_Qle.
  rewrite <- (Qceiling_Z 1048670). apply Qceiling_resp_le.
  change (inject_Z 1048670) with 1048670%Q.
  repeat apply Math_max_lub; [lra | lra | discriminate].
Qed.

(** The place of the header, up to three roundings. *)
Lemma header_place (e : env) (b : Z) (ents : list entry) :
  0 <= b <= 1 ->
  inRange (headerWidth e) ->
  rowsInRange e ents ->
  let x :=
    inject_Z b +. (inject_Z (innerWidth e ents) -. headerWidth e) /. 2 in
  let centre :=
    (inject_Z b + (inject_Z (innerWidth e ents) - headerWidth e) / 2)%Q in
  (centre - (3 # 4294967296) <= x)%Q /\
  (x <= centre + (3 # 4294967296))%Q /\
  (inject_Z b + 4 - (1 # 4294967296) <= centre)%Q.
Proof.
  intros Hb Hhw He. cbv zeta.
  pose proof (innerWidth_upper e ents Hhw He) as Hup.
  pose proof (innerWidth_holds_header e ents) as Hlow.
  destruct (neededWidthForHeader_near e Hhw) as [Hh _].
  destruct Hhw as [H0 H1].
  assert (Hb' : (0 <= inject_Z b)%Q /\ (inject_Z b <= 1)%Q).
  { split; [change (inject_Z 0 <= inject_Z b)%Q
           | change (inject_Z b <= inject_Z 1)%Q]; rewrite <- Zle_Qle; lia. }
  set (hw := headerWidth e) in *. set (iw := inject_Z (innerWidth e ents)) in *.
  clearbody hw iw.
  change (inject_Z (2 ^ 20)) with 1048576%Q in *.
  change (inject_Z leftPadding) with 4%Q in *.
  change (inject_Z rightPadding) with 4%Q in *.
  destruct (sub_near iw hw) as [A1 A2];
    [lra | change (inject_Z (2 ^ 21)) with 2097152%Q; lra |].
  set (d1 := iw -. hw) in *. clearbody d1.
  destruct (half_near d1) as [B1 B2];
    [lra | change (inject_Z (2 ^ 21)) with 2097152%Q; lra |].
  set (d2 := d1 /. 2) in *. clearbody d2.
  unfold Qdiv in *. change (/ 2)%Q with (1 # 2)%Q in *.
  destruct (add_near (inject_Z b) d2) as [C1 C2];
    [lra | change (inject_Z (2 ^ 21)) with 2097152%Q; lra |].
  repeat split; lra.
Qed.

(** The labels are those of the caller's entries: the preload changes
    the icons only. *)
Lemma widthsInRange_rows (e : env) (w : world) (locs : list loc)
    (ents : list entry) :
  widthsInRange e w locs ->
  Forall2 (fun l ent => loaded e <$> objects w !! l = Some ent) locs ents ->
  rowsInRange e ents.
Proof.
  intros [_ He] Hents ent Hin.
  apply list_elem_of_In, list_elem_of_lookup_1 in Hin as [i Hi].
  destruct (Forall2_lookup_r _ _ _ _ _ Hents Hi) as (l & Hl & Hent).
  apply list_elem_of_lookup_2 in Hl.
  destruct (objects w !! l) as [ent0|] eqn:E; [|discriminate].
  injection Hent as <-. exact (He l ent0 Hl E).
Qed.

(** *** What is drawn on the canvas *)

(** A call on a renderable array, with its canvas and the rows drawn. *)
Lemma render_canvas (e : env) (locs : list loc) (w : world) :
  locs <> [] ->
  renderable e w locs ->
  let b := borderSize (borderChecked e) in
  exists w' c ents rowOps evs scale clear,
    generateGraphic e (ArrayOf locs) w = (Returns tt, w') /\
    graphicArea w' = [CanvasNode c; DownloadLink "top8.png" c] /\
    Forall2 (fun l ent => loaded e <$> objects w !! l = Some ent)
      locs ents /\
    styleWidth c = innerWidth e ents + b * 2 /\
    styleHeight c = innerHeight ents + b * 2 /\
    drawRows e b (innerWidth e ents) 0 ents textFont
    = (Returns rowOps, evs) /\
    ops c
    = ([scale; clear; headerOp e b (innerWidth e ents)] ++ rowOps
       ++ borderOps (borderChecked e) (styleWidth c) (styleHeight c))%list /\
    iconBox scale = None /\ iconBox clear = None /\
    isStroke scale = false /\ isStroke clear = false.
Proof.
  intros Hne Hr. cbv zeta.
  destruct (renderable_returns e locs w Hne Hr) as [w' Hrun].
  destruct (generateGraphic_returns_inv e locs w w' Hne Hrun)
    as (Hp & _ & _ & _).
  destruct (generateGraphic_canvas e locs w w' Hne Hrun)
    as (c & rowOps & evs & scale & clear & Hga & Hw & Hh
        & _ & Hrows & Hops & Hbox).
  exists w', c, (entriesAfterPreload e locs w), rowOps, evs, scale, clear.
  split; [exact Hrun|]. split; [exact Hga|].
  split; [now apply entriesAfterPreload_loaded|]. auto.
Qed.

Lemma fontAt_after_badge (ents : list entry) (i j : nat) (ent : entry) :
  ents !! i = Some ent -> icon ent = None -> (i < j)%nat ->
  fontAt ents j = badgeFont.
Proof.
  intros Hi Hicon Hij. unfold fontAt.
  destruct (forallb hasIcon (take j ents)) eqn:E; [|reflexivity].
  rewrite forallb_forall in E.
  assert (Hin : In ent (take j ents)).
  { apply list_elem_of_In. apply (list_elem_of_lookup_2 _ i).
    rewrite lookup_take_lt by exact Hij. exact Hi. }
  apply E in Hin. unfold hasIcon in Hin. rewrite Hicon in Hin.
  discriminate.
Qed.

(** X15: The label of every row is written at the left padding, in the middle
    of its row, in the font the context has at that moment: the 44px text
    font as long as every row before it had its icon, and the 14px badge
    font for every row after a row that was drawn with a badge, since the
    badge sets the context font and nothing sets it back. *)
Theorem labels_drawn_in_context_font (e : env) (locs : list loc)
    (w : world) :
  locs <> [] ->
  renderable e w locs ->
  let b := borderSize (borderChecked e) in
  exists w' c ents,
    generateGraphic e (ArrayOf locs) w = (Returns tt, w') /\
    graphicArea w' = [CanvasNode c; DownloadLink "top8.png" c] /\
    Forall2 (fun l ent => loaded e <$> objects w !! l = Some ent)
      locs ents /\
    (forall j ent, ents !! j = Some ent ->
       In (labelOp b j (fontAt ents j) ent) (ops c)) /\
    (forall i j ent_i ent_j,
       ents !! i = Some ent_i -> icon ent_i = None -> (i < j)%nat ->
       ents !! j = Some ent_j ->
       In (labelOp b j badgeFont ent_j) (ops c)).
Proof.
  intros Hne Hr. cbv zeta.
  destruct (render_canvas e locs w Hne Hr)
    as (w' & c & ents & rowOps & evs & scale & clear
        & Hrun & Hga & Hents & _ & _ & Hrows & Hops & _).
  exists w', c, ents. split; [exact Hrun|]. split; [exact Hga|].
  split; [exact Hents|].
  assert (Hlabels : forall j ent, ents !! j = Some ent ->
            In (labelOp (borderSize (borderChecked e)) j (fontAt ents j) ent)
              (ops c)).
  { intros j ent Hj.
    destruct (drawRows_rows _ _ _ _ _ _ _ _ Hrows) as [H1 _].
    destruct (H1 j ent Hj) as (font' & ops_j & Hrow & Hin).
    destruct (drawRow_ops _ _ _ _ _ _ _ _ Hrow)
      as (_ & box & badge & -> & _).
    rewrite fold_fontAfter in Hin. fold (fontAt ents j) in Hin.
    rewrite Hops. apply in_or_app. right. apply in_or_app. left.
    apply Hin. now left. }
  split; [exact Hlabels|].
  intros i j ent_i ent_j Hi Hicon Hij Hj.
  rewrite <- (fontAt_after_badge ents i j ent_i Hi Hicon Hij).
  now apply Hlabels.
Qed.

Lemma labels_drawn_in_context_font_witness :
  exists w' c ents,
    generateGraphic dummyEnv (ArrayOf (map fst dummy)) dummyWorld
    = (Returns tt, w') /\
    graphicArea w' = [CanvasNode c; DownloadLink "top8.png" c] /\
    Forall2 (fun l ent => loaded dummyEnv <$> objects dummyWorld !! l
                          = Some ent) (map fst dummy) ents /\
    (forall j ent, ents !! j = Some ent ->
       In (labelOp 0 j (fontAt ents j) ent) (ops c)) /\
    (forall i j ent_i ent_j,
       ents !! i = Some ent_i -> icon ent_i = None -> (i < j)%nat ->
       ents !! j = Some ent_j ->
       In (labelOp 0 j badgeFont ent_j) (ops c)).
Proof.
  apply (labels_drawn_in_context_font dummyEnv (map fst dummy) dummyWorld);
    [discriminate | exact dummy_renderable].
Defined.

(** X16: Every icon and every badge square is a 60px square that lies in the
    row it belongs to, vertically centred, to the right of the left
    padding and of the icon gap, and to the left of the right padding,
    when measured widths are not negative. *)
Theorem icons_stay_inside (e : env) (locs : list loc) (w : world) :
  locs <> [] ->
  renderable e w locs ->
  (forall font text, (0 <= measureText e font text)%Q) ->
  let b := borderSize (borderChecked e) in
  exists w' c,
    generateGraphic e (ArrayOf locs) w = (Returns tt, w') /\
    graphicArea w' = [CanvasNode c; DownloadLink "top8.png" c] /\
    forall op x y wd ht,
      In op (ops c) -> iconBox op = Some (x, y, wd, ht) ->
      exists j xz,
        (j < length locs)%nat /\
        x = inject_Z xz /\
        b + leftPadding + iconLeftPadding <= xz /\
        xz + iconSize <= styleWidth c - b - rightPadding /\
        y = (inject_Z (rowTop b j)
             + (inject_Z rowH - inject_Z iconSize) / 2)%Q /\
        b + headerHeight + headerBottomPadding <= rowTop b j /\
        rowTop b j + rowH <= styleHeight c - b /\
        wd = inject_Z iconSize /\ ht = inject_Z iconSize.
Proof.
  intros Hne Hr Hpos. cbv zeta.
  destruct (render_canvas e locs w Hne Hr)
    as (w' & c & ents & rowOps & evs & scale & clear
        & Hrun & Hga & Hents & Hw & Hh & Hrows & Hops & Hs & Hc & _).
  exists w', c. split; [exact Hrun|]. split; [exact Hga|].
  intros op x y wd ht Hin Hbox. rewrite Hops in Hin.
  apply in_app_or in Hin as [Hin|Hin].
  { destruct Hin as [<- | [<- | [<- | []]]]; try congruence.
    discriminate. }
  apply in_app_or in Hin as [Hin|Hin];
    [|apply borderOps_no_icon in Hin; congruence].
  destruct (drawRows_rows _ _ _ _ _ _ _ _ Hrows) as [_ H2].
  destruct (H2 op Hin) as (j & ent & font' & ops_j & Hj & Hrow & Hop).
  rewrite Nat.add_0_l in Hrow.
  destruct (drawRow_ops _ _ _ _ _ _ _ _ Hrow)
    as (_ & box & badge & -> & Ebox & Elabel & Ebadge).
  assert (op = box) as ->.
  { destruct Hop as [<- | [<- | Hop]]; [congruence | reflexivity |].
    rewrite Forall_forall in Ebadge. apply list_elem_of_In in Hop.
    apply Ebadge in Hop. congruence. }
  rewrite Ebox in Hbox. injection Hbox as <- <- <- <-.
  set (font := fold_left fontAfter (take j ents) textFont) in *.
  exists j, (iconLeft e (borderSize (borderChecked e)) (innerWidth e ents)
               font ent).
  apply lookup_lt_Some in Hj. apply Forall2_length in Hents.
  split; [lia|]. split; [reflexivity|].
  pose proof (innerWidth_min e ents) as Hmin.
  assert (Hlow : borderSize (borderChecked e) + leftPadding + iconLeftPadding
                 <= iconAfterLabel e (borderSize (borderChecked e)) font ent).
  { apply iconAfterLabel_lower; [|apply Hpos].
    destruct (borderChecked e); cbn [borderSize]; lia. }
  destruct (iconLeft_bounds e (borderSize (borderChecked e))
              (innerWidth e ents) font ent) as [Hright Hleft].
  split; [now apply Hleft|]. split; [rewrite Hw; lia|].
  split; [reflexivity|]. rewrite Hh.
  unfold rowTop, innerHeight, rowH, headerHeight, headerBottomPadding.
  repeat split; nia.
Qed.

Lemma icons_stay_inside_witness :
  exists w' c,
    generateGraphic dummyEnv (ArrayOf (map fst dummy)) dummyWorld
    = (Returns tt, w') /\
    graphicArea w' = [CanvasNode c; DownloadLink "top8.png" c] /\
    forall op x y wd ht,
      In op (ops c) -> iconBox op = Some (x, y, wd, ht) ->
      exists j xz,
        (j < length (map fst dummy))%nat /\
        x = inject_Z xz /\
        0 + leftPadding + iconLeftPadding <= xz /\
        xz + iconSize <= styleWidth c - 0 - rightPadding /\
        y = (inject_Z (rowTop 0 j)
             + (inject_Z rowH - inject_Z iconSize) / 2)%Q /\
        0 + headerHeight + headerBottomPadding <= rowTop 0 j /\
        rowTop 0 j + rowH <= styleHeight c - 0 /\
        wd = inject_Z iconSize /\ ht = inject_Z iconSize.
Proof.
  apply (icons_stay_inside dummyEnv (map fst dummy) dummyWorld);
    [discriminate | exact dummy_renderable | exact dummyEnv_measures].
Defined.

(** X17: As long as every row before it had its icon, a row has its icon or
    its badge exactly at the rounded end of its label plus the icon gap,
    the sum being computed in doubles: the check against the right padding
    never moves it, for widths in the range of a browser. *)
Theorem icon_follows_its_label (e : env) (locs : list loc) (w : world) :
  locs <> [] ->
  renderable e w locs ->
  widthsInRange e w locs ->
  let b := borderSize (borderChecked e) in
  exists w' c ents,
    generateGraphic e (ArrayOf locs) w = (Returns tt, w') /\
    graphicArea w' = [CanvasNode c; DownloadLink "top8.png" c] /\
    Forall2 (fun l ent => loaded e <$> objects w !! l = Some ent)
      locs ents /\
    forall j ent,
      ents !! j = Some ent ->
      forallb hasIcon (take j ents) = true ->
      exists op,
        In op (ops c) /\
        iconBox op
        = Some (inject_Z
                  (Math_round
                     (inject_Z b +. inject_Z leftPadding
                      +. measureText e textFont (rowLabel ent)
                      +. inject_Z iconLeftPadding)),
                (inject_Z (rowTop b j)
                 + (inject_Z rowH - inject_Z iconSize) / 2)%Q,
                inject_Z iconSize, inject_Z iconSize).
Proof.
  intros Hne Hr He. cbv zeta.
  destruct (render_canvas e locs w Hne Hr)
    as (w' & c & ents & rowOps & evs & scale & clear
        & Hrun & Hga & Hents & _ & _ & Hrows & Hops & _).
  exists w', c, ents. split; [exact Hrun|]. split; [exact Hga|].
  split; [exact Hents|]. intros j ent Hj Hicons.
  destruct (drawRows_rows _ _ _ _ _ _ _ _ Hrows) as [H1 _].
  destruct (H1 j ent Hj) as (font' & ops_j & Hrow & Hin).
  rewrite fold_fontAfter, Hicons, Nat.add_0_l in Hrow.
  destruct (drawRow_ops _ _ _ _ _ _ _ _ Hrow)
    as (_ & box & badge & -> & Ebox & _).
  exists box. split.
  - rewrite Hops. apply in_or_app. right. apply in_or_app. left.
    apply Hin. right. now left.
  - rewrite Ebox, (iconLeft_textFont e _ ents ent); [reflexivity | | |].
    + destruct (borderChecked e); cbn [borderSize]; lia.
    + exact (widthsInRange_rows e w locs ents He Hents).
    + apply list_elem_of_In. eapply list_elem_of_lookup_2. exact Hj.
Qed.

Lemma icon_follows_its_label_witness :
  exists w' c ents,
    generateGraphic roundingEnv (ArrayOf (map fst dummy)) dummyWorld
    = (Returns tt, w') /\
    graphicArea w' = [CanvasNode c; DownloadLink "top8.png" c] /\
    Forall2 (fun l ent => loaded roundingEnv <$> objects dummyWorld !! l
                          = Some ent) (map fst dummy) ents /\
    forall j ent,
      ents !! j = Some ent ->
      forallb hasIcon (take j ents) = true ->
      exists op,
        In op (ops c) /\
        iconBox op
        = Some (inject_Z
                  (Math_round
                     (inject_Z 0 +. inject_Z leftPadding
                      +. measureText roundingEnv textFont (rowLabel ent)
                      +. inject_Z iconLeftPadding)),
                (inject_Z (rowTop 0 j)
                 + (inject_Z rowH - inject_Z iconSize) / 2)%Q,
                inject_Z iconSize, inject_Z iconSize).
Proof.
  apply (icon_follows_its_label roundingEnv (map fst dummy) dummyWorld);
    [discriminate | exact rounding_renderable | exact rounding_widthsInRange].
Defined.

(** X18: The header is written in the 72px font, in the middle of the header
    band, centred between the left and the right padding of the inner
    area up to the rounding of its place: for widths in the range of a
    browser the two margins differ by at most 2^-29 px and are at least
    the padding less 2^-30 px. *)
Theorem header_is_centred (e : env) (locs : list loc) (w : world) :
  locs <> [] ->
  renderable e w locs ->
  widthsInRange e w locs ->
  let b := borderSize (borderChecked e) in
  exists w' c x y,
    generateGraphic e (ArrayOf locs) w = (Returns tt, w') /\
    graphicArea w' = [CanvasNode c; DownloadLink "top8.png" c] /\
    In (FillText headerFont "#523d30" "left" headerText x y) (ops c) /\
    (inject_Z (b + leftPadding) - (1 # 1073741824) <= x)%Q /\
    (x + headerWidth e
     <= inject_Z (styleWidth c - b - rightPadding) + (1 # 1073741824))%Q /\
    (x - inject_Z b
     <= inject_Z (styleWidth c - b) - (x + headerWidth e)
        + (1 # 536870912))%Q /\
    (inject_Z (styleWidth c - b) - (x + headerWidth e)
     <= x - inject_Z b + (1 # 536870912))%Q /\
    (y == inject_Z b + 36)%Q.
Proof.
  intros Hne Hr He. cbv zeta.
  destruct (render_canvas e locs w Hne Hr)
    as (w' & c & ents & rowOps & evs & scale & clear
        & Hrun & Hga & Hents & Hw & _ & _ & Hops & _).
  exists w', c. eexists _, _. split; [exact Hrun|]. split; [exact Hga|].
  split.
  { rewrite Hops. right. right. left. reflexivity. }
  assert (Hb : 0 <= borderSize (borderChecked e) <= 1)
    by (destruct (borderChecked e); cbn [borderSize]; lia).
  destruct (header_place e _ ents Hb (proj1 He)
              (widthsInRange_rows e w locs ents He Hents)) as (H1 & H2 & H3).
  rewrite Hw. set (iw := innerWidth e ents) in *.
  set (hw := headerWidth e) in *.
  set (b := borderSize (borderChecked e)) in *.
  set (x := inject_Z b +. (inject_Z iw -. hw) /. 2) in *.
  clearbody x hw.
  replace (iw + b * 2 - b - rightPadding)%Z with (b + iw - rightPadding)%Z
    by lia.
  replace (iw + b * 2 - b)%Z with (b + iw)%Z by lia.
  unfold Z.sub. rewrite !inject_Z_plus, !inject_Z_opp.
  change (inject_Z leftPadding) with 4%Q in *.
  change (inject_Z rightPadding) with 4%Q in *.
  change (inject_Z headerHeight) with 72%Q.
  unfold Qdiv in *. change (/ 2)%Q with (1 # 2)%Q in *. repeat split; lra.
Qed.

Lemma header_is_centred_witness :
  exists w' c x y,
    generateGraphic roundingEnv (ArrayOf (map fst dummy)) dummyWorld
    = (Returns tt, w') /\
    graphicArea w' = [CanvasNode c; DownloadLink "top8.png" c] /\
    In (FillText headerFont "#523d30" "left" headerText x y) (ops c) /\
    (inject_Z (0 + leftPadding) - (1 # 1073741824) <= x)%Q /\
    (x + headerWidth roundingEnv
     <= inject_Z (styleWidth c - 0 - rightPadding) + (1 # 1073741824))%Q /\
    (x - inject_Z 0
     <= inject_Z (styleWidth c - 0) - (x + headerWidth roundingEnv)
        + (1 # 536870912))%Q /\
    (inject_Z (styleWidth c - 0) - (x + headerWidth roundingEnv)
     <= x - inject_Z 0 + (1 # 536870912))%Q /\
    (y == inject_Z 0 + 36)%Q.
Proof.
  apply (header_is_centred roundingEnv (map fst dummy) dummyWorld);
    [discriminate | exact rounding_renderable | exact rounding_widthsInRange].
Defined.

(** X19: The border is stroked exactly when the box is checked: it is then the
    last call, one pixel wide, half a pixel inside the logical canvas on
    every side; without the check there is no stroke at all. *)
Theorem border_only_when_checked (e : env) (locs : list loc) (w : world) :
  locs <> [] ->
  renderable e w locs ->
  exists w' c inner,
    generateGraphic e (ArrayOf locs) w = (Returns tt, w') /\
    graphicArea w' = [CanvasNode c; DownloadLink "top8.png" c] /\
    (forall op, In op inner -> isStroke op = false) /\
    ops c
    = (inner ++
       if borderChecked e
       then [StrokeRect "#000000" (inject_Z 1) (inject_Z 1 / 2)
               (inject_Z 1 / 2) (inject_Z (styleWidth c - 1))
               (inject_Z (styleHeight c - 1))]
       else [])%list.
Proof.
  intros Hne Hr.
  destruct (render_canvas e locs w Hne Hr)
    as (w' & c & ents & rowOps & evs & scale & clear
        & Hrun & Hga & _ & _ & _ & Hrows & Hops & _ & _ & Hs & Hc).
  exists w', c,
    ([scale; clear;
      headerOp e (borderSize (borderChecked e)) (innerWidth e ents)]
     ++ rowOps)%list.
  split; [exact Hrun|]. split; [exact Hga|]. split.
  - intros op Hin. apply in_app_or in Hin as [Hin|Hin].
    + destruct Hin as [<- | [<- | [<- | []]]]; auto.
    + destruct (drawRows_rows _ _ _ _ _ _ _ _ Hrows) as [_ H2].
      destruct (H2 op Hin) as (j & ent & font' & ops_j & _ & Hrow & Hop).
      exact (drawRow_no_stroke _ _ _ _ _ _ _ _ Hrow op Hop).
  - rewrite Hops, <- app_assoc. do 2 f_equal. unfold borderOps.
    now destruct (borderChecked e).
Qed.

Lemma border_only_when_checked_witness :
  exists w' c inner,
    generateGraphic (withBorder true dummyEnv) (ArrayOf (map fst dummy))
      dummyWorld = (Returns tt, w') /\
    graphicArea w' = [CanvasNode c; DownloadLink "top8.png" c] /\
    (forall op, In op inner -> isStroke op = false) /\
    ops c
    = (inner ++
       [StrokeRect "#000000" (inject_Z 1) (inject_Z 1 / 2)
          (inject_Z 1 / 2) (inject_Z (styleWidth c - 1))
          (inject_Z (styleHeight c - 1))])%list.
Proof.
  apply (border_only_when_checked (withBorder true dummyEnv)
           (map fst dummy) dummyWorld);
    [discriminate | exact dummy_renderable].
Defined.

(** X24: Every row has its own icon when it loaded, whatever happened to the
    icons of the other rows; a row without icon has a square in the hue
    of its character (or name) and, when that text is ASCII, its initials
    in white, centred on the square. *)
Theorem rows_have_icon_or_badge (e : env) (locs : list loc) (w : world) :
  locs <> [] ->
  renderable e w locs ->
  let b := borderSize (borderChecked e) in
  exists w' c ents,
    generateGraphic e (ArrayOf locs) w = (Returns tt, w') /\
    graphicArea w' = [CanvasNode c; DownloadLink "top8.png" c] /\
    Forall2 (fun l ent => loaded e <$> objects w !! l = Some ent)
      locs ents /\
    forall j ent,
      ents !! j = Some ent ->
      exists x,
        let y :=
          (inject_Z (rowTop b j)
           + (inject_Z rowH - inject_Z iconSize) / 2)%Q in
        match icon ent with
        | Some img =>
            In (DrawImage img (inject_Z x) y (inject_Z iconSize)
                  (inject_Z iconSize)) (ops c)
        | None =>
            In (FillRectHsl
                  (charCodeSum (characterOrName ent) mod 360)%nat
                  (inject_Z x) y (inject_Z iconSize) (inject_Z iconSize))
              (ops c) /\
            (isAscii (characterOrName ent) = true ->
             exists initials,
               charInitials (characterOrName ent) = Returns initials /\
               In (FillText badgeFont "#fff" "center" initials
                     (inject_Z x + inject_Z iconSize / 2)
                     (y + inject_Z iconSize / 2)) (ops c))
        end.
Proof.
  intros Hne Hr. cbv zeta.
  destruct (render_canvas e locs w Hne Hr)
    as (w' & c & ents & rowOps & evs & scale & clear
        & Hrun & Hga & Hents & _ & _ & Hrows & Hops & _).
  exists w', c, ents. split; [exact Hrun|]. split; [exact Hga|].
  split; [exact Hents|]. intros j ent Hj.
  destruct (drawRows_rows _ _ _ _ _ _ _ _ Hrows) as [H1 _].
  destruct (H1 j ent Hj) as (font' & ops_j & Hrow & Hin).
  assert (Hall : forall op, In op ops_j -> In op (ops c)).
  { intros op Hop. rewrite Hops. apply in_or_app. right.
    apply in_or_app. left. now apply Hin. }
  rewrite Nat.add_0_l in Hrow. revert Hrow. unfold drawRow. cbv zeta.
  fold (rowTop (borderSize (borderChecked e)) j).
  destruct (icon ent) as [img|].
  - intros [= _ <-]. eexists. apply Hall. right. left. reflexivity.
  - destruct (charInitials (characterOrName ent)) as [initials|x];
      [|discriminate].
    intros [= _ <-]. eexists. split.
    + apply Hall. right. left. reflexivity.
    + intros _. exists initials. split; [reflexivity|].
      apply Hall. right. right. left. reflexivity.
Qed.

Lemma rows_have_icon_or_badge_witness :
  exists w' c ents,
    generateGraphic dummyEnv (ArrayOf (map fst dummy)) dummyWorld
    = (Returns tt, w') /\
    graphicArea w' = [CanvasNode c; DownloadLink "top8.png" c] /\
    Forall2 (fun l ent => loaded dummyEnv <$> objects dummyWorld !! l
                          = Some ent)
      (map fst dummy) ents /\
    forall j ent,
      ents !! j = Some ent ->
      exists x,
        let y :=
          (inject_Z (rowTop (borderSize (borderChecked dummyEnv)) j)
           + (inject_Z rowH - inject_Z iconSize) / 2)%Q in
        match icon ent with
        | Some img =>
            In (DrawImage img (inject_Z x) y (inject_Z iconSize)
                  (inject_Z iconSize)) (ops c)
        | None =>
            In (FillRectHsl
                  (charCodeSum (characterOrName ent) mod 360)%nat
                  (inject_Z x) y (inject_Z iconSize) (inject_Z iconSize))
              (ops c) /\
            (isAscii (characterOrName ent) = true ->
             exists initials,
               charInitials (characterOrName ent) = Returns initials /\
               In (FillText badgeFont "#fff" "center" initials
                     (inject_Z x + inject_Z iconSize / 2)
                     (y + inject_Z iconSize / 2)) (ops c))
        end.
Proof.
  apply (rows_have_icon_or_badge dummyEnv (map fst dummy) dummyWorld);
    [discriminate | exact dummy_renderable].
Defined.

End RowDrawing.

Section Initials.
Import Js Renderer.
Local Open Scope string_scope.

Lemma snoc_not_empty (cur : string) (c : ascii) : cur ++ String c "" <> "".
Proof. now destruct cur. Qed.

(** The pieces between white space, from a piece that is being read. *)
Lemma words_from (s cur : string) :
  List.filter (fun w => negb (String.eqb w "")) (pieces cur s) = []
  <-> cur = "" /\ forallb isSpace (list_ascii_of_string s) = true.
Proof.
  revert cur. induction s as [|c s IH]; intros cur.
  - cbn [pieces List.filter list_ascii_of_string forallb].
    destruct (String.eqb cur "") eqn:E; cbn [negb].
    + apply String.eqb_eq in E. tauto.
    + apply String.eqb_neq in E. split; [discriminate | tauto].
  - cbn [pieces list_ascii_of_string forallb]. destruct (isSpace c).
    + cbn [List.filter andb].
      destruct (String.eqb cur "") eqn:E; cbn [negb].
      * apply String.eqb_eq in E. rewrite (IH ""). tauto.
      * apply String.eqb_neq in E. split; [discriminate | tauto].
    + cbn [andb]. rewrite IH. split; [|intros [_ ?]; discriminate].
      intros [H _]. now apply snoc_not_empty in H.
Qed.

Lemma words_nil (s : string) :
  words s = [] <-> forallb isSpace (list_ascii_of_string s) = true.
Proof. unfold words. rewrite words_from. tauto. Qed.

Lemma words_not_empty (s w : string) : In w (words s) -> w <> "".
Proof.
  unfold words. rewrite filter_In. intros [_ H] ->. discriminate.
Qed.

Lemma blank_spaces (s : string) :
  forallb isSpace
    (list_ascii_of_string
       (mapChars (fun c => if Ascii.eqb c "&" then " "%char else c) s))
  = blank s.
Proof.
  unfold blank. induction s as [|c s IH]; [reflexivity|].
  cbn [mapChars list_ascii_of_string forallb]. rewrite IH. f_equal.
  destruct (Ascii.eqb_spec c "&") as [-> |]; [reflexivity|].
  now rewrite orb_false_r.
Qed.

Lemma length_mapChars (f : ascii -> ascii) (s : string) :
  String.length (mapChars f s) = String.length s.
Proof. induction s as [|c s IH]; [reflexivity|]. cbn. now rewrite IH. Qed.

(** X13: [charInitials] gives ["?"] for the empty name, throws when the name
    has only white space and ampersands, and gives one or two characters
    otherwise (for a name of ASCII characters, which [toUpperCase] maps
    one to one). *)
Theorem charInitials_outcomes (name : string) :
  (name = "" -> charInitials name = Returns "?") /\
  (name <> "" -> blank name = true ->
   charInitials name
   = Throws (Exn "TypeError"
               "Cannot read properties of undefined (reading '0')")) /\
  (blank name = false -> isAscii name = true ->
   exists s, charInitials name = Returns s /\
             (1 <= String.length s <= 2)%nat).
Proof.
  unfold charInitials. split; [intros ->; reflexivity|]. split.
  - intros Hne Hb. apply String.eqb_neq in Hne. rewrite Hne.
    rewrite <- blank_spaces in Hb. apply words_nil in Hb. now rewrite Hb.
  - intros Hb _.
    assert (Hne : name <> "") by (intros ->; discriminate).
    apply String.eqb_neq in Hne. rewrite Hne.
    set (s' := mapChars _ name).
    assert (Hw : words s' <> []).
    { intros H. apply words_nil in H. subst s'.
      rewrite blank_spaces in H. congruence. }
    pose proof (words_not_empty s') as Hwne.
    destruct (words s') as [|p0 [|p1 rest]]; [congruence | |].
    + eexists. split; [reflexivity|]. rewrite length_mapChars.
      assert (p0 <> "") by (apply Hwne; now left).
      unfold firstChars.
      destruct p0 as [|a [|a' p0]];
        [congruence | cbn [substring String.length]; lia |].
      destruct p0; cbn [substring String.length]; lia.
    + eexists. split; [reflexivity|]. rewrite length_mapChars.
      assert (p0 <> "") by (apply Hwne; now left).
      assert (p1 <> "") by (apply Hwne; right; now left).
      destruct p0 as [|a p0]; [congruence|].
      destruct p1 as [|a' p1]; [congruence|]. unfold firstChars.
      destruct p0, p1; cbn [substring]; rewrite append_cons, append_empty_l;
        cbn [String.length]; lia.
Qed.

Lemma charInitials_outcomes_witness :
  exists s, charInitials "Mr. Game & Watch" = Returns s /\
            (1 <= String.length s <= 2)%nat.
Proof.
  apply (proj2 (proj2 (charInitials_outcomes "Mr. Game & Watch")));
    reflexivity.
Defined.

Lemma charInitials_returns (name : string) :
  (exists s, charInitials name = Returns s)
  <-> name = "" \/ blank name = false.
Proof.
  unfold charInitials.
  destruct (String.eqb_spec name "") as [-> | Hne]; [split; eauto|].
  rewrite <- blank_spaces. set (s' := mapChars _ name).
  pose proof (words_nil s') as Hnil.
  destruct (words s') as [|p0 [|p1 rest]].
  - rewrite (proj1 Hnil eq_refl). split.
    + intros [s Hs]. discriminate.
    + intros [? | ?]; [contradiction | discriminate].
  - split; [|eauto]. intros _. right.
    destruct (forallb isSpace _); [|reflexivity].
    discriminate (proj2 Hnil eq_refl).
  - split; [|eauto]. intros _. right.
    destruct (forallb isSpace _); [|reflexivity].
    discriminate (proj2 Hnil eq_refl).
Qed.

Lemma canDraw_spec (e : env) (ent : entry) :
  canDraw e ent = true
  <-> fst (loadCharacterIcon e (character ent)) <> None \/
      exists s, charInitials (characterOrName ent) = Returns s.
Proof.
  unfold canDraw. rewrite charInitials_returns.
  destruct (fst (loadCharacterIcon e (character ent))) as [img|].
  - split; [intros _; left; discriminate | reflexivity].
  - rewrite orb_true_iff, negb_true_iff, String.eqb_eq. split.
    + intros H. now right.
    + intros [H | H]; [congruence | exact H].
Qed.

Lemma returns_canDraw (e : env) (locs : list loc) (w : world) :
  locs <> [] ->
  fst (generateGraphic e (ArrayOf locs) w) = Returns tt
  <-> forall l, l ∈ locs ->
        exists ent, objects w !! l = Some ent /\ canDraw e ent = true.
Proof.
  intros Hne. split.
  - intros Hr l Hl.
    destruct (generateGraphic e (ArrayOf locs) w) as [r w'] eqn:Hrun.
    cbn [fst] in Hr. subst r.
    destruct (generateGraphic_returns_inv e locs w w' Hne Hrun)
      as (Hp & Hd & _).
    pose proof (entriesAfterPreload_loaded e locs w Hp) as Hents.
    apply list_elem_of_lookup_1 in Hl as [i Hi].
    destruct (Forall2_lookup_l _ _ _ _ _ Hents Hi) as (ent' & Hent' & Hl).
    destruct (objects w !! l) as [ent|] eqn:El; [|discriminate].
    injection Hl as <-. exists ent. split; [reflexivity|].
    rewrite Forall_forall in Hd.
    apply list_elem_of_lookup_2 in Hent'. specialize (Hd _ Hent').
    apply canDraw_spec. exact Hd.
  - intros Hall.
    assert (Hr : renderable e w locs).
    { intros l Hl. destruct (Hall l Hl) as (ent & Hent & Hc).
      exists ent. split; [exact Hent|]. now apply canDraw_spec. }
    destruct (renderable_returns e locs w Hne Hr) as [w' ->]. reflexivity.
Qed.

(** X12: On a non-empty array [generateGraphic] returns exactly when every
    element is an entry whose icon loads or whose badge has initials, that
    is, whose character (or name, without a character) is empty or has
    something else than white space and ampersands; when it throws, the
    graphic area is left empty. *)
Theorem render_returns_iff (e : env) (locs : list loc) (w : world) :
  locs <> [] ->
  let r := generateGraphic e (ArrayOf locs) w in
  (fst r = Returns tt
   <-> forall l, l ∈ locs ->
         exists ent, objects w !! l = Some ent /\ canDraw e ent = true) /\
  (fst r <> Returns tt -> graphicArea (snd r) = []).
Proof.
  intros Hne. cbv zeta. split; [now apply returns_canDraw|].
  unfold generateGraphic. destruct locs as [|l ls]; [congruence|].
  destruct (preloadAll e (l :: ls) _) as [[[]|x] w1] eqn:Ep.
  - cbv zeta. destruct (drawRows _ _ _ _ _ _) as [[rowOps|x] evs];
      cbn [fst snd graphicArea]; [congruence | reflexivity].
  - intros _. cbn [snd].
    pose proof (preloadAll_graphicArea e (l :: ls)
                  {| objects := objects w; graphicArea := [];
                     events := events w |}) as Hga.
    rewrite Ep in Hga. exact Hga.
Qed.

Lemma render_returns_iff_witness :
  let r := generateGraphic dummyEnv (ArrayOf (map fst dummy)) dummyWorld in
  (fst r = Returns tt
   <-> forall l, l ∈ map fst dummy ->
         exists ent, objects dummyWorld !! l = Some ent /\
                     canDraw dummyEnv ent = true) /\
  (fst r <> Returns tt -> graphicArea (snd r) = []).
Proof.
  apply (render_returns_iff dummyEnv (map fst dummy) dummyWorld).
  discriminate.
Defined.

(** *** The icon file of a character *)

Lemma removeChars_twice (p q : ascii -> bool) (s : string) :
  removeChars p (removeChars q s) = removeChars (fun c => p c || q c) s.
Proof.
  induction s as [|c s IH]; [reflexivity|]. cbn [removeChars].
  destruct (q c); [now rewrite orb_true_r|]. cbn [removeChars].
  rewrite orb_false_r. now rewrite IH.
Qed.

Lemma removeChars_empty (p : ascii -> bool) (s : string) :
  removeChars p s = "" <-> forallb p (list_ascii_of_string s) = true.
Proof.
  induction s as [|c s IH]; [easy|].
  cbn [removeChars list_ascii_of_string forallb].
  destruct (p c); cbn [andb]; [exact IH | easy].
Qed.

Lemma removeChars_none (p : ascii -> bool) (s : string) :
  forallb (fun c => negb (p c)) (list_ascii_of_string (removeChars p s))
  = true.
Proof.
  induction s as [|c s IH]; [reflexivity|]. cbn [removeChars].
  destruct (p c) eqn:E; [exact IH|].
  cbn [list_ascii_of_string forallb]. now rewrite E, IH.
Qed.

(** X14: The icon of a character is asked for once, under the name of the
    character without its white space and periods, followed by
    [HeadSSBM.png]; nothing is asked for, and there is no icon, when
    nothing is left of the name. *)
Theorem icon_request (e : env) (character : string) :
  let base :=
    removeChars (fun c => isSpace c || Ascii.eqb c ".") character in
  let url := "../assets/stockicons/" ++ base ++ "HeadSSBM.png" in
  forallb (fun c => negb (isSpace c || Ascii.eqb c "."))
    (list_ascii_of_string base) = true /\
  (dotted character = true -> loadCharacterIcon e character = (None, [])) /\
  (dotted character = false ->
   loadCharacterIcon e character = (loadImage e url, [ImageRequested url])).
Proof.
  cbv zeta. split; [apply removeChars_none|].
  unfold loadCharacterIcon, cleanedIconBase, dotted.
  rewrite removeChars_twice.
  pose proof (removeChars_empty (fun c => isSpace c || Ascii.eqb c ".")
                character) as Hempty.
  set (base := removeChars _ character) in *.
  destruct (String.eqb_spec character "") as [-> | Hne].
  - split; [reflexivity | discriminate].
  - destruct (String.eqb_spec base "") as [Hb | Hb].
    + split; [reflexivity|]. intros H.
      rewrite (proj1 Hempty Hb) in H. discriminate.
    + split; [|reflexivity]. intros H. now apply Hempty in H.
Qed.

Lemma icon_request_witness :
  loadCharacterIcon dummyEnv "Mr. Game & Watch"
  = (loadImage dummyEnv "../assets/stockicons/MrGame&WatchHeadSSBM.png",
     [ImageRequested "../assets/stockicons/MrGame&WatchHeadSSBM.png"]).
Proof.
  apply (proj2 (proj2 (icon_request dummyEnv "Mr. Game & Watch"))).
  reflexivity.
Defined.

End Initials.

Section PageHandlers.
Import Js Util Api Renderer Page.
Local Open Scope string_scope.

(** *** Trimming *)

Lemma trimStart_head (s : string) :
  trimStart s = "" \/
  exists c r, trimStart s = String c r /\ isSpace c = false.
Proof.
  induction s as [|c s IH]; [now left|]. cbn [trimStart].
  destruct (isSpace c) eqn:E; [exact IH|]. right. eauto.
Qed.

Lemma trimEnd_idem (s : string) : trimEnd (trimEnd s) = trimEnd s.
Proof.
  induction s as [|c s IH]; [reflexivity|]. cbn [trimEnd].
  destruct (isSpace c && String.eqb (trimEnd s) "") eqn:E; [reflexivity|].
  cbn [trimEnd]. now rewrite IH, E.
Qed.

Lemma trim_idem (s : string) : trim (trim s) = trim s.
Proof.
  unfold trim. destruct (trimStart_head s) as [-> | (c & r & -> & Hc)];
    [reflexivity|].
  cbn [trimEnd]. rewrite Hc. cbn [andb trimStart]. rewrite Hc.
  pose proof (trimEnd_idem (String c r)) as H. cbn [trimEnd] in H.
  rewrite Hc in H. cbn [andb] in H. exact H.
Qed.

Lemma absent_trimStart (c : ascii) (s : string) :
  absent c s -> absent c (trimStart s).
Proof.
  induction s as [|d s IH]; [auto|]. intros H. cbn [trimStart].
  destruct (isSpace d); [|exact H]. apply IH.
  now apply absent_cons in H.
Qed.

Lemma absent_String (c d : ascii) (s : string) :
  Ascii.eqb d c = false -> absent c s -> absent c (String d s).
Proof.
  unfold absent. intros Hd Hs. rewrite includes_cons, Hs.
  cbn [startsWith]. now rewrite Ascii.eqb_sym, Hd.
Qed.

Lemma absent_trimEnd (c : ascii) (s : string) :
  absent c s -> absent c (trimEnd s).
Proof.
  induction s as [|d s IH]; [auto|]. intros H. cbn [trimEnd].
  apply absent_cons in H as [Hd Hs].
  destruct (isSpace d && _); [reflexivity|].
  apply absent_String; auto.
Qed.

Lemma absent_trim (c : ascii) (s : string) : absent c s -> absent c (trim s).
Proof. intros H. now apply absent_trimEnd, absent_trimStart. Qed.

(** *** The last piece of a split *)

Lemma length_sliceFrom (n : nat) (s : string) :
  (String.length (sliceFrom n s) <= String.length s)%nat.
Proof.
  revert s. induction n as [|n IH]; intros [|c s]; cbn; try lia.
  specialize (IH s). lia.
Qed.

Lemma length_after (a : ascii) (p s : string) :
  includes (String a p) s = true ->
  (String.length (after (String a p) s) < String.length s)%nat.
Proof.
  induction s as [|c s IH]; [discriminate|].
  rewrite includes_cons, after_cons.
  destruct (startsWith (String a p) (String c s)).
  - intros _. cbn [String.length sliceFrom].
    pose proof (length_sliceFrom (String.length p) s). lia.
  - cbn [orb]. intros H. specialize (IH H). cbn [String.length]. lia.
Qed.

Lemma last_split_from (a : ascii) (p : string) (n : nat) :
  forall s cur,
    (String.length s <= n)%nat ->
    exists pre t,
      List.last (split_from (String a p) 0 cur s) "" = t /\
      cur ++ s = pre ++ t /\
      (includes (String a p) s = false -> t = cur ++ s) /\
      (includes (String a p) s = true -> includes (String a p) t = false).
Proof.
  induction n as [|n IH]; intros s cur Hlen.
  - destruct s; [|cbn in Hlen; lia]. exists "", (cur ++ "").
    rewrite append_empty_r, append_empty_l.
    split; [reflexivity|]. split; [reflexivity|].
    split; [reflexivity | discriminate].
  - rewrite split_from_unfold.
    destruct (includes (String a p) s) eqn:E.
    + pose proof (length_after a p s E) as Hlt.
      destruct (IH (after (String a p) s) "" ltac:(lia))
        as (pre & t & Ht & Hdec & Hno & Hyes).
      exists (cur ++ before (String a p) s ++ String a p ++ pre), t.
      split.
      { destruct (split_from (String a p) 0 "" (after (String a p) s))
          eqn:Es; [|exact Ht].
        exfalso. revert Es. rewrite split_from_unfold.
        destruct (includes (String a p) (after (String a p) s));
          discriminate. }
      split.
      { rewrite (before_after_decompose _ _ E) at 1.
        rewrite append_empty_l in Hdec. rewrite Hdec.
        now rewrite !append_assoc. }
      split; [discriminate|]. intros _.
      destruct (includes (String a p) (after (String a p) s)) eqn:E2.
      * now apply Hyes.
      * rewrite (Hno eq_refl), append_empty_l. exact E2.
    + exists "", (cur ++ s). rewrite append_empty_l.
      split; [reflexivity|]. split; [reflexivity|].
      split; [reflexivity | discriminate].
Qed.

(** *** The name of a row *)

Lemma cleanName_trimmed (name : json) (s : string) :
  cleanName name = Returns s -> includes "|" s = false /\ trim s = s.
Proof.
  unfold cleanName.
  destruct (truthy name); cbn [negb]; [|intros [= <-]; now split].
  destruct name as [| | |str| |]; try discriminate. intros [= <-].
  change (split "|" str) with (split_from "|" 0 "" str).
  destruct (last_split_from "|" "" (String.length str) str "" (le_n _))
    as (pre & t & -> & _ & Hno & Hyes).
  split; [|apply trim_idem].
  apply absent_trim. unfold absent.
  destruct (includes "|" str) eqn:E; [now apply Hyes|].
  rewrite (Hno eq_refl), append_empty_l. exact E.
Qed.

(** X20: The cleaned name has no pipe and no white space at its ends; a name
    without pipe is trimmed and kept, a missing or empty name becomes
    [Unknown], and only a value that is not a string makes the helper
    throw. *)
Theorem cleanName_clean (name : json) :
  (forall s, cleanName name = Returns s ->
     includes "|" s = false /\ trim s = s) /\
  (forall str, name = JString str ->
     exists s, cleanName name = Returns s /\
       (str = "" -> s = "Unknown") /\
       (str <> "" -> includes "|" str = false -> s = trim str)) /\
  (truthy name = false -> cleanName name = Returns "Unknown") /\
  (forall x, cleanName name = Throws x ->
     truthy name = true /\ forall str, name <> JString str).
Proof.
  split; [apply cleanName_trimmed|]. split; [|split].
  - intros str ->. unfold cleanName. cbn [truthy]. rewrite negb_involutive.
    destruct (String.eqb_spec str "") as [-> | Hne].
    + exists "Unknown". repeat split. congruence.
    + eexists. split; [reflexivity|]. split; [congruence|].
      intros _ Hno.
      change (split "|" str) with (split_from "|" 0 "" str).
      destruct (last_split_from "|" "" (String.length str) str ""
                  (le_n _)) as (pre & t & -> & _ & Ht & _).
      now rewrite (Ht Hno), append_empty_l.
  - intros H. unfold cleanName. now rewrite H.
  - intros x. unfold cleanName. destruct (truthy name); [|discriminate].
    split; [reflexivity|]. intros str ->. discriminate.
Qed.

(** *** The entries of the generate button *)

(** X21: An entry made from a row has a name that is not empty, and its
    place, name and character have no white space at their ends; a name
    that [cleanName] gave to the form and that was not edited comes
    through unchanged, unless it is empty and becomes [Unknown]. *)
Theorem entryOfRow_normalised (r : row) :
  let ent := entryOfRow r in
  name ent <> "" /\
  trim (place ent) = place ent /\
  trim (name ent) = name ent /\
  trim (character ent) = character ent /\
  icon ent = None /\
  (forall rawName s,
     cleanName rawName = Returns s -> nameInput r = s ->
     name ent = if String.eqb s "" then "Unknown" else s).
Proof.
  cbv zeta. unfold entryOfRow. cbn [place name character icon].
  split.
  { destruct (String.eqb_spec (trim (nameInput r)) ""); [discriminate|].
    assumption. }
  split; [apply trim_idem|]. split.
  { destruct (String.eqb (trim (nameInput r)) ""); [reflexivity|].
    apply trim_idem. }
  split; [apply trim_idem|]. split; [reflexivity|].
  intros rawName s Hs ->. apply cleanName_trimmed in Hs as [_ ->].
  reflexivity.
Qed.

(** *** New objects *)

Lemma allocate_spec (ents : list entry) :
  forall (h h' : gmap loc entry) (locs : list loc),
    allocate ents h = (locs, h') ->
    Forall2 (fun l ent => h' !! l = Some ent) locs ents /\
    (forall l, l ∈ locs -> h !! l = None) /\
    (forall l x, h !! l = Some x -> h' !! l = Some x).
Proof.
  induction ents as [|ent ents IH]; intros h h' locs.
  - cbn [allocate]. intros [= <- <-]. split; [constructor|]. split.
    + intros l Hl. now apply elem_of_nil in Hl.
    + auto.
  - cbn [allocate].
    destruct (allocate ents (<[fresh (dom h) := ent]> h)) as [ls h1] eqn:Ea.
    intros [= <- <-]. destruct (IH _ _ _ Ea) as (Hall & Hnew & Hold).
    assert (Hfresh : h !! fresh (dom h) = None).
    { apply not_elem_of_dom, is_fresh. }
    split; [|split].
    + constructor; [|exact Hall]. apply Hold. apply lookup_insert_eq.
    + intros l Hl. apply elem_of_cons in Hl as [-> | Hl]; [exact Hfresh|].
      apply Hnew in Hl. now apply lookup_insert_None in Hl.
    + intros l x Hl. apply Hold. rewrite lookup_insert_ne; [exact Hl|].
      intros <-. congruence.
Qed.

(** A call of [generateGraphic] leaves the objects that are not in its
    array as they are. *)
Lemma generateGraphic_frame (e : env) (locs : list loc) (w : world)
    (l : loc) :
  l ∉ locs ->
  objects (snd (generateGraphic e (ArrayOf locs) w)) !! l = objects w !! l.
Proof.
  intros Hl. destruct locs as [|l0 ls]; [reflexivity|].
  rewrite generateGraphic_objects by discriminate.
  now rewrite preloadAll_frame by exact Hl.
Qed.

(** A click on new entries: the outcome, the height of the canvas and the
    objects that were there before. *)
Lemma click_on_new_entries (e : env) (ents : list entry) (w : world)
    (locs : list loc) (h : gmap loc entry) :
  ents <> [] ->
  allocate ents (objects w) = (locs, h) ->
  let r :=
    generateGraphic e (ArrayOf locs)
      {| objects := h; graphicArea := graphicArea w; events := events w |} in
  (fst r = Returns tt <-> Forall (fun ent => canDraw e ent = true) ents) /\
  (fst r = Returns tt ->
   exists c,
     graphicArea (snd r) = [CanvasNode c; DownloadLink "top8.png" c] /\
     styleHeight c
     = (headerHeight + headerBottomPadding
        + rowH * Z.of_nat (length ents)
        + 2 * borderSize (borderChecked e))%Z) /\
  (forall l x, objects w !! l = Some x -> objects (snd r) !! l = Some x).
Proof.
  intros Hne Ha. cbv zeta.
  destruct (allocate_spec _ _ _ _ Ha) as (Hall & Hnew & Hold).
  pose proof (Forall2_length _ _ _ Hall) as Hlen.
  assert (Hlocs : locs <> []).
  { intros ->. destruct ents; [congruence | discriminate]. }
  set (w1 := {| objects := h; graphicArea := graphicArea w;
                events := events w |}).
  split; [|split].
  - rewrite (returns_canDraw e locs w1 Hlocs). cbn [objects w1].
    rewrite Forall_forall. split.
    + intros H ent Hent. apply list_elem_of_lookup_1 in Hent as [i Hi].
      destruct (Forall2_lookup_r _ _ _ _ _ Hall Hi) as (l & Hl & Hent).
      apply list_elem_of_lookup_2 in Hl.
      destruct (H l Hl) as (ent' & Hent' & Hc). congruence.
    + intros H l Hl. apply list_elem_of_lookup_1 in Hl as [i Hi].
      destruct (Forall2_lookup_l _ _ _ _ _ Hall Hi) as (ent & Hent & Hl).
      exists ent. split; [exact Hl|]. apply H.
      eapply list_elem_of_lookup_2. exact Hent.
  - intros Hr.
    destruct (generateGraphic e (ArrayOf locs) w1) as [r w'] eqn:Hrun.
    cbn [fst snd] in *. subst r.
    destruct (generateGraphic_returns_inv e locs w1 w' Hlocs Hrun)
      as (Hp & _ & _ & c & Hga & _ & Hh).
    exists c. split; [exact Hga|]. rewrite Hh.
    pose proof (preloaded_entries e locs (cleared w1) Hp) as Hents.
    apply Forall2_length in Hents.
    unfold canvasHeight, innerHeight, entriesAfterPreload.
    rewrite <- Hents, Hlen. lia.
  - intros l x Hl. rewrite generateGraphic_frame; [now apply Hold|].
    intros Hin. apply Hnew in Hin. congruence.
Qed.

(** X22: Without rows the generate button only shows its message; with rows it
    renders new entries, one per row, and the call returns exactly when
    every row can be drawn: the canvas then has one row per row of the
    form.  The objects that were on the heap are not touched. *)
Theorem genBtn_outcomes (e : env) (rows : list row) (w : world) :
  let r := genBtn_click e rows w in
  (rows = [] ->
   r = (Returns tt,
        {| objects := objects w;
           graphicArea := [TextNode "No rows to generate from."];
           events := events w |})) /\
  (rows <> [] ->
   (fst r = Returns tt
    <-> Forall (fun row => canDraw e (entryOfRow row) = true) rows) /\
   (fst r = Returns tt ->
    exists c,
      graphicArea (snd r) = [CanvasNode c; DownloadLink "top8.png" c] /\
      styleHeight c
      = (headerHeight + headerBottomPadding
         + rowH * Z.of_nat (length rows)
         + 2 * borderSize (borderChecked e))%Z)) /\
  (forall l x, objects w !! l = Some x -> objects (snd r) !! l = Some x).
Proof.
  cbv zeta. split; [intros ->; reflexivity|].
  destruct rows as [|row0 rows]; [split; [congruence | auto]|].
  unfold genBtn_click.
  destruct (allocate (map entryOfRow (row0 :: rows)) (objects w))
    as [locs h] eqn:Ea.
  assert (Hne : map entryOfRow (row0 :: rows) <> [])
    by (cbn [map]; discriminate).
  destruct (click_on_new_entries e _ w locs h Hne Ea)
    as (Hiff & Hcanvas & Hframe).
  rewrite Forall_map, length_map in *. split; [|exact Hframe].
  intros _. split; [exact Hiff | exact Hcanvas].
Qed.

(** X23: The test button always renders: with any browser and any page, the
    call returns and shows a canvas with the eight rows of the dummy
    data, and the objects that were on the heap are not touched. *)
Theorem testBtn_always_renders (e : env) (w : world) :
  exists w' c,
    testBtn_click e w = (Returns tt, w') /\
    graphicArea w' = [CanvasNode c; DownloadLink "top8.png" c] /\
    styleHeight c = (656 + 2 * borderSize (borderChecked e))%Z /\
    (forall l x, objects w !! l = Some x -> objects w' !! l = Some x).
Proof.
  unfold testBtn_click.
  destruct (allocate (map snd dummy) (objects w)) as [locs h] eqn:Ea.
  assert (Hne : map snd dummy <> []) by (cbn; discriminate).
  destruct (click_on_new_entries e _ w locs h Hne Ea)
    as (Hiff & Hcanvas & Hframe).
  destruct (generateGraphic e (ArrayOf locs) _) as [r w'].
  cbn [fst snd] in *.
  assert (Hr : r = Returns tt).
  { apply Hiff. unfold canDraw.
    repeat constructor;
      destruct (fst (loadCharacterIcon e _)); reflexivity. }
  subst r. destruct (Hcanvas eq_refl) as (c & Hga & Hh).
  exists w', c. repeat split; auto.
Qed.

End PageHandlers.
